(** * Tibetan-Sanskrit transliteration: the rewrite engine

    A shallow embedding of [tibetan_sanskrit_transliteration/transliterator.py]
    and [loader.py], and the properties of the rewrite engine.

    Python strings are sequences of Unicode code points, and every operation
    of the source ([re.sub], [str.replace], [str.strip], indexing) works on
    code points, so a string is a list of code points here.  String literals
    of the source are written as UTF-8 literals and decoded by [u].

    What the source takes from elsewhere is a parameter: the module
    [normalizer] of the repository, [str.upper], the file system with
    [csv.reader], and [re] on the patterns assembled from rule strings.  On
    the patterns the source writes itself, [re] is the matcher [PyRe]
    defined below.  A field of a rule can be [None], which [csv.DictReader]
    gives for a record shorter than the header. *)

From Stdlib Require Import List NArith Arith Bool Lia String Ascii.
Import ListNotations.

Set Implicit Arguments.

Abbreviation length := List.length.

(* ================================================================== *)
(** * Python strings *)
(* ================================================================== *)

Module Py.

Definition char := N.
Definition str := list char.

(** UTF-8 decoding of a byte sequence (well-formed input is all we feed it). *)
Fixpoint utf8_decode (bs : list N) : str :=
  match bs with
  | [] => []
  | b :: t =>
      if (b <? 128)%N then b :: utf8_decode t
      else if (b <? 224)%N then
        match t with
        | b1 :: t' => ((b - 192) * 64 + (b1 - 128))%N :: utf8_decode t'
        | _ => []
        end
      else if (b <? 240)%N then
        match t with
        | b1 :: b2 :: t' =>
            ((b - 224) * 4096 + (b1 - 128) * 64 + (b2 - 128))%N :: utf8_decode t'
        | _ => []
        end
      else
        match t with
        | b1 :: b2 :: b3 :: t' =>
            ((b - 240) * 262144 + (b1 - 128) * 4096 + (b2 - 128) * 64 + (b3 - 128))%N
              :: utf8_decode t'
        | _ => []
        end
  end.

(** [u "..."] is the Python string written between the quotes. *)
Definition u (s : string) : str :=
  utf8_decode (map N_of_ascii (list_ascii_of_string s)).

Definition eqb_str (a b : str) : bool :=
  if list_eq_dec N.eq_dec a b then true else false.

(** [str.isspace] on one code point: the Unicode white space of CPython. *)
Definition isspace (c : char) : bool :=
  ((9 <=? c) && (c <=? 13) || (28 <=? c) && (c <=? 32) || (c =? 133)
   || (c =? 160) || (c =? 5760) || (8192 <=? c) && (c <=? 8202)
   || (c =? 8232) || (c =? 8233) || (c =? 8239) || (c =? 8287)
   || (c =? 12288))%N.

Fixpoint lstrip (s : str) : str :=
  match s with
  | c :: t => if isspace c then lstrip t else s
  | [] => []
  end.

(** [s.strip()] *)
Definition strip (s : str) : str := rev (lstrip (rev (lstrip s))).

(** [s.startswith(p)] *)
Fixpoint startswith (p s : str) : bool :=
  match p, s with
  | [], _ => true
  | a :: p', b :: s' => (a =? b)%N && startswith p' s'
  | _ :: _, [] => false
  end.

(** [s.endswith(p)] *)
Definition endswith (p s : str) : bool := startswith (rev p) (rev s).

(** The scan of [s.replace(old, new)] for a non-empty [old]: [skip] counts the
    characters of an occurrence already replaced that are still to be passed. *)
Fixpoint replace_scan (old new : str) (skip : nat) (s : str) : str :=
  match s with
  | [] => []
  | c :: t =>
      match skip with
      | S k => replace_scan old new k t
      | O =>
          if startswith old s
          then new ++ replace_scan old new (length old - 1) t
          else c :: replace_scan old new 0 t
      end
  end.

(** [s.replace(old, new)]: every non-overlapping occurrence, left to right;
    an empty [old] matches before every character and at the end. *)
Definition replace (old new s : str) : str :=
  match old with
  | [] => new ++ flat_map (fun c => c :: new) s
  | _ => replace_scan old new 0 s
  end.

(** [old in s] *)
Fixpoint contains (old s : str) : bool :=
  startswith old s || match s with [] => false | _ :: t => contains old t end.

End Py.
Import Py.

(* ================================================================== *)
(** * Exceptions *)
(* ================================================================== *)

(** The exceptions that can leave the modelled code.  [ReError] is Python's
    [re.error], the only one the source catches.  [Unsupported] is not a
    Python exception: the fragment matcher [PyRe] below reports with it a
    pattern or template that uses a construct it does not model. *)
Inductive exn : Type :=
| ReError | OverflowError | IndexError | AttributeError | KeyError | OSError
| TypeError | Unsupported.

Inductive outcome (A : Type) : Type :=
| Ok (a : A)
| Raise (e : exn).
Arguments Ok {A} a.
Arguments Raise {A} e.

Definition bind {A B} (c : outcome A) (k : A -> outcome B) : outcome B :=
  match c with
  | Ok a => k a
  | Raise e => Raise e
  end.

Notation "x <- c ;; k" := (bind c (fun x => k))
  (at level 61, c at next level, right associativity).

(** [try: c  except re.error: h] *)
Definition try_except_re {A} (c : outcome A) (h : outcome A) : outcome A :=
  match c with
  | Raise ReError => h
  | _ => c
  end.

Definition exn_eqb (a b : exn) : bool :=
  match a, b with
  | ReError, ReError | OverflowError, OverflowError | IndexError, IndexError
  | AttributeError, AttributeError | KeyError, KeyError | OSError, OSError
  | TypeError, TypeError | Unsupported, Unsupported => true
  | _, _ => false
  end.

(* ================================================================== *)
(** * The interface of [re] and [re.sub] *)
(* ================================================================== *)

Module Re.

(** A parsed replacement template: literal text and group references. *)
Inductive titem : Type :=
| TLit (s : str)
| TGroup (n : nat).

(** A match found in the text after the current position: it starts [m_skip]
    characters further on, is [m_len] characters long, and [m_groups] holds
    the text of the groups that took part. *)
Record mtch : Type := {
  m_skip : nat;
  m_len : nat;
  m_groups : list (nat * str)
}.

(** [m.group(n)], [None] for a group that did not take part. *)
Fixpoint lookup_group (n : nat) (gs : list (nat * str)) : option str :=
  match gs with
  | [] => None
  | (k, t) :: gs' => if Nat.eqb k n then Some t else lookup_group n gs'
  end.

Definition group (m : mtch) (n : nat) : option str :=
  lookup_group n (m_groups m).

(** What the source uses of a regular-expression library: compiling a
    pattern, parsing a replacement template against a compiled pattern (both
    can raise), and searching the leftmost match in [after], the text that
    follows [before]; with [must_advance] an empty match at the very start of
    [after] is not accepted.  A search is taken to return: the exceptions of
    a matcher that runs out of memory or of stack are not modelled. *)
Record engine : Type := {
  re_pat : Type;
  re_compile : str -> outcome re_pat;
  re_template : re_pat -> str -> outcome (list titem);
  re_search : re_pat -> str -> str -> bool -> option mtch
}.

(** Expansion of a template at a match; a group that did not take part
    expands to the empty string. *)
Definition expand (t : list titem) (m : mtch) : str :=
  flat_map (fun it =>
              match it with
              | TLit s => s
              | TGroup n => match group m n with Some g => g | None => [] end
              end) t.

Section Sub.
Variable E : engine.

(** The loop of [re.sub]: search from the end of the previous match, copy the
    text passed over, append the replacement, and go on after the match; after
    an empty match the next one must advance. *)
Fixpoint sub_loop (fuel : nat) (p : re_pat E) (repl : mtch -> outcome str)
    (before after : str) (must_advance : bool) : outcome str :=
  match fuel with
  | O => Ok after
  | S fuel' =>
      match re_search E p before after must_advance with
      | None => Ok after
      | Some m =>
          let e := m_skip m + m_len m in
          piece <- repl m ;;
          rest <- sub_loop fuel' p repl (before ++ firstn e after)
                    (skipn e after) (Nat.eqb (m_len m) 0) ;;
          Ok (firstn (m_skip m) after ++ piece ++ rest)
      end
  end.

(** Two matches at most end at each position, so this many rounds suffice. *)
Definition sub_fuel (s : str) : nat := 2 * length s + 2.

(** [re.sub(pattern, repl, s)] with a callable [repl]. *)
Definition re_sub_fn (pattern : str) (repl : mtch -> outcome str) (s : str)
    : outcome str :=
  p <- re_compile E pattern ;;
  sub_loop (sub_fuel s) p repl [] s false.

(** [re.sub(pattern, repl, s)] with a template string [repl]: the template is
    parsed once, before the search. *)
Definition re_sub (pattern repl s : str) : outcome str :=
  p <- re_compile E pattern ;;
  t <- re_template E p repl ;;
  sub_loop (sub_fuel s) p (fun m => Ok (expand t m)) [] s false.

End Sub.

End Re.
Import Re.

(* ================================================================== *)
(** * A matcher for a fragment of Python's pattern language *)
(* ================================================================== *)

(** [PyRe] models [re] on the fragment of its pattern language that contains
    every pattern the source writes itself: literals, escaped punctuation,
    [.], character sets with ranges and negation, numbered groups,
    alternation and the greedy repeats [* + ? {m} {m,} {m,n}].  It follows
    CPython's parser ([_parser.py]) and backtracking matcher ([sre_lib.h]):
    errors are raised where CPython raises them, alternatives and greedy
    repeats are tried in CPython's order, and the first success is the match.
    A pattern outside the fragment (anchors, classes such as [\d], lazy and
    possessive repeats, [(?...)] extensions, backreferences) is reported as
    [Unsupported], never silently given a meaning. *)
Module PyRe.

Inductive regex : Type :=
| Eps
| Chr (c : char)
| Any
| Cls (neg : bool) (rs : list (char * char))
| Seq (r1 r2 : regex)
| Alt (r1 r2 : regex)
| Grp (n : nat) (r : regex)
| Rep (lo : N) (hi : option N) (r : regex).

Definition groups := list (nat * str).

(** All the ways a pattern can match a prefix of the text, in the order the
    backtracking matcher tries them: each is the text left over and the
    groups set. *)
Definition results := list (str * groups).

Definition in_ranges (c : char) (rs : list (char * char)) : bool :=
  existsb (fun ab => (fst ab <=? c)%N && (c <=? snd ab)%N) rs.

Definition below (hi : option N) (count : N) : bool :=
  match hi with
  | None => true
  | Some h => (count <? h)%N
  end.

Definition same_pos (last : option nat) (n : nat) : bool :=
  match last with
  | Some k => Nat.eqb k n
  | None => false
  end.

(** A greedy repeat ([MAX_UNTIL]): below the minimum the body must match
    again; then, while the maximum allows and the previous round moved, one
    more round is tried before the rest of the pattern. *)
Fixpoint rep_ms (body : str -> groups -> results) (lo : N) (hi : option N)
    (fuel : nat) (count : N) (last : option nat) (s : str) (g : groups)
    : results :=
  match fuel with
  | O => []
  | S fuel' =>
      if (count <? lo)%N then
        flat_map (fun tg => rep_ms body lo hi fuel' (count + 1) last
                              (fst tg) (snd tg))
                 (body s g)
      else
        (if below hi count && negb (same_pos last (length s))
         then flat_map (fun tg => rep_ms body lo hi fuel' (count + 1)
                                    (Some (length s)) (fst tg) (snd tg))
                       (body s g)
         else [])
        ++ [(s, g)]
  end.

Fixpoint ms (r : regex) (s : str) (g : groups) : results :=
  match r with
  | Eps => [(s, g)]
  | Chr c =>
      match s with
      | x :: t => if (x =? c)%N then [(t, g)] else []
      | [] => []
      end
  | Any =>
      match s with
      | x :: t => if (x =? 10)%N then [] else [(t, g)]
      | [] => []
      end
  | Cls neg rs =>
      match s with
      | x :: t => if xorb neg (in_ranges x rs) then [(t, g)] else []
      | [] => []
      end
  | Seq r1 r2 => flat_map (fun tg => ms r2 (fst tg) (snd tg)) (ms r1 s g)
  | Alt r1 r2 => ms r1 s g ++ ms r2 s g
  | Grp n r =>
      map (fun tg => (fst tg,
                      (n, firstn (length s - length (fst tg)) s) :: snd tg))
          (ms r s g)
  | Rep lo hi r =>
      rep_ms (ms r) lo hi (N.to_nat lo + length s + 2) 0 None s g
  end.

(** The first success, passing over an empty one when the match must
    advance ([n0] is the length of the text at the start). *)
Fixpoint first_ok (rs : results) (must_advance : bool) (n0 : nat)
    : option (str * groups) :=
  match rs with
  | [] => None
  | tg :: rs' =>
      if must_advance && Nat.eqb (length (fst tg)) n0
      then first_ok rs' must_advance n0
      else Some tg
  end.

(** The leftmost match: the pattern is tried at the start of the text and
    then one character further on each time; [k] counts the characters
    passed.  Group 0 is the whole match. *)
Fixpoint find (r : regex) (s : str) (must_advance : bool) (k : nat)
    : option mtch :=
  match first_ok (ms r s []) must_advance (length s) with
  | Some tg =>
      let n := length s - length (fst tg) in
      Some {| m_skip := k; m_len := n;
              m_groups := snd tg ++ [(0, firstn n s)] |}
  | None =>
      match s with
      | [] => None
      | _ :: s' => find r s' false (S k)
      end
  end.

(** ** The pattern parser *)

Definition is_digit (c : char) : bool := ((48 <=? c) && (c <=? 57))%N.

Definition is_ascii_letter (c : char) : bool :=
  ((65 <=? c) && (c <=? 90) || (97 <=? c) && (c <=? 122))%N.

Definition is_ascii_alnum (c : char) : bool := is_digit c || is_ascii_letter c.

Fixpoint take_digits (s : str) : str * str :=
  match s with
  | c :: t =>
      if is_digit c
      then let dt := take_digits t in (c :: fst dt, snd dt)
      else ([], s)
  | [] => ([], [])
  end.

Definition digits_value (ds : str) : N :=
  fold_left (fun acc d => (acc * 10 + (d - 48))%N) ds 0%N.

(** [MAXREPEAT] of CPython. *)
Definition MAXREPEAT : N := 4294967295.

(** The counts of [{lo,hi}], an empty bound being 0 or unbounded. *)
Definition repeat_bounds (lo hi : str) : outcome (N * option N) :=
  let lo_v := digits_value lo in
  let hi_v := digits_value hi in
  if negb (eqb_str lo []) && (MAXREPEAT <=? lo_v)%N then Raise OverflowError
  else if negb (eqb_str hi []) && (MAXREPEAT <=? hi_v)%N then Raise OverflowError
  else if negb (eqb_str hi []) && (hi_v <? lo_v)%N then Raise ReError
  else Ok (lo_v, if eqb_str hi [] then None else Some hi_v).

(** What follows a [{]: the bounds and the text after the closing brace, or
    [None] when it is not a repeat and the brace is a literal. *)
Definition parse_braces (t : str) : option (str * str * str) :=
  match t with
  | 125%N :: _ => None
  | _ =>
      let lo := take_digits t in
      let hi :=
        match snd lo with
        | 44%N :: t1 => take_digits t1
        | _ => (fst lo, snd lo)
        end in
      match snd hi with
      | 125%N :: t2 => Some (fst lo, fst hi, t2)
      | _ => None
      end
  end.

(** The members of a character set, up to the closing bracket. *)
Fixpoint parse_set (fuel : nat) (acc : list (char * char)) (s : str)
    : outcome (list (char * char) * str) :=
  match fuel with
  | O => Raise Unsupported
  | S fuel' =>
      match s with
      | [] => Raise ReError
      | c :: t =>
          if (c =? 93)%N && negb (match acc with [] => true | _ => false end)
          then Ok (rev acc, t)
          else
            let first :=
              if (c =? 92)%N then
                match t with
                | [] => Raise ReError
                | d :: t' =>
                    if is_ascii_alnum d then Raise Unsupported else Ok (d, t')
                end
              else Ok (c, t) in
            a <- first ;;
            match snd a with
            | 45%N :: t1 =>
                match t1 with
                | [] => Raise ReError
                | 93%N :: t2 => Ok (rev ((45%N, 45%N) :: (fst a, fst a) :: acc), t2)
                | d :: t2 =>
                    b <- (if (d =? 92)%N then
                            match t2 with
                            | [] => Raise ReError
                            | d' :: t3 =>
                                if is_ascii_alnum d' then Raise Unsupported
                                else Ok (d', t3)
                            end
                          else Ok (d, t2)) ;;
                    if (fst b <? fst a)%N then Raise ReError
                    else parse_set fuel' ((fst a, fst b) :: acc) (snd b)
                end
            | rest => parse_set fuel' ((fst a, fst a) :: acc) rest
            end
      end
  end.

Definition seq_of (items : list regex) : regex := fold_right Seq Eps items.

Fixpoint alt_of (r : regex) (rs : list regex) : regex :=
  match rs with
  | [] => r
  | r' :: rs' => Alt r (alt_of r' rs')
  end.

(** A repeat applies to the item before it; [acc] is the sequence so far,
    last item first. *)
Definition apply_repeat (lo : N) (hi : option N) (acc : list regex) (rest : str)
    : outcome (list regex) :=
  match acc with
  | [] => Raise ReError
  | Rep _ _ _ :: _ => Raise ReError
  | item :: acc' =>
      match rest with
      | 63%N :: _ | 43%N :: _ => Raise Unsupported
      | _ => Ok (Rep lo hi item :: acc')
      end
  end.

(** [parse_seq] reads items up to [|], [)] or the end; [parse_alt] reads the
    alternatives of one level.  [ng] is the number of groups opened so far. *)
Fixpoint parse_seq (fuel : nat) (ng : nat) (acc : list regex) (s : str)
    {struct fuel} : outcome (regex * nat * str) :=
  match fuel with
  | O => Raise Unsupported
  | S fuel' =>
      match s with
      | [] => Ok (seq_of (rev acc), ng, [])
      | c :: t =>
          if (c =? 124)%N || (c =? 41)%N then Ok (seq_of (rev acc), ng, s)
          else if (c =? 92)%N then
            match t with
            | [] => Raise ReError
            | d :: t' =>
                if is_ascii_alnum d then Raise Unsupported
                else parse_seq fuel' ng (Chr d :: acc) t'
            end
          else if (c =? 91)%N then
            let neg := match t with 94%N :: _ => true | _ => false end in
            let body := match t with 94%N :: t' => t' | _ => t end in
            st <- parse_set (S (length body)) [] body ;;
            parse_seq fuel' ng (Cls neg (fst st) :: acc) (snd st)
          else if (c =? 42)%N then
            acc' <- apply_repeat 0 None acc t ;; parse_seq fuel' ng acc' t
          else if (c =? 43)%N then
            acc' <- apply_repeat 1 None acc t ;; parse_seq fuel' ng acc' t
          else if (c =? 63)%N then
            acc' <- apply_repeat 0 (Some 1%N) acc t ;; parse_seq fuel' ng acc' t
          else if (c =? 123)%N then
            match parse_braces t with
            | None => parse_seq fuel' ng (Chr c :: acc) t
            | Some (lo, hi, t') =>
                b <- repeat_bounds lo hi ;;
                acc' <- apply_repeat (fst b) (snd b) acc t' ;;
                parse_seq fuel' ng acc' t'
            end
          else if (c =? 46)%N then parse_seq fuel' ng (Any :: acc) t
          else if (c =? 40)%N then
            match t with
            | 63%N :: _ => Raise Unsupported
            | _ =>
                inner <- parse_alt fuel' (S ng) [] t ;;
                match snd inner with
                | 41%N :: t' =>
                    parse_seq fuel' (snd (fst inner))
                      (Grp (S ng) (fst (fst inner)) :: acc) t'
                | _ => Raise ReError
                end
            end
          else if (c =? 94)%N || (c =? 36)%N then Raise Unsupported
          else parse_seq fuel' ng (Chr c :: acc) t
      end
  end
with parse_alt (fuel : nat) (ng : nat) (alts : list regex) (s : str)
    {struct fuel} : outcome (regex * nat * str) :=
  match fuel with
  | O => Raise Unsupported
  | S fuel' =>
      one <- parse_seq fuel' ng [] s ;;
      match snd one with
      | 124%N :: t => parse_alt fuel' (snd (fst one)) (fst (fst one) :: alts) t
      | rest =>
          match rev (fst (fst one) :: alts) with
          | [] => Raise Unsupported
          | r :: rs => Ok (alt_of r rs, snd (fst one), rest)
          end
      end
  end.

(** A compiled pattern: the expression and the number of its groups. *)
Definition pat : Type := regex * nat.

(** [re.compile]: what is left after the top level can only be an unmatched
    closing parenthesis. *)
Definition compile (p : str) : outcome pat :=
  r <- parse_alt (2 * length p + 2) 0 [] p ;;
  match snd r with
  | [] => Ok (fst (fst r), snd (fst r))
  | _ => Raise ReError
  end.

(** ** The template parser *)

Definition template_escape (c : char) : option char :=
  if (c =? 92)%N then Some 92%N
  else if (c =? 110)%N then Some 10%N
  else if (c =? 116)%N then Some 9%N
  else if (c =? 114)%N then Some 13%N
  else if (c =? 97)%N then Some 7%N
  else if (c =? 98)%N then Some 8%N
  else if (c =? 102)%N then Some 12%N
  else if (c =? 118)%N then Some 11%N
  else None.

(** The characters of a template and its one-digit group references [\1] to
    [\9]; [\g<...>], [\0] and references of several digits are not
    modelled. *)
Fixpoint parse_template (ngroups : nat) (t : str) : outcome (list titem) :=
  match t with
  | [] => Ok []
  | 92%N :: [] => Raise ReError
  | 92%N :: c :: t' =>
      if (c =? 103)%N || (c =? 48)%N then Raise Unsupported
      else if is_digit c then
        match t' with
        | d :: _ => if is_digit d then Raise Unsupported else
            let n := N.to_nat (c - 48) in
            if Nat.ltb ngroups n then Raise ReError
            else rest <- parse_template ngroups t' ;; Ok (TGroup n :: rest)
        | [] =>
            let n := N.to_nat (c - 48) in
            if Nat.ltb ngroups n then Raise ReError else Ok [TGroup n]
        end
      else
        match template_escape c with
        | Some e => rest <- parse_template ngroups t' ;; Ok (TLit [e] :: rest)
        | None =>
            if is_ascii_letter c then Raise ReError
            else rest <- parse_template ngroups t' ;; Ok (TLit [92%N; c] :: rest)
        end
  | c :: t' => rest <- parse_template ngroups t' ;; Ok (TLit [c] :: rest)
  end.

(** The fragment as an instance of the interface. *)
Definition engine : Re.engine :=
  {| re_pat := pat;
     re_compile := compile;
     re_template := fun p t => parse_template (snd p) t;
     re_search := fun p _ after must_advance => find (fst p) after must_advance 0 |}.

End PyRe.

(* ================================================================== *)
(** * The transliterator *)
(* ================================================================== *)

(** A value of a rule dict is a string or [None]: [csv.DictReader] gives
    [None] for a field that a short row does not have, and the loader stores
    what it is given.  Here [None] is Python's [None]. *)
Definition value : Type := option str.

(** One entry of [self.replacements]: a dict with the keys ['tibetan'],
    ['transliteration'] and ['phonetics'].  The last one is always a string
    (line 32 of the loader). *)
Record rule : Type := {
  tibetan : value;
  transliteration : value;
  phonetics : str
}.

(** An instance of the class: its only attribute. *)
Record TibetanSanskritTransliterator : Type := {
  replacements : list rule
}.

(** Where the loader reads from: the bundled data file or a path of the
    caller. *)
Inductive csv_file : Type :=
| BundledData
| UserPath (p : str).

(** What [csv.reader] yields on an open file: its records, each a list of
    fields (a blank line is the empty record), and the exception, if any,
    that reading raises after them. *)
Record csv_reading : Type := {
  records : list (list str);
  failure : option exn
}.

(** A row of [csv.DictReader]: the dict it builds for a record, as the list
    of its assignments in the order they are made. *)
Definition csv_row : Type := list (str * value).

(** [dict(zip(fieldnames, row))], then [d[key] = None] for the field names
    the record is too short for.  The fields beyond the header go under the
    key [None], which no string key reads. *)
Fixpoint dict_row (fieldnames : list str) (record : list str) : csv_row :=
  match fieldnames with
  | [] => []
  | k :: ks =>
      match record with
      | v :: vs => (k, Some v) :: dict_row ks vs
      | [] => (k, None) :: dict_row ks []
      end
  end.

(** [key in row] and [row[key]]: the last assignment to the key counts. *)
Fixpoint row_get (key : str) (row : csv_row) : option value :=
  match row with
  | [] => None
  | (k, v) :: row' =>
      match row_get key row' with
      | Some v' => Some v'
      | None => if eqb_str k key then Some v else None
      end
  end.

(** The objects of the process: the instances created so far, by allocation
    order (a reference is an index), and the module global
    [_default_transliterator]. *)
Record world : Type := {
  heap : list TibetanSanskritTransliterator;
  _default_transliterator : option nat
}.

(** A computation on the process state that returns or raises. *)
Definition M (A : Type) : Type := world -> outcome A * world.

Definition ret {A} (a : A) : M A := fun w => (Ok a, w).

(** A computation that does not touch the process state. *)
Definition lift {A} (o : outcome A) : M A := fun w => (o, w).

Definition bind_m {A B} (c : M A) (k : A -> M B) : M B :=
  fun w =>
    match c w with
    | (Ok a, w') => k a w'
    | (Raise e, w') => (Raise e, w')
    end.

Notation "x <~ c ;; k" := (bind_m c (fun x => k))
  (at level 61, c at next level, right associativity).

(** [self.replacements]. *)
Definition read_replacements (self : nat) : M (list rule) :=
  fun w =>
    match nth_error (heap w) self with
    | Some t => (Ok (replacements t), w)
    | None => (Raise AttributeError, w)
    end.

(** The vowel signs of the source: U+0F71 U+0F72 U+0F74 U+0F7A U+0F7C U+0F7E
    U+0F80. *)
Definition vowel_markers : str :=
  [3953; 3954; 3956; 3962; 3964; 3966; 3968]%N.

Definition tshek : char := 3851%N.

(** The calls a client can make on the module. *)
Inductive api_call : Type :=
| CallConstructor (csv_path : option str)
| CallMethod (self : nat) (text mode : str) (capitalize : bool)
    (anusvara_style : str)
| CallTransliterate (text mode : str) (capitalize : bool)
    (anusvara_style : str) (csv_path : option str)
| CallGetTransliterator (csv_path : option str).

Section Transliterator.

(** [re] on the patterns assembled from rule strings, which can use any
    construct of the pattern language.  The source's own patterns lie in the
    fragment of [PyRe], which is [re] on them. *)
Variable E : Re.engine.

(** The module [normalizer] of the repository is not among the sources.  On
    a string each of its two functions returns a string.  What they do on
    [None], which they are given for a field that a short row of the file
    does not have, is a parameter of its own: they raise, or return a
    value. *)
Variable normalize_tibetan : str -> bool -> str.
Variable normalize_tibetan_none : outcome value.
Variable normalize_iast : str -> str.
Variable normalize_iast_none : outcome value.

(** [str.upper] on one character (it can give several). *)
Variable upper : char -> str.

(** [open] and [csv.reader] on a file: [open] raises, or the reader is
    there. *)
Variable read_csv : csv_file -> outcome csv_reading.

Definition is_phonetics (mode : str) : bool := eqb_str mode (u "phonetics").

(** [normalize_iast(v)] and [normalize_tibetan(v)] on a value. *)
Definition call_normalize_iast (v : value) : outcome value :=
  match v with
  | Some s => Ok (Some (normalize_iast s))
  | None => normalize_iast_none
  end.

Definition call_normalize_tibetan (v : value) : outcome value :=
  match v with
  | Some s => Ok (Some (normalize_tibetan s false))
  | None => normalize_tibetan_none
  end.

(** [word['phonetics'] or normalize_iast(word['transliteration'])] in
    phonetics mode, [word['transliteration']] otherwise (lines 60-63). *)
Definition replacement_for (mode : str) (word : rule) : outcome value :=
  if is_phonetics mode then
    match phonetics word with
    | [] => call_normalize_iast (transliteration word)
    | ph => Ok (Some ph)
    end
  else Ok (transliteration word).

(** The five patterns the loop assembles from a rule's pattern. *)
Definition nam_pattern (pattern : str) : str :=
  u "(" ++ pattern ++ u "[^་།༑༔]*)་ནཱཾ".
Definition boundary_pattern (pattern : str) : str := pattern ++ u "[་།༑༔]".
Definition visarga_pattern (pattern : str) : str := pattern ++ u "ཿ".
Definition vowel_pattern (pattern : str) : str :=
  pattern ++ u "([" ++ vowel_markers ++ u "])".

(** And their replacement templates. *)
Definition nam_template (mode : str) : str :=
  u "\1་^^^" ++ (if is_phonetics mode then u "nam" else u "nāṃ").
Definition boundary_template (replacement : str) : str := replacement ++ u " ".
Definition visarga_template (mode base : str) : str :=
  base ++ (if is_phonetics mode then u "ah" else u "aḥ").
Definition vowel_template (base : str) : str := base ++ u "\1".

(** Lines 71-79: the -nāṃ suffix. *)
Definition nam_step (mode pattern replaced : str) : outcome str :=
  try_except_re
    (re_sub E (nam_pattern pattern) (nam_template mode) replaced)
    (Ok replaced).

(** Lines 83-109: a replacement ending in 'a'.  The three substitutions share
    one [try]; each assigns [replaced], so what was done before the one that
    raises [re.error] stays. *)
Definition inherent_a_step (mode pattern replacement replaced : str)
    : outcome str :=
  if endswith (u "a") replacement then
    let base := removelast replacement in
    try_except_re
      (r1 <- re_sub E (boundary_pattern pattern)
               (boundary_template replacement) replaced ;;
       try_except_re
         (r2 <- re_sub E (visarga_pattern pattern)
                  (visarga_template mode base) r1 ;;
          try_except_re
            (re_sub E (vowel_pattern pattern) (vowel_template base) r2)
            (Ok r2))
         (Ok r1))
      (Ok replaced)
  else Ok replaced.

(** Lines 111-116: the general replacement and its literal fallback. *)
Definition general_step (pattern replacement replaced : str) : outcome str :=
  try_except_re
    (re_sub E pattern replacement replaced)
    (Ok (replace pattern replacement replaced)).

(** The body of the loop for one rule.  The replacement is computed first;
    a pattern that is empty or [None] ends the round; [replacement.endswith]
    on a replacement that is [None] raises [AttributeError], outside every
    [try]. *)
Definition rule_step (mode : str) (word : rule) (replaced : str)
    : outcome str :=
  replacement <- replacement_for mode word ;;
  match tibetan word with
  | None | Some [] => Ok replaced
  | Some pattern =>
      r1 <- nam_step mode pattern replaced ;;
      match replacement with
      | None => Raise AttributeError
      | Some replacement =>
          r2 <- inherent_a_step mode pattern replacement r1 ;;
          general_step pattern replacement r2
      end
  end.

(** [for word in self.replacements: ...] *)
Fixpoint rule_loop (mode : str) (rules : list rule) (replaced : str)
    : outcome str :=
  match rules with
  | [] => Ok replaced
  | word :: rules' =>
      r <- rule_step mode word replaced ;;
      rule_loop mode rules' r
  end.

(** Lines 124-125: the double-vowel fix. *)
Definition vowel_cleanup (result : str) : outcome str :=
  result <- re_sub PyRe.engine (u "a([āīūṛṝḷḹ])") (u "\1") result ;;
  re_sub PyRe.engine (u "a([ṃṁ])") (u "\1") result.

(** [lambda m: '    ' + m.group(1).upper()]; calling [upper] on the [None]
    of a group that did not take part raises [AttributeError]. *)
Definition capitalize_group (m : mtch) : outcome str :=
  match group m 1 with
  | Some g => Ok (u "    " ++ flat_map upper g)
  | None => Raise AttributeError
  end.

(** Lines 127-132. *)
Definition capitalization (capitalize : bool) (result : str) : outcome str :=
  if capitalize then
    let result :=
      match result with
      | c :: t => upper c ++ t
      | [] => result
      end in
    re_sub_fn PyRe.engine (u " {2,}(.)") capitalize_group result
  else re_sub PyRe.engine (u " {2,}") (u "    ") result.

(** Lines 134-136. *)
Definition apply_anusvara_style (anusvara_style result : str) : str :=
  if eqb_str anusvara_style (u "ṁ")
  then replace (u "ṃ") (u "ṁ") result
  else result.

(** Lines 118-138: everything after the loop. *)
Definition finish (capitalize : bool) (anusvara_style replaced : str)
    : outcome str :=
  let result := replace (u "་") (u " ") replaced in
  result <- re_sub PyRe.engine (u " ?\^\^\^") (u "") result ;;
  result <- vowel_cleanup result ;;
  result <- capitalization capitalize result ;;
  Ok (strip (apply_anusvara_style anusvara_style result)).

(** What the method [transliterate] computes from the rule list of its
    object. *)
Definition transliterate_rules (rules : list rule) (text mode : str)
    (capitalize : bool) (anusvara_style : str) : outcome str :=
  let replaced := normalize_tibetan text true in
  replaced <- rule_loop mode rules replaced ;;
  finish capitalize anusvara_style replaced.

(** [load_replacements] of [loader.py], lines 28-33: [row['tibetan']] and
    [row['transliteration']] raise [KeyError] when the header has no such
    column and give [None] when the record is too short;
    [row.get('phonetics', '') or ''] is a string in every case. *)
Definition row_item (key : str) (row : csv_row) : outcome value :=
  match row_get key row with
  | Some v => Ok v
  | None => Raise KeyError
  end.

Definition load_row (row : csv_row) : outcome rule :=
  t <- row_item (u "tibetan") row ;;
  tr <- row_item (u "transliteration") row ;;
  Ok {| tibetan := t; transliteration := tr;
        phonetics := match row_get (u "phonetics") row with
                     | Some (Some ph) => ph
                     | _ => []
                     end |}.

(** [for row in reader: ...]: [csv.DictReader] passes over the empty records
    and turns the others into dicts; when the records are used up, reading
    ends or raises. *)
Fixpoint load_rows (fieldnames : list str) (rest : list (list str))
    (ending : option exn) : outcome (list rule) :=
  match rest with
  | [] =>
      match ending with
      | Some e => Raise e
      | None => Ok []
      end
  | [] :: rest' => load_rows fieldnames rest' ending
  | record :: rest' =>
      r <- load_row (dict_row fieldnames record) ;;
      rs <- load_rows fieldnames rest' ending ;;
      Ok (r :: rs)
  end.

(** The file the loader opens. *)
Definition file_of (csv_path : option str) : csv_file :=
  match csv_path with
  | None => BundledData
  | Some p => UserPath p
  end.

(** The first record is the header. *)
Definition load_replacements (csv_path : option str) : outcome (list rule) :=
  reading <- read_csv (file_of csv_path) ;;
  match records reading with
  | [] =>
      match failure reading with
      | Some e => Raise e
      | None => Ok []
      end
  | fieldnames :: rest => load_rows fieldnames rest (failure reading)
  end.

(** Lines 26-32: the entries with their patterns normalized, with the
    default [keep_trailing_tshek=False]. *)
Fixpoint preprocess (raw_replacements : list rule) : outcome (list rule) :=
  match raw_replacements with
  | [] => Ok []
  | entry :: raw' =>
      t <- call_normalize_tibetan (tibetan entry) ;;
      rs <- preprocess raw' ;;
      Ok ({| tibetan := t;
             transliteration := transliteration entry;
             phonetics := phonetics entry |} :: rs)
  end.

(** [TibetanSanskritTransliterator.__init__]. *)
Definition __init__ (csv_path : option str)
    : outcome TibetanSanskritTransliterator :=
  raw_replacements <- load_replacements csv_path ;;
  rules <- preprocess raw_replacements ;;
  Ok {| replacements := rules |}.

(** [TibetanSanskritTransliterator(csv_path)]: a new object on the heap. *)
Definition new_transliterator (csv_path : option str) : M nat :=
  fun w =>
    match __init__ csv_path with
    | Ok t =>
        (Ok (length (heap w)),
         {| heap := heap w ++ [t];
            _default_transliterator := _default_transliterator w |})
    | Raise e => (Raise e, w)
    end.

(** [for word in self.replacements: ...] as the process runs it: each round
    is the loop body on the rule and the working text. *)
Fixpoint for_each_rule (mode : str) (rules : list rule) (replaced : str)
    : M str :=
  match rules with
  | [] => ret replaced
  | word :: rules' =>
      r <~ lift (rule_step mode word replaced) ;;
      for_each_rule mode rules' r
  end.

(** The method [transliterate] on the object [self].  A reference is always
    one that an allocation returned, so the object is there; the other case
    is only for totality. *)
Definition method_transliterate (self : nat) (text mode : str)
    (capitalize : bool) (anusvara_style : str) : M str :=
  let replaced := normalize_tibetan text true in
  rules <~ read_replacements self ;;
  replaced <~ for_each_rule mode rules replaced ;;
  lift (finish capitalize anusvara_style replaced).

(** The module-level function [transliterate]. *)
Definition transliterate (text mode : str) (capitalize : bool)
    (anusvara_style : str) (csv_path : option str) : M str :=
  fun w =>
    match new_transliterator csv_path w with
    | (Ok transliterator, w') =>
        method_transliterate transliterator text mode capitalize
          anusvara_style w'
    | (Raise e, w') => (Raise e, w')
    end.

(** [get_transliterator] and the global [_default_transliterator]. *)
Definition get_transliterator (csv_path : option str) : M nat :=
  fun w =>
    match _default_transliterator w with
    | None =>
        match new_transliterator csv_path w with
        | (Ok r, w') =>
            (Ok r, {| heap := heap w'; _default_transliterator := Some r |})
        | (Raise e, w') => (Raise e, w')
        end
    | Some r => (Ok r, w)
    end.

(** The process after a call of a client, and after a sequence of them. *)
Definition run_call (c : api_call) (w : world) : world :=
  match c with
  | CallConstructor csv_path => snd (new_transliterator csv_path w)
  | CallMethod self text mode capitalize anusvara_style =>
      snd (method_transliterate self text mode capitalize anusvara_style w)
  | CallTransliterate text mode capitalize anusvara_style csv_path =>
      snd (transliterate text mode capitalize anusvara_style csv_path w)
  | CallGetTransliterator csv_path => snd (get_transliterator csv_path w)
  end.

Definition run_calls (calls : list api_call) (w : world) : world :=
  fold_left (fun w' c => run_call c w') calls w.

End Transliterator.

(** ** Stand-ins used to run the model *)

(** A normalizer that returns its input unchanged, and raises on [None]. *)
Definition normalize_id (s : str) (_ : bool) : str := s.
Definition none_raises : outcome value := Raise TypeError.

(** [str.upper] on the ASCII letters; other characters are left alone. *)
Definition upper_ascii (c : char) : str :=
  if ((97 <=? c) && (c <=? 122))%N then [(c - 32)%N] else [c].

Definition no_file (_ : csv_file) : outcome csv_reading := Raise OSError.

Definition run (rules : list rule) (text mode : str) (capitalize : bool)
    (anusvara_style : str) : outcome str :=
  transliterate_rules PyRe.engine normalize_id (fun s => s) none_raises
    upper_ascii rules text mode capitalize anusvara_style.

Definition mk (t tr ph : string) : rule :=
  {| tibetan := Some (u t); transliteration := Some (u tr);
     phonetics := u ph |}.

(** A rule as the loader builds it from a record with one field. *)
Definition mk_short (t : string) : rule :=
  {| tibetan := Some (u t); transliteration := None; phonetics := [] |}.

(** ** Notions used to state the properties *)

(** What [re.sub] does before it searches: the pattern is compiled and the
    template parsed, and either can raise. *)
Definition prepare (E : Re.engine) (pattern template : str)
    : outcome (re_pat E * list titem) :=
  p <- re_compile E pattern ;;
  t <- re_template E p template ;;
  Ok (p, t).

(** One [re.sub] of the loop leaves the text [s] alone: its pattern or
    template raises [re.error], or the pattern is not found in [s]. *)
Definition sub_silent (E : Re.engine) (pattern template s : str) : bool :=
  match prepare E pattern template with
  | Ok pt =>
      match re_search E (fst pt) [] s false with
      | None => true
      | Some _ => false
      end
  | Raise e => exn_eqb e ReError
  end.

(** Preparing one [re.sub] raises nothing but [re.error]. *)
Definition sub_only_re_error (E : Re.engine) (pattern template : str) : bool :=
  match prepare E pattern template with
  | Ok _ => true
  | Raise e => exn_eqb e ReError
  end.

(** The substitutions of the loop for a pattern and a replacement, with
    their templates. *)
Definition replacement_subs (mode pattern replacement : str)
    : list (str * str) :=
  let base := removelast replacement in
  [ (boundary_pattern pattern, boundary_template replacement);
    (visarga_pattern pattern, visarga_template mode base);
    (vowel_pattern pattern, vowel_template base);
    (pattern, replacement) ].

(** The suffix substitution does not use the replacement, and comes before
    the first use of it. *)
Definition rule_subs (mode pattern : str) (replacement : value)
    : list (str * str) :=
  (nam_pattern pattern, nam_template mode)
  :: match replacement with
     | Some r => replacement_subs mode pattern r
     | None => []
     end.

(** No pattern of the rule occurs in [s]: the rule has a replacement, none of
    the expressions the loop assembles from it matches, and where the general
    replacement falls back to a literal search the pattern is not a
    substring. *)
Definition rule_inert (E : Re.engine) (normalize_iast : str -> str)
    (normalize_iast_none : outcome value) (mode : str) (word : rule)
    (s : str) : bool :=
  match replacement_for normalize_iast normalize_iast_none mode word with
  | Raise _ => false
  | Ok replacement =>
      match tibetan word with
      | None | Some [] => true
      | Some pattern =>
          match replacement with
          | None => false
          | Some _ =>
              forallb (fun pt => sub_silent E (fst pt) (snd pt) s)
                      (rule_subs mode pattern replacement)
              && negb (contains pattern s)
          end
      end
  end.

(** The rule can be applied: its replacement is computed and, when the rule
    has a pattern, is a string. *)
Definition rule_has_replacement (normalize_iast : str -> str)
    (normalize_iast_none : outcome value) (mode : str) (word : rule) : bool :=
  match replacement_for normalize_iast normalize_iast_none mode word with
  | Raise _ => false
  | Ok replacement =>
      match tibetan word, replacement with
      | Some (_ :: _), None => false
      | _, _ => true
      end
  end.

(** [re] raises nothing but [re.error] on the expressions and templates of
    the rule. *)
Definition rule_only_re_errors (E : Re.engine) (normalize_iast : str -> str)
    (normalize_iast_none : outcome value) (mode : str) (word : rule) : bool :=
  match replacement_for normalize_iast normalize_iast_none mode word with
  | Raise _ => true
  | Ok replacement =>
      match tibetan word with
      | None | Some [] => true
      | Some pattern =>
          forallb (fun pt => sub_only_re_error E (fst pt) (snd pt))
                  (rule_subs mode pattern replacement)
      end
  end.

(** The double-vowel fix as a function on lists: an 'a' is deleted when the
    next character is one of [P]. *)
Definition next_in (P : char -> bool) (t : str) : bool :=
  match t with
  | c :: _ => P c
  | [] => false
  end.

Definition is_a (c : char) : bool := (c =? 97)%N.

Fixpoint drop_a (P : char -> bool) (s : str) : str :=
  match s with
  | [] => []
  | x :: t => if is_a x && next_in P t then drop_a P t else x :: drop_a P t
  end.

(** No 'a' of [s] stands before a character of [P]. *)
Fixpoint a_free (P : char -> bool) (s : str) : bool :=
  match s with
  | [] => true
  | x :: t => negb (is_a x && next_in P t) && a_free P t
  end.

(** No two 'a' in a row stand before a character of [P]. *)
Fixpoint no_aa_before (P : char -> bool) (s : str) : bool :=
  match s with
  | [] => true
  | x :: t =>
      negb (is_a x && match t with
                      | y :: t' => is_a y && next_in P t'
                      | [] => false
                      end)
      && no_aa_before P t
  end.

(** The letters of [āīūṛṝḷḹ] and of [ṃṁ]. *)
Definition long_vowels : list (char * char) :=
  [(257, 257); (299, 299); (363, 363); (7771, 7771); (7773, 7773);
   (7735, 7735); (7737, 7737)]%N.
Definition anusvaras : list (char * char) := [(7747, 7747); (7745, 7745)]%N.

Definition in_set (rs : list (char * char)) (c : char) : bool :=
  PyRe.in_ranges c rs.
Definition either (L M : char -> bool) (c : char) : bool := L c || M c.

Definition is_long_vowel : char -> bool := in_set long_vowels.
Definition is_anusvara : char -> bool := in_set anusvaras.
Definition dominates_a : char -> bool := either is_long_vowel is_anusvara.

Definition not_tshek (c : char) : Prop := c <> tshek.

(** The text of every group is made of characters of [Q]. *)
Definition groups_all (Q : char -> Prop) (g : list (nat * str)) : Prop :=
  Forall (fun kv => Forall Q (snd kv)) g.

(** The expression [a([...])] for a set of characters. *)
Definition a_before (rs : list (char * char)) : PyRe.regex :=
  PyRe.Seq (PyRe.Chr 97%N)
    (PyRe.Seq (PyRe.Grp 1 (PyRe.Seq (PyRe.Cls false rs) PyRe.Eps)) PyRe.Eps).

(** The loop body as the specification words it for a rule whose pattern
    does not compile: the suffix and inherent-vowel sub-steps are skipped and
    the pattern is replaced as a literal substring. *)
Definition rule_step_skipping (E : Re.engine) (normalize_iast : str -> str)
    (normalize_iast_none : outcome value) (mode : str) (word : rule)
    (replaced : str) : outcome str :=
  match tibetan word,
        replacement_for normalize_iast normalize_iast_none mode word with
  | Some (c :: p), Ok (Some replacement) =>
      match re_compile E (c :: p) with
      | Raise ReError => Ok (replace (c :: p) replacement replaced)
      | _ => rule_step E normalize_iast normalize_iast_none mode word replaced
      end
  | _, _ => rule_step E normalize_iast normalize_iast_none mode word replaced
  end.

(** A file with a header and one record, for running the loader. *)
Definition one_row_file (_ : csv_file) : outcome csv_reading :=
  Ok {| records := [[u "tibetan"; u "transliteration"; u "phonetics"];
                    [u "བཛྲ"; u "vajra"; u ""]];
        failure := None |}.

(** A file whose second record has one field only, and whose third line is
    blank. *)
Definition ragged_file (_ : csv_file) : outcome csv_reading :=
  Ok {| records := [[u "tibetan"; u "transliteration"; u "phonetics"];
                    [u "བཛྲ"; u "vajra"; u "badzra"];
                    [u "ཀ"];
                    [];
                    [u "ཨོཾ"; u "oṃ"]];
        failure := None |}.

(** A file without the column 'transliteration'. *)
Definition headless_file (_ : csv_file) : outcome csv_reading :=
  Ok {| records := [[u "tibetan"; u "phonetics"]; []; [u "ཀ"; u "ka"]];
        failure := None |}.

Definition empty_world : world :=
  {| heap := []; _default_transliterator := None |}.

(** The rounds a repeat still needs: those below the minimum, one for each
    character left, and the last ones that stop it. *)
Definition rep_rounds (lo count : N) (last : option nat) (s : str) : nat :=
  N.to_nat (lo - count) + length s
  + (if PyRe.same_pos last (length s) then 1 else 2).

(** The rounds the loop of [re.sub] still needs: two for each character
    left, and the last ones. *)
Definition sub_rounds (after : str) (must_advance : bool) : nat :=
  2 * length after + (if must_advance then 1 else 2).

(** The matches of an engine lie in the text, and advance when they must. *)
Definition search_in_bounds (E : Re.engine) : Prop :=
  forall p before after must_advance m,
    re_search E p before after must_advance = Some m ->
    m_skip m + m_len m <= length after
    /\ (must_advance = true -> 0 < m_skip m + m_len m).

(** The rule has a pattern: the loop does not skip it. *)
Definition has_pattern (word : rule) : bool :=
  match tibetan word with
  | Some (_ :: _) => true
  | _ => false
  end.

(** Two rules with the same pattern and the same transliteration. *)
Definition same_iast (w1 w2 : rule) : Prop :=
  tibetan w1 = tibetan w2 /\ transliteration w1 = transliteration w2.


(** The string neither starts nor ends with white space. *)
Definition trimmed (s : str) : Prop :=
  match s with
  | c :: _ => isspace c = false
  | [] => True
  end
  /\ match rev s with
     | c :: _ => isspace c = false
     | [] => True
     end.

(** The global, when set, refers to an object of the heap. *)
Definition cache_valid (w : world) : Prop :=
  match _default_transliterator w with
  | Some r => r < length (heap w)
  | None => True
  end.

(** The field of a record under a column name, read off the header and the
    record: the field at the place of the last column of that name, [None]
    as a value when the record is too short to have one, and nothing when
    the header has no such column. *)
Fixpoint last_column (key : str) (fieldnames : list str) : option nat :=
  match fieldnames with
  | [] => None
  | k :: ks =>
      match last_column key ks with
      | Some i => Some (S i)
      | None => if eqb_str k key then Some 0 else None
      end
  end.

Definition cell (key : str) (fieldnames record : list str) : option value :=
  match last_column key fieldnames with
  | Some i => Some (nth_error record i)
  | None => None
  end.

(** The records that [csv.DictReader] turns into rows. *)
Definition is_blank (record : list str) : bool :=
  match record with
  | [] => true
  | _ => false
  end.

Definition data_rows (rest : list (list str)) : list (list str) :=
  filter (fun record => negb (is_blank record)) rest.

(** What a record of the file becomes in the list the loader returns. *)
Definition raw_rule_of_record (fieldnames record : list str) (word : rule)
    : Prop :=
  cell (u "tibetan") fieldnames record = Some (tibetan word)
  /\ cell (u "transliteration") fieldnames record
     = Some (transliteration word)
  /\ phonetics word
     = match cell (u "phonetics") fieldnames record with
       | Some (Some ph) => ph
       | _ => []
       end.

(** What a record of the file becomes in the engine. *)
Definition rule_of_record (normalize_tibetan : str -> bool -> str)
    (normalize_tibetan_none : outcome value) (fieldnames record : list str)
    (word : rule) : Prop :=
  match cell (u "tibetan") fieldnames record with
  | Some (Some t) => tibetan word = Some (normalize_tibetan t false)
  | Some None => normalize_tibetan_none = Ok (tibetan word)
  | None => False
  end
  /\ cell (u "transliteration") fieldnames record
     = Some (transliteration word)
  /\ phonetics word
     = match cell (u "phonetics") fieldnames record with
       | Some (Some ph) => ph
       | _ => []
       end.

(** The header and the records after it. *)
Definition header_of (reading : csv_reading) : list str :=
  match records reading with
  | fieldnames :: _ => fieldnames
  | [] => []
  end.

Definition rest_of (reading : csv_reading) : list (list str) :=
  match records reading with
  | _ :: rest => rest
  | [] => []
  end.

(** Whatever [o] raises is raised by [re] while it prepares one of the
    substitutions [subs], and is not [re.error]. *)
Definition raises_within (E : Re.engine) (subs : list (str * str))
    (o : outcome str) : Prop :=
  forall e, o = Raise e ->
    e <> ReError
    /\ exists pt, In pt subs /\ prepare E (fst pt) (snd pt) = Raise e.

(** Where an exception of the loop body comes from, read off the rule:
    [normalize_iast] raised it on a transliteration that is [None]; or [re]
    raised it, and it is not [re.error], while preparing one of the
    substitutions of the rule; or it is the [AttributeError] of a
    replacement that is [None]. *)
Definition raised_by_normalizer (normalize_iast_none : outcome value)
    (mode : str) (word : rule) (e : exn) : Prop :=
  is_phonetics mode = true /\ phonetics word = []
  /\ transliteration word = None /\ normalize_iast_none = Raise e.

Definition raised_by_re (E : Re.engine) (normalize_iast : str -> str)
    (normalize_iast_none : outcome value) (mode : str) (word : rule)
    (e : exn) : Prop :=
  e <> ReError
  /\ exists pattern replacement pt,
       tibetan word = Some pattern /\ pattern <> []
       /\ replacement_for normalize_iast normalize_iast_none mode word
          = Ok replacement
       /\ In pt (rule_subs mode pattern replacement)
       /\ prepare E (fst pt) (snd pt) = Raise e.

Definition raised_by_missing_replacement (normalize_iast_none : outcome value)
    (mode : str) (word : rule) (e : exn) : Prop :=
  e = AttributeError
  /\ has_pattern word = true
  /\ transliteration word = None
  /\ (is_phonetics mode = false
      \/ (phonetics word = [] /\ normalize_iast_none = Ok None)).

(** The space normalization as a function on lists: a run of two or more
    spaces becomes four spaces; [in_run] says that such a run is being
    passed. *)
Definition is_space (c : char) : bool := (c =? 32)%N.

Fixpoint after_spaces (s : str) : str :=
  match s with
  | x :: t => if is_space x then after_spaces t else s
  | [] => []
  end.

Fixpoint squeeze_spaces (in_run : bool) (s : str) : str :=
  match s with
  | [] => []
  | x :: t =>
      if is_space x then
        if in_run then squeeze_spaces true t
        else if next_in is_space t
             then [32; 32; 32; 32]%N ++ squeeze_spaces true t
             else x :: squeeze_spaces false t
      else x :: squeeze_spaces false t
  end.

(** The expression [ {2,}]. *)
Definition space_run : PyRe.regex :=
  PyRe.Seq (PyRe.Rep 2 None (PyRe.Chr 32%N)) PyRe.Eps.

(** No two spaces in a row. *)
Fixpoint no_double_space (s : str) : bool :=
  match s with
  | [] => true
  | x :: t => negb (is_space x && next_in is_space t) && no_double_space t
  end.

(** The expression [ {2,}(.)]. *)
Definition space_run_then_char : PyRe.regex :=
  PyRe.Seq (PyRe.Rep 2 None (PyRe.Chr 32%N))
    (PyRe.Seq (PyRe.Grp 1 (PyRe.Seq PyRe.Any PyRe.Eps)) PyRe.Eps).

(** The expression [ ?\^\^\^]. *)
Definition three_carets : PyRe.regex :=
  PyRe.Seq (PyRe.Chr 94%N)
    (PyRe.Seq (PyRe.Chr 94%N) (PyRe.Seq (PyRe.Chr 94%N) PyRe.Eps)).
Definition placeholder : PyRe.regex :=
  PyRe.Seq (PyRe.Rep 0 (Some 1%N) (PyRe.Chr 32%N)) three_carets.

(** A text on which the steps after the loop have nothing to do but to
    trim: no placeholder, no 'a' before a letter that dominates it, no two
    spaces in a row. *)
Definition settled (s : str) : bool :=
  negb (contains (u "^^^") s) && a_free dominates_a s && no_double_space s.

(** [map] on outcomes. *)
Definition omap {A B} (f : A -> B) (o : outcome A) : outcome B :=
  match o with
  | Ok a => Ok (f a)
  | Raise e => Raise e
  end.

(** ** The steps after the loop as functions on lists *)

(** A left-to-right rewriting of a text: [at_head] tells, for the text that
    starts at a position, whether something to rewrite starts there, how
    many characters it has after its first, and what it becomes; [skip]
    counts the characters still to be passed of what was rewritten last. *)
Fixpoint rewrite_scan (at_head : str -> option (nat * str)) (skip : nat)
    (s : str) : str :=
  match s with
  | [] => []
  | x :: t =>
      match skip with
      | S k => rewrite_scan at_head k t
      | O =>
          match at_head s with
          | Some (more, out) => out ++ rewrite_scan at_head more t
          | None => x :: rewrite_scan at_head 0 t
          end
      end
  end.

(** Every tshek becomes a space. *)
Definition tshek_to_space (s : str) : str :=
  map (fun c => if (c =? tshek)%N then 32%N else c) s.

(** The placeholder "^^^", with the space before it when there is one, is
    deleted. *)
Definition placeholder_at (s : str) : option (nat * str) :=
  if startswith [32; 94; 94; 94]%N s then Some (3, [])
  else if startswith [94; 94; 94]%N s then Some (2, [])
  else None.

Definition drop_placeholder (s : str) : str := rewrite_scan placeholder_at 0 s.

(** The spaces at the front of a text. *)
Definition spaces_in_front (s : str) : nat :=
  length s - length (after_spaces s).

(** With capitalization: two or more spaces and the character after them
    become four spaces and that character upper-cased.  The character is any
    but a line feed; where the spaces are followed by a line feed or by the
    end of the text, the last of three or more spaces is taken for the
    character, and two spaces are left alone. *)
Definition group_start (upper : char -> str) (s : str)
    : option (nat * str) :=
  let n := spaces_in_front s in
  if Nat.leb 2 n then
    match after_spaces s with
    | c :: _ =>
        if (c =? 10)%N
        then if Nat.leb 3 n
             then Some (n - 1, [32; 32; 32; 32]%N ++ upper 32%N)
             else None
        else Some (n, [32; 32; 32; 32]%N ++ upper c)
    | [] =>
        if Nat.leb 3 n
        then Some (n - 1, [32; 32; 32; 32]%N ++ upper 32%N)
        else None
    end
  else None.

(** The first character upper-cased. *)
Definition upper_first (upper : char -> str) (s : str) : str :=
  match s with
  | c :: t => upper c ++ t
  | [] => []
  end.

(** The spaces of the output, with and without capitalization. *)
Definition widen_spaces (upper : char -> str) (capitalize : bool) (s : str)
    : str :=
  if capitalize
  then rewrite_scan (group_start upper) 0 (upper_first upper s)
  else squeeze_spaces false s.

(** With the style 'ṁ' every 'ṃ' becomes 'ṁ'. *)
Definition style_glyph (anusvara_style : str) (s : str) : str :=
  if eqb_str anusvara_style [7745%N]
  then map (fun c => if (c =? 7747)%N then 7745%N else c) s
  else s.

(** What the greedy repeat [ {2,}] hands to the rest of an expression, in
    the order it is tried: the text after all the spaces first, then one
    space less each time, down to two. *)
Fixpoint space_backoffs (count : N) (s : str) (g : PyRe.groups)
    : PyRe.results :=
  let here := if (2 <=? count)%N then [(s, g)] else [] in
  match s with
  | x :: t =>
      if (x =? 32)%N then space_backoffs (count + 1) t g ++ here else here
  | [] => here
  end.

(** The group [(.)] on what is left after the spaces. *)
Definition any_char_group (tg : str * PyRe.groups) : PyRe.results :=
  match fst tg with
  | x :: t => if (x =? 10)%N then [] else [(t, (1, [x]) :: snd tg)]
  | [] => []
  end.

(* ================================================================== *)
(** * Properties *)
(* ================================================================== *)

Unset Implicit Arguments.

(** ** Python strings *)

Lemma replace_char (c d : char) (s : str) :
  replace [c] [d] s = map (fun x => if (c =? x)%N then d else x) s.
Proof.
  unfold replace.
  induction s as [|x t IH]; simpl; [reflexivity|].
  destruct (c =? x)%N; simpl; now rewrite IH.
Qed.

Lemma lstrip_map (f : char -> char) (s : str) :
  (forall x, isspace (f x) = isspace x) ->
  lstrip (map f s) = map f (lstrip s).
Proof.
  intros Hf. induction s as [|x t IH]; simpl; [reflexivity|].
  rewrite Hf. destruct (isspace x); [exact IH | reflexivity].
Qed.

Lemma strip_map (f : char -> char) (s : str) :
  (forall x, isspace (f x) = isspace x) ->
  strip (map f s) = map f (strip s).
Proof.
  intros Hf. unfold strip.
  now rewrite lstrip_map, <- map_rev, lstrip_map, map_rev by assumption.
Qed.

Lemma lstrip_incl (s : str) (x : char) : In x (lstrip s) -> In x s.
Proof.
  induction s as [|y t IH]; simpl; [tauto|].
  destruct (isspace y); simpl; intros H; [right; now apply IH | exact H].
Qed.

Lemma strip_incl (s : str) (x : char) : In x (strip s) -> In x s.
Proof.
  unfold strip. intros H.
  apply in_rev, lstrip_incl, in_rev in H. now apply lstrip_incl.
Qed.

Lemma replace_absent (old new s : str) :
  old <> [] -> contains old s = false -> replace old new s = s.
Proof.
  intros Hne. unfold replace. destruct old as [|o old']; [congruence|].
  clear Hne. induction s as [|x t IH]; [reflexivity|].
  intros H. cbn [contains] in H. apply orb_false_elim in H as [H1 H2].
  cbn [replace_scan]. rewrite H1. now rewrite IH.
Qed.

(** Swapping ṃ for ṁ commutes with trimming: neither is white space. *)
Lemma strip_anusvara (s : str) :
  strip (replace (u "ṃ") (u "ṁ") s) = replace (u "ṃ") (u "ṁ") (strip s).
Proof.
  change (u "ṃ") with [7747%N]. change (u "ṁ") with [7745%N].
  rewrite !replace_char. apply strip_map.
  intros x. destruct (7747 =? x)%N eqn:Hx; [|reflexivity].
  apply N.eqb_eq in Hx. now subst x.
Qed.
(** ** The matcher on known cases *)

(** The example of the documentation of [re.sub]: an empty match next to a
    match is replaced too. *)
Example sub_empty_matches :
  re_sub PyRe.engine (u "x*") (u "-") (u "abxd") = Ok (u "-a-b--d-").
Proof. vm_compute. reflexivity. Qed.

Example sub_groups_that_took_part :
  re_sub PyRe.engine (u "(a|b)*c|(x)") (u "[\1\2]") (u "abcx")
  = Ok (u "[b][x]").
Proof. vm_compute. reflexivity. Qed.

Example compile_errors :
  PyRe.compile (u "(") = Raise ReError
  /\ PyRe.compile (u "a**") = Raise ReError
  /\ PyRe.compile (u "*a") = Raise ReError
  /\ PyRe.compile (u "[z-a]") = Raise ReError
  /\ PyRe.compile (u "a{3,2}") = Raise ReError
  /\ PyRe.compile (u "a{4294967295}") = Raise OverflowError.
Proof. repeat split; vm_compute; reflexivity. Qed.

(** ** The matcher on the expressions [a([...])] *)

Lemma find_eq (r : PyRe.regex) (s : str) (must_advance : bool) (k : nat) :
  PyRe.find r s must_advance k =
  match PyRe.first_ok (PyRe.ms r s []) must_advance (length s) with
  | Some tg =>
      let n := length s - length (fst tg) in
      Some {| m_skip := k; m_len := n;
              m_groups := snd tg ++ [(0, firstn n s)] |}
  | None =>
      match s with
      | [] => None
      | _ :: s' => PyRe.find r s' false (S k)
      end
  end.
Proof. destruct s; reflexivity. Qed.

Section ABefore.
Variable rs : list (char * char).
Hypothesis a_not_in : PyRe.in_ranges 97%N rs = false.

Local Abbreviation P := (in_set rs).

Lemma ms_a_before (s : str) (g : PyRe.groups) :
  PyRe.ms (a_before rs) s g =
  match s with
  | x :: c :: t => if is_a x && P c then [(t, (1, [c]) :: g)] else []
  | _ => []
  end.
Proof.
  unfold is_a, in_set. destruct s as [|x [|c t]]; cbn -[Nat.sub firstn PyRe.in_ranges].
  - reflexivity.
  - destruct (x =? 97)%N; reflexivity.
  - destruct (x =? 97)%N; cbn -[Nat.sub firstn PyRe.in_ranges]; [|reflexivity].
    destruct (PyRe.in_ranges c rs); cbn -[Nat.sub firstn PyRe.in_ranges];
      [|reflexivity].
    replace (S (length t) - length t) with 1 by lia. reflexivity.
Qed.

(** The search either finds 'a' and a character of the set at the front, or
    goes on one character further. *)
Lemma find_a_before (s : str) (must_advance : bool) (k : nat) :
  PyRe.find (a_before rs) s must_advance k =
  match s with
  | x :: c :: t =>
      if is_a x && P c
      then Some {| m_skip := k; m_len := 2;
                   m_groups := [(1, [c]); (0, [x; c])] |}
      else PyRe.find (a_before rs) (c :: t) false (S k)
  | [_] => PyRe.find (a_before rs) [] false (S k)
  | [] => None
  end.
Proof.
  rewrite find_eq, ms_a_before.
  destruct s as [|x [|c t]]; try reflexivity.
  destruct (is_a x && P c); [|reflexivity].
  cbn -[Nat.sub firstn].
  replace (length t =? S (S (length t))) with false
    by (symmetry; apply Nat.eqb_neq; lia).
  rewrite andb_false_r. cbn [fst snd app].
  replace (S (S (length t)) - length t) with 2 by lia. reflexivity.
Qed.

(** What the search finds is the first 'a' that [drop_a] deletes. *)
Lemma find_a_before_drop (s : str) :
  forall must_advance k,
  match PyRe.find (a_before rs) s must_advance k with
  | None => drop_a P s = s
  | Some m =>
      exists j c,
        m_skip m = k + j /\ m_len m = 2 /\ j + 2 <= length s
        /\ group m 1 = Some [c]
        /\ drop_a P s = firstn j s ++ [c] ++ drop_a P (skipn (j + 2) s)
  end.
Proof.
  induction s as [|x s IH]; intros must_advance k; [reflexivity|].
  rewrite find_a_before. destruct s as [|c t].
  - cbn. now rewrite andb_false_r.
  - destruct (is_a x && P c) eqn:Hx.
    + exists 0, c. cbn [m_skip m_len group m_groups lookup_group Nat.eqb].
      repeat split; try lia; [cbn; lia|].
      cbn [drop_a next_in firstn skipn Nat.add app]. rewrite Hx.
      apply andb_prop in Hx as [_ Hc].
      assert (Hca : is_a c = false).
      { unfold is_a. destruct (c =? 97)%N eqn:E; [|reflexivity].
        apply N.eqb_eq in E. subst c. unfold in_set in Hc. congruence. }
      now rewrite Hca.
    + specialize (IH false (S k)).
      destruct (PyRe.find (a_before rs) (c :: t) false (S k)) as [m|].
      * destruct IH as (j & c' & H1 & H2 & H3 & H4 & H5).
        exists (S j), c'. repeat split; try assumption; [lia | cbn in *; lia |].
        cbn [drop_a next_in]. rewrite Hx. cbn [Nat.add firstn skipn app].
        f_equal. exact H5.
      * cbn [drop_a next_in]. rewrite Hx. f_equal. exact IH.
Qed.

(** [re.sub] with the template [\1] deletes these 'a'. *)
Lemma sub_loop_a_before (fuel : nat) :
  forall (s before : str) (must_advance : bool),
  length s < fuel ->
  sub_loop PyRe.engine fuel (a_before rs, 1)
    (fun m => Ok (expand [TGroup 1] m)) before s must_advance
  = Ok (drop_a P s).
Proof.
  induction fuel as [|fuel IH]; intros s before must_advance Hlen; [lia|].
  cbn [sub_loop re_search PyRe.engine fst].
  pose proof (find_a_before_drop s must_advance 0) as H.
  destruct (PyRe.find (a_before rs) s must_advance 0) as [m|].
  - destruct H as (j & c & H1 & H2 & H3 & H4 & H5).
    cbn [bind]. rewrite H1, H2. cbn [Nat.add Nat.eqb].
    rewrite IH by (rewrite length_skipn; lia).
    cbn [bind]. unfold expand. cbn [flat_map]. rewrite H4, H5.
    now rewrite app_nil_r.
  - now rewrite H.
Qed.

End ABefore.

(** ** The double-vowel fix *)

Lemma compile_long_vowels :
  PyRe.compile (u "a([āīūṛṝḷḹ])") = Ok (a_before long_vowels, 1).
Proof. vm_compute. reflexivity. Qed.

Lemma compile_anusvaras :
  PyRe.compile (u "a([ṃṁ])") = Ok (a_before anusvaras, 1).
Proof. vm_compute. reflexivity. Qed.

Lemma sub_a_before (pattern : str) (rs : list (char * char)) (s : str) :
  PyRe.compile pattern = Ok (a_before rs, 1) ->
  PyRe.in_ranges 97%N rs = false ->
  re_sub PyRe.engine pattern (u "\1") s
  = Ok (drop_a (in_set rs) s).
Proof.
  intros Hc Ha. unfold re_sub. cbn [re_compile re_template PyRe.engine].
  rewrite Hc. cbn [bind snd].
  change (PyRe.parse_template 1 (u "\1")) with (Ok [TGroup 1]). cbn [bind].
  apply sub_loop_a_before; [exact Ha | unfold sub_fuel; lia].
Qed.

(** The fix is the deletion of the 'a' before a long vowel, then of the 'a'
    before an anusvara. *)
Lemma vowel_cleanup_drop (s : str) :
  vowel_cleanup s = Ok (drop_a is_anusvara (drop_a is_long_vowel s)).
Proof.
  unfold vowel_cleanup.
  rewrite (sub_a_before _ _ _ compile_long_vowels) by reflexivity. cbn [bind].
  now rewrite (sub_a_before _ _ _ compile_anusvaras) by reflexivity.
Qed.

Section DropA.
Variables L M : char -> bool.
Hypothesis L_not_a : L 97%N = false.
Hypothesis M_not_a : M 97%N = false.
Hypothesis L_M_disjoint : forall c, L c = true -> M c = false.

Local Abbreviation V := (either L M).

Lemma is_a_true (x : char) : is_a x = true -> x = 97%N.
Proof. apply N.eqb_eq. Qed.

Lemma next_in_drop (t : str) : next_in M (drop_a L t) = next_in M t.
Proof.
  destruct t as [|y t']; [reflexivity|]. cbn [drop_a].
  destruct (is_a y && next_in L t') eqn:Hy; [|reflexivity].
  apply andb_prop in Hy as [Hy Hn]. apply is_a_true in Hy. subst y.
  cbn [next_in]. rewrite M_not_a.
  destruct t' as [|z t'']; [discriminate|]. cbn [next_in] in Hn.
  cbn [drop_a].
  assert (Hz : is_a z = false).
  { destruct (is_a z) eqn:Hz; [|reflexivity].
    apply is_a_true in Hz. subst z. congruence. }
  rewrite Hz. cbn [andb next_in]. now apply L_M_disjoint.
Qed.

(** Deleting in two passes is deleting before either kind at once. *)
Lemma drop_a_two_passes (s : str) :
  drop_a M (drop_a L s) = drop_a V s.
Proof.
  induction s as [|x t IH]; [reflexivity|]. cbn [drop_a].
  destruct (is_a x) eqn:Hx; cbn [andb].
  - destruct (next_in L t) eqn:HL.
    + replace (next_in V t) with true; [exact IH|].
      destruct t; [discriminate|]. cbn in *. unfold either. now rewrite HL.
    + cbn [drop_a]. rewrite Hx, next_in_drop, IH. cbn [andb].
      replace (next_in V t) with (next_in M t); [reflexivity|].
      destruct t; [reflexivity|]. cbn in *. unfold either. now rewrite HL.
  - cbn [drop_a]. rewrite Hx, IH. reflexivity.
Qed.

End DropA.

Lemma drop_a_fixed (P : char -> bool) (s : str) :
  a_free P s = true -> drop_a P s = s.
Proof.
  induction s as [|x t IH]; [reflexivity|]. cbn [a_free drop_a].
  intros H. apply andb_prop in H as [H1 H2].
  apply negb_true_iff in H1. rewrite H1. now rewrite IH.
Qed.

Lemma drop_a_free (P : char -> bool) (s : str) :
  no_aa_before P s = true -> a_free P (drop_a P s) = true.
Proof.
  induction s as [|x t IH]; [reflexivity|]. cbn [no_aa_before drop_a].
  intros H. apply andb_prop in H as [H1 H2]. specialize (IH H2).
  destruct (is_a x && next_in P t) eqn:Hx; [exact IH|].
  cbn [a_free]. rewrite IH, andb_true_r. apply negb_true_iff.
  destruct (is_a x) eqn:Ha; [|reflexivity]. cbn [andb] in *.
  destruct t as [|y t']; [reflexivity|]. cbn [drop_a]. cbn [andb] in H1.
  destruct (is_a y && next_in P t') eqn:Hy.
  - discriminate H1.
  - exact Hx.
Qed.

Lemma drop_a_idempotent (P : char -> bool) (s : str) :
  no_aa_before P s = true -> drop_a P (drop_a P s) = drop_a P s.
Proof. intros H. now apply drop_a_fixed, drop_a_free. Qed.

Lemma vowel_cleanup_dominates (s : str) :
  vowel_cleanup s = Ok (drop_a dominates_a s).
Proof.
  rewrite vowel_cleanup_drop. f_equal.
  apply drop_a_two_passes; try reflexivity.
  intros c H. apply not_true_is_false. intros G.
  unfold is_long_vowel, is_anusvara, in_set, PyRe.in_ranges in H, G.
  cbn [existsb long_vowels anusvaras fst snd] in H, G.
  repeat (rewrite orb_true_iff in H || rewrite andb_true_iff in H
          || rewrite N.leb_le in H).
  repeat (rewrite orb_true_iff in G || rewrite andb_true_iff in G
          || rewrite N.leb_le in G).
  intuition (try discriminate; lia).
Qed.

(** Where two 'a' in a row stand before such a character, one pass leaves
    an 'a' before it, and a second pass deletes it. *)
Lemma drop_a_shorter (P : char -> bool) (s : str) :
  length (drop_a P s) <= length s
  /\ (a_free P s = false -> length (drop_a P s) < length s).
Proof.
  induction s as [|x t [IH1 IH2]]; cbn [drop_a a_free length];
    [split; [lia | discriminate]|].
  destruct (is_a x && next_in P t); cbn [negb andb length].
  - split; [lia | intros _; lia].
  - split; [lia | intros H; specialize (IH2 H); lia].
Qed.

Lemma drop_a_not_free (P : char -> bool) (s : str) :
  P 97%N = false ->
  no_aa_before P s = false -> a_free P (drop_a P s) = false.
Proof.
  intros Pa. induction s as [|x t IH]; [discriminate|].
  cbn [no_aa_before]. intros H. apply andb_false_iff in H as [H|H].
  - apply negb_false_iff in H. apply andb_prop in H as [Hx H].
    destruct t as [|y t']; [discriminate|]. apply andb_prop in H as [Hy Hn].
    destruct t' as [|v t'']; [discriminate|]. cbn [next_in] in Hn.
    apply is_a_true in Hy. subst y.
    assert (Hv : is_a v = false).
    { destruct (is_a v) eqn:Hv; [|reflexivity].
      apply is_a_true in Hv. subst v. congruence. }
    cbn [drop_a next_in]. rewrite Pa, andb_false_r, Hn. cbn [is_a andb].
    change (is_a 97%N) with true. cbn [andb]. rewrite Hv. cbn [andb].
    cbn [a_free next_in]. rewrite Hx, Hn. reflexivity.
  - specialize (IH H). cbn [drop_a].
    destruct (is_a x && next_in P t); [exact IH|].
    cbn [a_free]. rewrite IH. apply andb_false_r.
Qed.

Lemma vowel_cleanup_idempotent_only_then (s : str) :
  no_aa_before dominates_a s = false ->
  exists r, vowel_cleanup s = Ok r /\ vowel_cleanup r <> Ok r.
Proof.
  intros H. exists (drop_a dominates_a s). rewrite !vowel_cleanup_dominates.
  split; [reflexivity|]. intros Heq. injection Heq as Heq.
  apply drop_a_not_free in H; [|reflexivity].
  apply (drop_a_shorter dominates_a) in H. rewrite Heq in H. lia.
Qed.

(** ** The loop of [re.sub] *)

Lemma Forall_firstn_skipn {A} (Q : A -> Prop) (n : nat) (l : list A) :
  Forall Q l -> Forall Q (firstn n l) /\ Forall Q (skipn n l).
Proof.
  intros H. rewrite <- (firstn_skipn n l) in H. now apply Forall_app in H.
Qed.

Section SubLoop.
Variable E : Re.engine.

Lemma sub_fuel_S (s : str) : sub_fuel s = S (S (2 * length s)).
Proof. unfold sub_fuel. lia. Qed.

(** The loop returns when the replacement function does. *)
Lemma sub_loop_ok (p : re_pat E) (repl : mtch -> outcome str) :
  (forall before after must_advance m,
     re_search E p before after must_advance = Some m ->
     exists o, repl m = Ok o) ->
  forall fuel before after must_advance,
  exists out, sub_loop E fuel p repl before after must_advance = Ok out.
Proof.
  intros Hrepl. induction fuel as [|fuel IH]; intros before after must_advance.
  - now exists after.
  - cbn [sub_loop].
    destruct (re_search E p before after must_advance) as [m|] eqn:Hm;
      [|now exists after].
    destruct (Hrepl _ _ _ _ Hm) as [o Ho]. rewrite Ho. cbn [bind].
    destruct (IH (before ++ firstn (m_skip m + m_len m) after)
                 (skipn (m_skip m + m_len m) after)
                 (Nat.eqb (m_len m) 0)) as [rest Hrest].
    rewrite Hrest. cbn [bind]. eauto.
Qed.

(** Every character of the result comes from the text or from a
    replacement. *)
Lemma sub_loop_forall (Q : char -> Prop) (p : re_pat E)
    (repl : mtch -> outcome str) :
  (forall before after must_advance m o,
     Forall Q after ->
     re_search E p before after must_advance = Some m ->
     repl m = Ok o -> Forall Q o) ->
  forall fuel before after must_advance out,
  Forall Q after ->
  sub_loop E fuel p repl before after must_advance = Ok out ->
  Forall Q out.
Proof.
  intros Hrepl. induction fuel as [|fuel IH];
    intros before after must_advance out Hafter Hout.
  - cbn in Hout. now injection Hout as <-.
  - cbn [sub_loop] in Hout.
    destruct (re_search E p before after must_advance) as [m|] eqn:Hm;
      [|now injection Hout as <-].
    destruct (repl m) as [o|] eqn:Ho; [|discriminate]. cbn [bind] in Hout.
    destruct (sub_loop E fuel p repl _ _ _) as [rest|] eqn:Hrest;
      [|discriminate].
    cbn [bind] in Hout. injection Hout as <-.
    apply Forall_app; split; [now apply Forall_firstn_skipn|].
    apply Forall_app; split; [now apply (Hrepl _ _ _ _ _ Hafter Hm)|].
    eapply IH; [|exact Hrest]. now apply Forall_firstn_skipn.
Qed.

(** A pattern that is not found leaves the text as it is. *)
Lemma sub_loop_no_match (p : re_pat E) (repl : mtch -> outcome str) (s : str) :
  re_search E p [] s false = None ->
  sub_loop E (sub_fuel s) p repl [] s false = Ok s.
Proof. intros H. rewrite sub_fuel_S. cbn [sub_loop]. now rewrite H. Qed.

Lemma re_sub_prepare (pattern template s : str) :
  re_sub E pattern template s =
  (pt <- prepare E pattern template ;;
   sub_loop E (sub_fuel s) (fst pt) (fun m => Ok (expand (snd pt) m)) [] s false).
Proof.
  unfold re_sub, prepare. destruct (re_compile E pattern) as [p|e]; cbn [bind];
    [|reflexivity].
  destruct (re_template E p template); reflexivity.
Qed.

Lemma sub_silent_cases (pattern template s : str) :
  sub_silent E pattern template s = true ->
  re_sub E pattern template s = Ok s \/
  re_sub E pattern template s = Raise ReError.
Proof.
  unfold sub_silent. rewrite re_sub_prepare.
  destruct (prepare E pattern template) as [pt|e]; cbn [bind].
  - destruct (re_search E (fst pt) [] s false) eqn:Hs; [discriminate|].
    intros _. left. now apply sub_loop_no_match.
  - destruct e; cbn; intros H; try discriminate. now right.
Qed.

Lemma sub_only_re_error_cases (pattern template s : str) :
  sub_only_re_error E pattern template = true ->
  (exists out, re_sub E pattern template s = Ok out) \/
  re_sub E pattern template s = Raise ReError.
Proof.
  unfold sub_only_re_error. rewrite re_sub_prepare.
  destruct (prepare E pattern template) as [pt|e]; cbn [bind].
  - intros _. left. apply sub_loop_ok. intros. eauto.
  - destruct e; cbn; intros H; try discriminate. now right.
Qed.

Lemma re_sub_ok (pattern template s : str) (pt : re_pat E * list titem) :
  prepare E pattern template = Ok pt ->
  exists out, re_sub E pattern template s = Ok out.
Proof.
  intros H. rewrite re_sub_prepare, H. cbn [bind].
  apply sub_loop_ok. intros. eauto.
Qed.

Lemma re_sub_forall (Q : char -> Prop) (pattern template s out : str) :
  (forall p t m, re_template E p template = Ok t -> Forall Q (expand t m)) ->
  Forall Q s ->
  re_sub E pattern template s = Ok out ->
  Forall Q out.
Proof.
  intros Ht Hs. unfold re_sub.
  destruct (re_compile E pattern) as [p|]; [|discriminate]. cbn [bind].
  destruct (re_template E p template) as [t|] eqn:Hpt; [|discriminate].
  cbn [bind]. apply sub_loop_forall; [|exact Hs].
  intros _ _ _ m o _ _ Ho. injection Ho as <-. now apply Ht with p.
Qed.

End SubLoop.

(** ** The steps after the loop *)

Lemma lookup_group_app (n : nat) (g g' : list (nat * str)) (t : str) :
  lookup_group n g = Some t -> lookup_group n (g ++ g') = Some t.
Proof.
  induction g as [|[k v] g IH]; cbn; [discriminate|].
  destruct (Nat.eqb k n); [tauto | exact IH].
Qed.

Lemma first_ok_In (rs : PyRe.results) (must_advance : bool) (n0 : nat)
    (tg : str * PyRe.groups) :
  PyRe.first_ok rs must_advance n0 = Some tg -> In tg rs.
Proof.
  induction rs as [|x rs IH]; cbn; [discriminate|].
  destruct (must_advance && Nat.eqb (length (fst x)) n0).
  - intros H. right. now apply IH.
  - intros H. injection H as <-. now left.
Qed.

(** The groups of a match are those of one success of the matcher, and
    group 0. *)
Lemma find_groups (r : PyRe.regex) (s : str) :
  forall must_advance k m,
  PyRe.find r s must_advance k = Some m ->
  exists s' tg whole,
    In tg (PyRe.ms r s' []) /\ m_groups m = snd tg ++ [(0, whole)].
Proof.
  induction s as [|x s IH]; intros must_advance k m; rewrite find_eq;
    destruct (PyRe.first_ok _ _ _) as [tg|] eqn:Hf.
  - intros H. injection H as <-. apply first_ok_In in Hf. cbn. eauto.
  - discriminate.
  - intros H. injection H as <-. apply first_ok_In in Hf. cbn. eauto.
  - apply IH.
Qed.

(** A group that closes the pattern is set in every success. *)
Lemma ms_closing_group (r1 r2 : PyRe.regex) (n : nat) (s : str)
    (g : PyRe.groups) (tg : str * PyRe.groups) :
  In tg (PyRe.ms (PyRe.Seq r1 (PyRe.Seq (PyRe.Grp n r2) PyRe.Eps)) s g) ->
  exists t, lookup_group n (snd tg) = Some t.
Proof.
  cbn [PyRe.ms]. intros H.
  apply in_flat_map in H as (x1 & _ & H).
  apply in_flat_map in H as (x2 & H & H2).
  apply in_map_iff in H as (x3 & <- & _).
  destruct H2 as [<-|[]]. cbn. rewrite Nat.eqb_refl. eauto.
Qed.

Lemma compile_space_run_group :
  PyRe.compile (u " {2,}(.)")
  = Ok (PyRe.Seq (PyRe.Rep 2 None (PyRe.Chr 32%N))
          (PyRe.Seq (PyRe.Grp 1 (PyRe.Seq PyRe.Any PyRe.Eps)) PyRe.Eps), 1).
Proof. vm_compute. reflexivity. Qed.

Section Finish.
Variable upper : char -> str.

(** [m.group(1)] is never [None] in the capitalization. *)
Lemma capitalization_ok (capitalize : bool) (result : str) :
  exists out, capitalization upper capitalize result = Ok out.
Proof.
  unfold capitalization. destruct capitalize.
  - unfold re_sub_fn. cbn [re_compile PyRe.engine].
    rewrite compile_space_run_group. cbn [bind]. apply sub_loop_ok.
    intros before after must_advance m Hm. cbn [re_search PyRe.engine fst] in Hm.
    apply find_groups in Hm as (s' & tg & whole & Hin & Hg).
    apply ms_closing_group in Hin as [t Ht].
    unfold capitalize_group, group. rewrite Hg.
    rewrite (lookup_group_app _ _ _ _ Ht). eauto.
  - eapply re_sub_ok. vm_compute. reflexivity.
Qed.

Lemma placeholder_sub_ok (s : str) :
  exists out, re_sub PyRe.engine (u " ?\^\^\^") (u "") s = Ok out.
Proof.
  eapply re_sub_ok. vm_compute. reflexivity.
Qed.

(** The steps after the loop always return. *)
Lemma finish_ok (capitalize : bool) (anusvara_style replaced : str) :
  exists out, finish upper capitalize anusvara_style replaced = Ok out.
Proof.
  unfold finish.
  destruct (placeholder_sub_ok (replace (u "་") (u " ") replaced)) as [r1 H1].
  rewrite H1. cbn [bind]. rewrite vowel_cleanup_dominates. cbn [bind].
  destruct (capitalization_ok capitalize (drop_a dominates_a r1)) as [r3 H3].
  rewrite H3. cbn [bind]. eauto.
Qed.

End Finish.

(** ** The matcher only hands out text it was given *)

Section MatcherSound.
Variable Q : char -> Prop.

Local Abbreviation sound_on body :=
  (forall s g tg, Forall Q s -> groups_all Q g -> In tg (body s g) ->
                  Forall Q (fst tg) /\ groups_all Q (snd tg)).

Lemma rep_ms_sound (body : str -> PyRe.groups -> PyRe.results)
    (lo : N) (hi : option N) :
  sound_on body ->
  forall fuel count last, sound_on (PyRe.rep_ms body lo hi fuel count last).
Proof.
  intros Hbody. induction fuel as [|fuel IH]; intros count last s g tg Hs Hg;
    cbn [PyRe.rep_ms]; [intros []|].
  destruct (count <? lo)%N.
  - intros H. apply in_flat_map in H as (x & Hx & H).
    destruct (Hbody _ _ _ Hs Hg Hx) as [Hx1 Hx2]. now apply IH in H.
  - intros H. apply in_app_or in H as [H|[<-|[]]]; [|now split].
    destruct (PyRe.below hi count && negb (PyRe.same_pos last (length s)));
      [|destruct H].
    apply in_flat_map in H as (x & Hx & H).
    destruct (Hbody _ _ _ Hs Hg Hx) as [Hx1 Hx2]. now apply IH in H.
Qed.

Lemma Forall_tail (x : char) (t : str) : Forall Q (x :: t) -> Forall Q t.
Proof. intros H. now inversion H. Qed.

Lemma ms_sound (r : PyRe.regex) : sound_on (PyRe.ms r).
Proof.
  induction r as [|c| |neg rs|r1 IH1 r2 IH2|r1 IH1 r2 IH2|n r IH|lo hi r IH];
    intros s g tg Hs Hg; cbn [PyRe.ms].
  - intros [<-|[]]. now split.
  - destruct s as [|x t]; [intros []|].
    destruct (x =? c)%N; [|intros []].
    intros [<-|[]]. split; [now apply Forall_tail with x | exact Hg].
  - destruct s as [|x t]; [intros []|].
    destruct (x =? 10)%N; [intros []|].
    intros [<-|[]]. split; [now apply Forall_tail with x | exact Hg].
  - destruct s as [|x t]; [intros []|].
    destruct (xorb neg (PyRe.in_ranges x rs)); [|intros []].
    intros [<-|[]]. split; [now apply Forall_tail with x | exact Hg].
  - intros H. apply in_flat_map in H as (x & Hx & H).
    destruct (IH1 _ _ _ Hs Hg Hx) as [Hx1 Hx2]. now apply IH2 in H.
  - intros H. apply in_app_or in H as [H|H]; [now apply IH1 in H | now apply IH2 in H].
  - intros H. apply in_map_iff in H as (x & <- & Hx).
    destruct (IH _ _ _ Hs Hg Hx) as [Hx1 Hx2]. cbn [fst snd]. split; [exact Hx1|].
    constructor; [|exact Hx2]. cbn [snd]. now apply Forall_firstn_skipn.
  - now apply rep_ms_sound.
Qed.

Lemma find_sound (r : PyRe.regex) (s : str) :
  forall must_advance k m,
  Forall Q s ->
  PyRe.find r s must_advance k = Some m ->
  groups_all Q (m_groups m).
Proof.
  induction s as [|x s IH]; intros must_advance k m Hs; rewrite find_eq;
    destruct (PyRe.first_ok _ _ _) as [tg|] eqn:Hf; try discriminate.
  - intros H. injection H as <-. apply first_ok_In in Hf.
    apply ms_sound in Hf as [_ Hg]; [|exact Hs|constructor]. cbn [m_groups].
    apply Forall_app. split; [exact Hg|]. constructor; [|constructor].
    cbn. constructor.
  - intros H. injection H as <-. apply first_ok_In in Hf.
    apply ms_sound in Hf as [_ Hg]; [|exact Hs|constructor]. cbn [m_groups].
    apply Forall_app. split; [exact Hg|]. constructor; [|constructor].
    cbn [snd]. now apply Forall_firstn_skipn.
  - apply IH. now apply Forall_tail with x.
Qed.

Lemma lookup_group_all (n : nat) (g : list (nat * str)) (t : str) :
  groups_all Q g -> lookup_group n g = Some t -> Forall Q t.
Proof.
  induction 1 as [|[k v] g Hv Hg IH]; cbn; [discriminate|].
  destruct (Nat.eqb k n); [|exact IH]. intros H. now injection H as <-.
Qed.

End MatcherSound.

(** ** No tshek after the loop *)

Lemma drop_a_forall (Q : char -> Prop) (P : char -> bool) (s : str) :
  Forall Q s -> Forall Q (drop_a P s).
Proof.
  induction 1 as [|x t Hx Ht IH]; cbn [drop_a]; [constructor|].
  destruct (is_a x && next_in P t); [exact IH | now constructor].
Qed.

Lemma strip_forall (Q : char -> Prop) (s : str) :
  Forall Q s -> Forall Q (strip s).
Proof.
  rewrite !Forall_forall. intros H x Hx. now apply H, strip_incl.
Qed.

Lemma replace_tshek (s : str) : Forall not_tshek (replace (u "་") (u " ") s).
Proof.
  change (u "་") with [tshek]. change (u " ") with [32%N].
  rewrite replace_char. apply Forall_forall. intros x Hx.
  apply in_map_iff in Hx as (y & <- & _).
  destruct (tshek =? y)%N eqn:Hy; [discriminate|].
  apply N.eqb_neq in Hy. unfold not_tshek. congruence.
Qed.

Section NoTshek.
Variable upper : char -> str.
Hypothesis upper_no_tshek : forall c, not_tshek c -> Forall not_tshek (upper c).

Lemma capitalization_no_tshek (capitalize : bool) (result out : str) :
  Forall not_tshek result ->
  capitalization upper capitalize result = Ok out ->
  Forall not_tshek out.
Proof.
  intros Hr. unfold capitalization. destruct capitalize.
  - unfold re_sub_fn.
    destruct (re_compile PyRe.engine (u " {2,}(.)")) as [p|]; [|discriminate].
    cbn [bind]. apply sub_loop_forall.
    + intros before after must_advance m o Hafter Hm. unfold capitalize_group.
      destruct (group m 1) as [g|] eqn:Hg; [|discriminate].
      intros H. injection H as <-.
      change (u "    ") with [32; 32; 32; 32]%N. cbn [app].
      repeat (constructor; [discriminate|]).
      apply Forall_flat_map.
      cbn [re_search PyRe.engine] in Hm.
      apply (find_sound not_tshek) in Hm; [|exact Hafter].
      apply (lookup_group_all not_tshek _ _ _ Hm) in Hg.
      revert Hg. apply Forall_impl. exact upper_no_tshek.
    + destruct result as [|c t]; [constructor|].
      inversion Hr; subst.
      apply Forall_app. split; [now apply upper_no_tshek | assumption].
  - apply re_sub_forall; [|exact Hr].
    intros p t m Ht. cbn in Ht. injection Ht as <-. cbn.
    repeat constructor; discriminate.
Qed.

Lemma finish_no_tshek (capitalize : bool) (anusvara_style replaced out : str) :
  finish upper capitalize anusvara_style replaced = Ok out ->
  Forall not_tshek out.
Proof.
  unfold finish.
  destruct (re_sub PyRe.engine (u " ?\^\^\^") (u "") _) as [r1|] eqn:H1;
    [|discriminate].
  cbn [bind]. rewrite vowel_cleanup_dominates. cbn [bind].
  destruct (capitalization upper capitalize _) as [r3|] eqn:H3; [|discriminate].
  cbn [bind]. intros H. injection H as <-.
  apply strip_forall.
  assert (F1 : Forall not_tshek r1).
  { eapply re_sub_forall; [| apply replace_tshek | exact H1].
    intros p t m Ht. cbn in Ht. injection Ht as <-. constructor. }
  assert (F3 : Forall not_tshek r3).
  { eapply capitalization_no_tshek; [|exact H3]. now apply drop_a_forall. }
  unfold apply_anusvara_style. destruct (eqb_str anusvara_style (u "ṁ")); [|exact F3].
  change (u "ṃ") with [7747%N]. change (u "ṁ") with [7745%N].
  rewrite replace_char. apply Forall_forall. intros x Hx.
  apply in_map_iff in Hx as (y & <- & Hy).
  destruct (7747 =? y)%N; [discriminate|].
  revert y Hy. now apply Forall_forall.
Qed.

End NoTshek.

(** ** The fuel of the matcher and of the loop is enough *)

Lemma flat_map_ext_in {A B} (f g : A -> list B) (l : list A) :
  (forall x, In x l -> f x = g x) -> flat_map f l = flat_map g l.
Proof.
  induction l as [|a l IH]; cbn; intros H; [reflexivity|].
  rewrite (H a) by now left. f_equal. apply IH. intros x Hx. apply H. now right.
Qed.

(** A success never gives back more text than it was given. *)
Local Abbreviation shrinking body :=
  (forall (s : str) (g : PyRe.groups) tg,
     In tg (body s g) -> length (fst tg) <= length s).

Lemma rep_ms_shrinking (body : str -> PyRe.groups -> PyRe.results)
    (lo : N) (hi : option N) :
  shrinking body ->
  forall fuel count last, shrinking (PyRe.rep_ms body lo hi fuel count last).
Proof.
  intros Hbody. induction fuel as [|fuel IH]; intros count last s g tg;
    cbn [PyRe.rep_ms]; [intros []|].
  destruct (count <? lo)%N.
  - intros H. apply in_flat_map in H as (x & Hx & H).
    apply Hbody in Hx. apply IH in H. lia.
  - intros H. apply in_app_or in H as [H|[<-|[]]]; [|cbn; lia].
    destruct (PyRe.below hi count && negb (PyRe.same_pos last (length s)));
      [|destruct H].
    apply in_flat_map in H as (x & Hx & H).
    apply Hbody in Hx. apply IH in H. lia.
Qed.

Lemma ms_shrinking (r : PyRe.regex) : shrinking (PyRe.ms r).
Proof.
  induction r as [|c| |neg rs|r1 IH1 r2 IH2|r1 IH1 r2 IH2|n r IH|lo hi r IH];
    intros s g tg; cbn [PyRe.ms].
  - intros [<-|[]]. cbn. lia.
  - destruct s as [|x t]; [intros []|].
    destruct (x =? c)%N; [|intros []]. intros [<-|[]]. cbn. lia.
  - destruct s as [|x t]; [intros []|].
    destruct (x =? 10)%N; [intros []|]. intros [<-|[]]. cbn. lia.
  - destruct s as [|x t]; [intros []|].
    destruct (xorb neg (PyRe.in_ranges x rs)); [|intros []].
    intros [<-|[]]. cbn. lia.
  - intros H. apply in_flat_map in H as (x & Hx & H).
    apply IH1 in Hx. apply IH2 in H. lia.
  - intros H. apply in_app_or in H as [H|H]; [now apply IH1 in H | now apply IH2 in H].
  - intros H. apply in_map_iff in H as (x & <- & Hx). cbn [fst].
    now apply IH in Hx.
  - now apply rep_ms_shrinking.
Qed.

Lemma rep_ms_fuel_enough (body : str -> PyRe.groups -> PyRe.results)
    (lo : N) (hi : option N) :
  shrinking body ->
  forall fuel1 fuel2 count last s g,
  rep_rounds lo count last s <= fuel1 ->
  rep_rounds lo count last s <= fuel2 ->
  PyRe.rep_ms body lo hi fuel1 count last s g
  = PyRe.rep_ms body lo hi fuel2 count last s g.
Proof.
  intros Hbody. unfold rep_rounds.
  induction fuel1 as [|fuel1 IH]; intros fuel2 count last s g H1 H2.
  - destruct (PyRe.same_pos last (length s)); lia.
  - destruct fuel2 as [|fuel2];
      [destruct (PyRe.same_pos last (length s)); lia|].
    cbn [PyRe.rep_ms]. destruct (count <? lo)%N eqn:Hc.
    + apply flat_map_ext_in. intros x Hx. apply Hbody in Hx.
      apply N.ltb_lt in Hc.
      assert (Hlo : N.to_nat (lo - (count + 1)) < N.to_nat (lo - count)) by lia.
      apply IH; destruct last as [k|]; cbn [PyRe.same_pos] in *; try lia;
        destruct (Nat.eqb_spec k (length s)),
                 (Nat.eqb_spec k (length (fst x))); lia.
    + f_equal.
      destruct (PyRe.below hi count && negb (PyRe.same_pos last (length s)))
        eqn:Hb; [|reflexivity].
      apply andb_prop in Hb as [_ Hb]. apply negb_true_iff in Hb.
      rewrite Hb in H1, H2.
      apply flat_map_ext_in. intros x Hx. apply Hbody in Hx.
      apply N.ltb_ge in Hc.
      assert (Hlo : N.to_nat (lo - (count + 1)) = 0) by lia.
      assert (Hlo' : N.to_nat (lo - count) = 0) by lia.
      apply IH; cbn [PyRe.same_pos];
        destruct (Nat.eqb_spec (length s) (length (fst x))); lia.
Qed.

(** The fuel [ms] gives a repeat is enough: more changes nothing. *)
Lemma ms_rep_fuel (lo : N) (hi : option N) (r : PyRe.regex) (s : str)
    (g : PyRe.groups) (extra : nat) :
  PyRe.ms (PyRe.Rep lo hi r) s g
  = PyRe.rep_ms (PyRe.ms r) lo hi (N.to_nat lo + length s + 2 + extra)
      0 None s g.
Proof.
  cbn [PyRe.ms]. apply rep_ms_fuel_enough; [apply ms_shrinking| |];
    unfold rep_rounds; cbn [PyRe.same_pos]; rewrite N.sub_0_r; lia.
Qed.

Lemma first_ok_advances (rs : PyRe.results) (n0 : nat) (tg : str * PyRe.groups) :
  PyRe.first_ok rs true n0 = Some tg -> length (fst tg) <> n0.
Proof.
  induction rs as [|y rs IH]; cbn [PyRe.first_ok andb]; [discriminate|].
  destruct (Nat.eqb_spec (length (fst y)) n0); [exact IH|].
  intros H. now injection H as <-.
Qed.

Lemma find_head_bounds (r : PyRe.regex) (s : str) (must_advance : bool)
    (k : nat) (tg : str * PyRe.groups) (m : mtch) :
  PyRe.first_ok (PyRe.ms r s []) must_advance (length s) = Some tg ->
  PyRe.find r s must_advance k = Some m ->
  k <= m_skip m
  /\ (m_skip m - k) + m_len m <= length s
  /\ (must_advance = true -> 0 < (m_skip m - k) + m_len m).
Proof.
  intros Hf. rewrite find_eq, Hf. intros H. injection H as <-.
  cbn [m_skip m_len].
  pose proof (ms_shrinking r _ _ _ (first_ok_In _ _ _ _ Hf)) as Hle.
  repeat split; try lia. intros ->. apply first_ok_advances in Hf. lia.
Qed.

(** A match lies in the text, and advances when it must. *)
Lemma find_bounds (r : PyRe.regex) (s : str) :
  forall must_advance k m,
  PyRe.find r s must_advance k = Some m ->
  k <= m_skip m
  /\ (m_skip m - k) + m_len m <= length s
  /\ (must_advance = true -> 0 < (m_skip m - k) + m_len m).
Proof.
  induction s as [|x s IH]; intros must_advance k m Hfind.
  - destruct (PyRe.first_ok (PyRe.ms r [] []) must_advance
                (length (@nil char))) as [tg|] eqn:Hf.
    + exact (find_head_bounds r _ _ _ tg m Hf Hfind).
    + rewrite find_eq, Hf in Hfind. discriminate.
  - destruct (PyRe.first_ok (PyRe.ms r (x :: s) []) must_advance
                (length (x :: s))) as [tg|] eqn:Hf.
    + exact (find_head_bounds r _ _ _ tg m Hf Hfind).
    + rewrite find_eq, Hf in Hfind.
      apply IH in Hfind as (H1 & H2 & _). cbn [List.length].
      repeat split; try lia.
Qed.

(** [sub_fuel] rounds are enough for [re.sub], on every engine whose
    matches lie in the text and advance when they must: with more fuel the
    loop returns the same. *)
Lemma sub_loop_fuel_enough (E : Re.engine) (p : re_pat E)
    (repl : mtch -> outcome str) :
  search_in_bounds E ->
  forall fuel1 fuel2 before after must_advance,
  sub_rounds after must_advance <= fuel1 ->
  sub_rounds after must_advance <= fuel2 ->
  sub_loop E fuel1 p repl before after must_advance
  = sub_loop E fuel2 p repl before after must_advance.
Proof.
  intros Hlaw. unfold sub_rounds.
  induction fuel1 as [|fuel1 IH]; intros fuel2 before after must_advance H1 H2.
  - destruct must_advance; lia.
  - destruct fuel2 as [|fuel2]; [destruct must_advance; lia|].
    cbn [sub_loop].
    destruct (re_search E p before after must_advance) as [m|] eqn:Hm;
      [|reflexivity].
    apply Hlaw in Hm as (Hb & Hadv).
    destruct (repl m) as [piece|]; [|reflexivity]. cbn [bind].
    rewrite (IH fuel2); [reflexivity| |];
      rewrite length_skipn;
      destruct (Nat.eqb_spec (m_len m) 0);
      destruct must_advance; try specialize (Hadv eq_refl); lia.
Qed.

Lemma PyRe_search_in_bounds : search_in_bounds PyRe.engine.
Proof.
  intros p before after must_advance m Hm. cbn [re_search PyRe.engine] in Hm.
  apply find_bounds in Hm as (_ & Hb & Hadv).
  rewrite Nat.sub_0_r in Hb, Hadv. now split.
Qed.

Lemma sub_fuel_enough (p : PyRe.pat) (repl : mtch -> outcome str) (s : str)
    (extra : nat) :
  sub_loop PyRe.engine (sub_fuel s + extra) p repl [] s false
  = sub_loop PyRe.engine (sub_fuel s) p repl [] s false.
Proof.
  apply sub_loop_fuel_enough; [apply PyRe_search_in_bounds| |];
    unfold sub_rounds, sub_fuel; lia.
Qed.

(** ** Helpers on strings and on the expressions of the last steps *)

Lemma eqb_str_false (a b : str) : a <> b -> eqb_str a b = false.
Proof.
  intros H. unfold eqb_str. now destruct (list_eq_dec N.eq_dec a b).
Qed.

Lemma lstrip_head (s : str) :
  match lstrip s with
  | c :: _ => isspace c = false
  | [] => True
  end.
Proof.
  induction s as [|x t IH]; cbn [lstrip]; [exact I|].
  destruct (isspace x) eqn:Hx; [exact IH | exact Hx].
Qed.

(** What [lstrip] keeps is the end of the text. *)
Lemma lstrip_suffix (s : str) : exists pre, s = pre ++ lstrip s.
Proof.
  induction s as [|x t [pre IH]]; cbn [lstrip]; [now exists []|].
  destruct (isspace x).
  - exists (x :: pre). cbn. now f_equal.
  - now exists [].
Qed.

Lemma strip_trimmed (s : str) : trimmed (strip s).
Proof.
  unfold trimmed, strip. rewrite rev_involutive. split.
  - pose proof (lstrip_head s) as Hs.
    destruct (lstrip_suffix (rev (lstrip s))) as [pre Hpre].
    apply (f_equal (@rev char)) in Hpre.
    rewrite rev_involutive, rev_app_distr in Hpre.
    destruct (rev (lstrip (rev (lstrip s)))) as [|c l]; [exact I|].
    rewrite Hpre in Hs. exact Hs.
  - apply lstrip_head.
Qed.

Lemma after_spaces_length (s : str) : length (after_spaces s) <= length s.
Proof.
  induction s as [|x t IH]; cbn [after_spaces length]; [lia|].
  destruct (is_space x); cbn [length]; lia.
Qed.

Lemma after_spaces_cons (x : char) (t : str) :
  after_spaces (x :: t) = if is_space x then after_spaces t else x :: t.
Proof. reflexivity. Qed.

Lemma hd_error_app {A} (l l' : list A) (a : A) :
  hd_error l = Some a -> hd_error (l ++ l') = Some a.
Proof. destruct l; [discriminate | tauto]. Qed.

Lemma first_ok_hd (rs : PyRe.results) (n0 : nat) :
  PyRe.first_ok rs false n0 = hd_error rs.
Proof. now destruct rs. Qed.

(** The greedy repeat of a space takes every space at the front, when there
    are enough of them. *)
Lemma rep_spaces (fuel : nat) :
  forall (count : N) (last : option nat) (s : str) (g : PyRe.groups),
  N.to_nat (2 - count) + (length s - length (after_spaces s)) < fuel ->
  (forall k, last = Some k -> length s < k) ->
  hd_error (PyRe.rep_ms (PyRe.ms (PyRe.Chr 32%N)) 2 None fuel count last s g)
  = if (2 <=? count + N.of_nat (length s - length (after_spaces s)))%N
    then Some (after_spaces s, g) else None.
Proof.
  induction fuel as [|fuel IH]; intros count last s g Hfuel Hlast; [lia|].
  assert (Hpos : PyRe.same_pos last (length s) = false).
  { destruct last as [k|]; [|reflexivity]. cbn [PyRe.same_pos].
    apply Nat.eqb_neq. specialize (Hlast k eq_refl). lia. }
  cbn [PyRe.rep_ms]. rewrite Hpos. cbn [PyRe.below andb negb].
  destruct s as [|x t].
  - cbn [PyRe.ms flat_map app after_spaces length Nat.sub N.of_nat].
    rewrite N.add_0_r.
    destruct (count <? 2)%N eqn:Hc, (N.leb_spec 2 count);
      try reflexivity; [apply N.ltb_lt in Hc | apply N.ltb_ge in Hc]; lia.
  - pose proof (after_spaces_length t) as Hle.
    rewrite after_spaces_cons in *. cbn [PyRe.ms]. unfold is_space in *.
    change (length (x :: t)) with (S (length t)) in *.
    destruct (x =? 32)%N.
    + cbn [flat_map fst snd]. rewrite !app_nil_r.
      replace (S (length t) - length (after_spaces t))
        with (S (length t - length (after_spaces t))) in * by lia.
      destruct (count <? 2)%N eqn:Hc;
        [apply N.ltb_lt in Hc | apply N.ltb_ge in Hc].
      * rewrite IH; [| lia | intros k Hk; specialize (Hlast k Hk); lia].
        destruct (N.leb_spec 2 (count + 1 + N.of_nat (length t - length (after_spaces t)))),
                 (N.leb_spec 2 (count + N.of_nat (S (length t - length (after_spaces t)))));
          try reflexivity; lia.
      * destruct (N.leb_spec 2 (count + N.of_nat (S (length t - length (after_spaces t)))));
          [|lia].
        apply hd_error_app.
        rewrite IH; [| lia | intros k Hk; injection Hk as <-; lia].
        destruct (N.leb_spec 2 (count + 1 + N.of_nat (length t - length (after_spaces t))));
          [reflexivity | lia].
    + change (length (x :: t)) with (S (length t)). rewrite Nat.sub_diag.
      cbn [flat_map app N.of_nat]. rewrite N.add_0_r.
      destruct (count <? 2)%N eqn:Hc, (N.leb_spec 2 count);
        try reflexivity; [apply N.ltb_lt in Hc | apply N.ltb_ge in Hc]; lia.
Qed.

Lemma flat_map_pair_eta (l : PyRe.results) :
  flat_map (fun tg : str * PyRe.groups => [(fst tg, snd tg)]) l = l.
Proof.
  induction l as [|[t g] l IH]; [reflexivity|]. cbn. now rewrite IH.
Qed.

Lemma find_space_run (s : str) (k : nat) :
  PyRe.find space_run s false k
  = if Nat.leb 2 (length s - length (after_spaces s))
    then Some {| m_skip := k;
                 m_len := length s - length (after_spaces s);
                 m_groups := [(0, firstn (length s - length (after_spaces s)) s)] |}
    else match s with
         | [] => None
         | _ :: s' => PyRe.find space_run s' false (S k)
         end.
Proof.
  rewrite find_eq, first_ok_hd. unfold space_run. cbn [PyRe.ms].
  rewrite flat_map_pair_eta, rep_spaces.
  - change (0 + ?x)%N with x.
    destruct (Nat.leb_spec 2 (length s - length (after_spaces s)));
      destruct (N.leb_spec 2 (N.of_nat (length s - length (after_spaces s))));
      try lia; reflexivity.
  - pose proof (after_spaces_length s). cbn. lia.
  - discriminate.
Qed.

Lemma squeeze_in_run (s : str) :
  squeeze_spaces true s = squeeze_spaces false (after_spaces s).
Proof.
  induction s as [|x t IH]; [reflexivity|]. cbn [squeeze_spaces after_spaces].
  destruct (is_space x) eqn:Hx; [exact IH|].
  cbn [squeeze_spaces]. now rewrite Hx.
Qed.

(** What the search finds is the first run that [squeeze_spaces]
    replaces. *)
Lemma find_space_run_squeeze (s : str) :
  forall k,
  match PyRe.find space_run s false k with
  | None => squeeze_spaces false s = s
  | Some m =>
      exists j,
        m_skip m = k + j /\ 2 <= m_len m /\ j + m_len m <= length s
        /\ squeeze_spaces false s
           = firstn j s ++ [32; 32; 32; 32]%N
             ++ squeeze_spaces false (skipn (j + m_len m) s)
  end.
Proof.
  induction s as [|x t IH]; intros k; rewrite find_space_run.
  - reflexivity.
  - pose proof (after_spaces_length (x :: t)) as Hle.
    destruct (Nat.leb_spec 2 (length (x :: t) - length (after_spaces (x :: t))))
      as [Hn|Hn].
    + exists 0. cbn [m_skip m_len Nat.add firstn app].
      repeat split; try lia.
      assert (Hskip : forall v : str,
                skipn (length v - length (after_spaces v)) v = after_spaces v).
      { clear. intros v. induction v as [|y v IHv]; [reflexivity|].
        pose proof (after_spaces_length v) as Hle.
        rewrite after_spaces_cons. destruct (is_space y).
        - replace (length (y :: v) - length (after_spaces v))
            with (S (length v - length (after_spaces v)))
            by (change (length (y :: v)) with (S (length v)); lia).
          exact IHv.
        - now rewrite Nat.sub_diag. }
      rewrite Hskip. revert Hn Hle. cbn [after_spaces squeeze_spaces].
      destruct (is_space x) eqn:Hx; [|cbn [length]; lia].
      destruct t as [|y t']; [cbn; lia|]. cbn [after_spaces next_in].
      destruct (is_space y) eqn:Hy.
      * intros _ _. cbn [app]. do 4 f_equal.
        rewrite squeeze_in_run. cbn [after_spaces]. now rewrite Hy.
      * cbn [length]. lia.
    + specialize (IH (S k)).
      assert (Hhead : squeeze_spaces false (x :: t)
                      = x :: squeeze_spaces false t).
      { cbn [squeeze_spaces]. destruct (is_space x) eqn:Hx; [|reflexivity].
        destruct t as [|y t']; [reflexivity|]. cbn [next_in].
        destruct (is_space y) eqn:Hy; [|reflexivity].
        exfalso. revert Hn. cbn [after_spaces]. rewrite Hx, Hy.
        pose proof (after_spaces_length t'). cbn [length]. lia. }
      destruct (PyRe.find space_run t false (S k)) as [m|].
      * destruct IH as (j & H1 & H2 & H3 & H4).
        exists (S j). repeat split; try lia; [cbn [length]; lia|].
        rewrite Hhead, H4. reflexivity.
      * rewrite Hhead. now f_equal.
Qed.

Lemma sub_loop_space_run (fuel : nat) :
  forall (s before : str),
  length s < fuel ->
  sub_loop PyRe.engine fuel (space_run, 0)
    (fun m => Ok (expand [TLit [32%N]; TLit [32%N]; TLit [32%N]; TLit [32%N]] m))
    before s false
  = Ok (squeeze_spaces false s).
Proof.
  induction fuel as [|fuel IH]; intros s before Hlen; [lia|].
  cbn [sub_loop re_search PyRe.engine fst].
  pose proof (find_space_run_squeeze s 0) as H.
  destruct (PyRe.find space_run s false 0) as [m|].
  - destruct H as (j & H1 & H2 & H3 & H4). cbn [bind].
    replace (Nat.eqb (m_len m) 0) with false
      by (symmetry; apply Nat.eqb_neq; lia).
    rewrite H1. cbn [Nat.add].
    rewrite IH by (rewrite length_skipn; lia).
    cbn [bind]. now rewrite H4.
  - now rewrite H.
Qed.

Lemma after_spaces_no_space (s : str) :
  next_in is_space (after_spaces s) = false.
Proof.
  induction s as [|x t IH]; [reflexivity|]. rewrite after_spaces_cons.
  destruct (is_space x) eqn:Hx; [exact IH | exact Hx].
Qed.

Lemma after_spaces_id (s : str) :
  next_in is_space s = false -> after_spaces s = s.
Proof.
  destruct s as [|x t]; [reflexivity|]. cbn [next_in after_spaces].
  now intros ->.
Qed.

Lemma squeeze_no_space (s : str) :
  next_in is_space s = false ->
  next_in is_space (squeeze_spaces false s) = false.
Proof.
  destruct s as [|x t]; [reflexivity|]. cbn [next_in squeeze_spaces].
  intros H. now rewrite H.
Qed.

Lemma squeeze_four (r : str) :
  next_in is_space r = false ->
  squeeze_spaces false ([32; 32; 32; 32]%N ++ r)
  = [32; 32; 32; 32]%N ++ squeeze_spaces false r.
Proof.
  intros H. cbn [app squeeze_spaces next_in].
  change (is_space 32%N) with true. cbv iota.
  cbn [app]. do 4 f_equal. rewrite squeeze_in_run.
  now rewrite after_spaces_id.
Qed.

Lemma squeeze_idempotent (n : nat) :
  forall s, length s <= n ->
  squeeze_spaces false (squeeze_spaces false s) = squeeze_spaces false s.
Proof.
  induction n as [|n IH]; intros s Hn.
  - destruct s; [reflexivity | cbn in Hn; lia].
  - destruct s as [|x t]; [reflexivity|].
    change (length (x :: t)) with (S (length t)) in Hn.
    cbn [squeeze_spaces]. destruct (is_space x) eqn:Hx.
    + destruct (next_in is_space t) eqn:Ht.
      * rewrite squeeze_in_run.
        rewrite squeeze_four
          by (apply squeeze_no_space, after_spaces_no_space).
        rewrite IH; [reflexivity|].
        pose proof (after_spaces_length t). lia.
      * cbn [squeeze_spaces]. rewrite Hx.
        rewrite (squeeze_no_space t Ht). rewrite IH by lia. reflexivity.
    + cbn [squeeze_spaces]. rewrite Hx. rewrite IH by lia. reflexivity.
Qed.

Lemma hd_error_nil {A} (l : list A) : hd_error l = None -> l = [].
Proof. destruct l; [reflexivity | discriminate]. Qed.

(** Fewer than two spaces at the front where no two spaces are in a row. *)
Lemma no_double_space_front (s : str) :
  no_double_space s = true ->
  length s - length (after_spaces s) < 2.
Proof.
  destruct s as [|x t]; [cbn; lia|]. cbn [no_double_space].
  intros H. apply andb_prop in H as [H _]. apply negb_true_iff in H.
  rewrite after_spaces_cons. destruct (is_space x); [|rewrite Nat.sub_diag; lia].
  cbn [andb] in H. destruct t as [|y t']; [cbn; lia|].
  cbn [next_in] in H. rewrite after_spaces_cons, H.
  change (length (x :: y :: t')) with (S (length (y :: t'))). lia.
Qed.

Lemma no_double_space_tail (x : char) (t : str) :
  no_double_space (x :: t) = true -> no_double_space t = true.
Proof. cbn [no_double_space]. intros H. now apply andb_prop in H. Qed.

Lemma squeeze_fixed (s : str) :
  no_double_space s = true -> squeeze_spaces false s = s.
Proof.
  induction s as [|x t IH]; [reflexivity|]. cbn [no_double_space squeeze_spaces].
  intros H. apply andb_prop in H as [H1 H2]. apply negb_true_iff in H1.
  rewrite (IH H2). destruct (is_space x); [|reflexivity].
  cbn [andb] in H1. now rewrite H1.
Qed.

Lemma ms_space_run_then_char_nil (s : str) :
  length s - length (after_spaces s) < 2 ->
  PyRe.ms space_run_then_char s [] = [].
Proof.
  intros Hn. pose proof (after_spaces_length s) as Hle.
  change (PyRe.ms space_run_then_char s [])
    with (flat_map
            (fun tg =>
               PyRe.ms (PyRe.Seq (PyRe.Grp 1 (PyRe.Seq PyRe.Any PyRe.Eps))
                          PyRe.Eps) (fst tg) (snd tg))
            (PyRe.rep_ms (PyRe.ms (PyRe.Chr 32%N)) 2 None
               (N.to_nat 2 + length s + 2) 0 None s [])).
  assert (Hrep : PyRe.rep_ms (PyRe.ms (PyRe.Chr 32%N)) 2 None
                   (N.to_nat 2 + length s + 2) 0 None s [] = []).
  { apply hd_error_nil. rewrite rep_spaces; [| cbn; lia | discriminate].
    destruct (N.leb_spec 2 (0 + N.of_nat (length s - length (after_spaces s))));
      [lia | reflexivity]. }
  now rewrite Hrep.
Qed.

Lemma find_space_run_then_char_none (s : str) :
  forall k, no_double_space s = true ->
            PyRe.find space_run_then_char s false k = None.
Proof.
  induction s as [|x t IH]; intros k H; rewrite find_eq, first_ok_hd,
    ms_space_run_then_char_nil by now apply no_double_space_front.
  - reflexivity.
  - cbn [hd_error]. apply IH. now apply no_double_space_tail with x.
Qed.

(** The placeholder expression is not found where "^^^" is not a
    substring. *)
Lemma ms_three_carets_nil (s : str) (g : PyRe.groups) :
  startswith (u "^^^") s = false -> PyRe.ms three_carets s g = [].
Proof.
  change (u "^^^") with [94; 94; 94]%N. unfold three_carets. intros H.
  destruct s as [|a s]; [reflexivity|].
  cbn [PyRe.ms startswith] in *. rewrite N.eqb_sym in H.
  destruct (a =? 94)%N; [|reflexivity].
  cbn [andb flat_map fst snd] in *. rewrite app_nil_r.
  destruct s as [|b s]; [reflexivity|].
  cbn [PyRe.ms startswith] in *. rewrite N.eqb_sym in H.
  destruct (b =? 94)%N; [|reflexivity].
  cbn [andb flat_map fst snd] in *. rewrite app_nil_r.
  destruct s as [|c s]; [reflexivity|].
  cbn [PyRe.ms startswith] in *. rewrite N.eqb_sym in H.
  destruct (c =? 94)%N; [discriminate | reflexivity].
Qed.

Lemma ms_placeholder_nil (s : str) :
  startswith (u "^^^") s = false ->
  startswith (u "^^^") (tl s) = false ->
  PyRe.ms placeholder s [] = [].
Proof.
  intros H1 H2. unfold placeholder. cbn [PyRe.ms].
  replace (N.to_nat 0 + length s + 2) with (S (S (length s))) by lia.
  cbn [PyRe.rep_ms N.ltb N.compare PyRe.below PyRe.same_pos andb negb N.add].
  destruct s as [|x t].
  - cbn [PyRe.ms flat_map app fst snd]. now rewrite ms_three_carets_nil.
  - cbn [PyRe.ms tl] in *. destruct (x =? 32)%N.
    + cbn [flat_map app fst snd PyRe.rep_ms].
      cbn [N.ltb N.compare N.add Pos.compare Pos.compare_cont PyRe.below
           andb app flat_map fst snd].
      rewrite !ms_three_carets_nil by assumption. reflexivity.
    + cbn [flat_map app fst snd]. now rewrite ms_three_carets_nil.
Qed.

Lemma find_placeholder_none (s : str) :
  forall k, contains (u "^^^") s = false ->
            PyRe.find placeholder s false k = None.
Proof.
  induction s as [|x t IH]; intros k H; rewrite find_eq, first_ok_hd.
  - rewrite ms_placeholder_nil; reflexivity.
  - cbn [contains] in H. apply orb_false_elim in H as [H1 H2].
    rewrite ms_placeholder_nil; [| exact H1 |].
    + cbn [hd_error]. now apply IH.
    + cbn [tl]. destruct t; [reflexivity|].
      cbn [contains] in H2. now apply orb_false_elim in H2.
Qed.

Lemma placeholder_absent (s : str) :
  contains (u "^^^") s = false ->
  re_sub PyRe.engine (u " ?\^\^\^") (u "") s = Ok s.
Proof.
  intros H. unfold re_sub. cbn [re_compile re_template PyRe.engine].
  change (PyRe.compile (u " ?\^\^\^")) with (Ok (placeholder, 0)).
  cbn [bind snd]. change (PyRe.parse_template 0 (u "")) with (@Ok (list titem) []).
  cbn [bind]. apply sub_loop_no_match. cbn [re_search PyRe.engine fst].
  now apply find_placeholder_none.
Qed.

(** ** A substitution whose matches are decided at their first character *)

Lemma rewrite_scan_skip (at_head : str -> option (nat * str)) (k : nat) :
  forall s, rewrite_scan at_head k s = rewrite_scan at_head 0 (skipn k s).
Proof.
  induction k as [|k IH]; intros s; [reflexivity|].
  destruct s as [|x t]; [reflexivity|]. cbn [rewrite_scan skipn]. apply IH.
Qed.

Lemma startswith_length (p s : str) :
  startswith p s = true -> length p <= length s.
Proof.
  revert s. induction p as [|a p IH]; intros s H; [cbn; lia|].
  destruct s as [|b s]; [discriminate|]. cbn [startswith] in H.
  apply andb_prop in H as [_ H]. apply IH in H. cbn [length]. lia.
Qed.

Section Scan.
Variable r : PyRe.regex.
Variable repl : mtch -> outcome str.
Variable at_head : str -> option (nat * str).

(** The expression matches at a position exactly where [at_head] says so,
    with that length and that replacement. *)
Hypothesis find_at_head : forall s k,
  match at_head s with
  | Some (more, out) =>
      S more <= length s
      /\ exists m, PyRe.find r s false k = Some m
           /\ m_skip m = k /\ m_len m = S more /\ repl m = Ok out
  | None =>
      PyRe.find r s false k
      = match s with
        | [] => None
        | _ :: s' => PyRe.find r s' false (S k)
        end
  end.

Lemma find_rewrite_scan (s : str) :
  forall k,
  match PyRe.find r s false k with
  | None => rewrite_scan at_head 0 s = s
  | Some m =>
      exists j more out,
        m_skip m = k + j /\ m_len m = S more /\ j + S more <= length s
        /\ repl m = Ok out
        /\ rewrite_scan at_head 0 s
           = firstn j s ++ out
             ++ rewrite_scan at_head 0 (skipn (j + S more) s)
  end.
Proof.
  induction s as [|x t IH]; intros k.
  - pose proof (find_at_head [] k) as H.
    destruct (at_head []) as [[more out]|].
    + destruct H as [H _]. cbn in H. lia.
    + rewrite H. reflexivity.
  - pose proof (find_at_head (x :: t) k) as H.
    cbn [rewrite_scan]. destruct (at_head (x :: t)) as [[more out]|].
    + destruct H as (Hlen & m & -> & H1 & H2 & H3).
      exists 0, more, out. cbn [Nat.add firstn app skipn].
      repeat split; try assumption; try lia.
      now rewrite rewrite_scan_skip.
    + rewrite H. specialize (IH (S k)).
      destruct (PyRe.find r t false (S k)) as [m|].
      * destruct IH as (j & more & out & H1 & H2 & H3 & H4 & H5).
        exists (S j), more, out. cbn [Nat.add firstn app skipn].
        repeat split; try assumption; try lia.
        -- change (length (x :: t)) with (S (length t)). lia.
        -- now rewrite H5.
      * now rewrite IH.
Qed.

Lemma sub_loop_rewrite_scan (ng fuel : nat) :
  forall (s before : str),
  length s < fuel ->
  sub_loop PyRe.engine fuel (r, ng) repl before s false
  = Ok (rewrite_scan at_head 0 s).
Proof.
  induction fuel as [|fuel IH]; intros s before Hlen; [lia|].
  cbn [sub_loop re_search PyRe.engine fst].
  pose proof (find_rewrite_scan s 0) as H.
  destruct (PyRe.find r s false 0) as [m|].
  - destruct H as (j & more & out & H1 & H2 & H3 & H4 & H5).
    rewrite H4. cbn [bind]. rewrite H2. cbn [Nat.eqb].
    rewrite H1. cbn [Nat.add].
    rewrite IH by (rewrite length_skipn; lia).
    cbn [bind]. now rewrite H5.
  - now rewrite H.
Qed.

End Scan.

(** ** The placeholder as a function on lists *)

Lemma ms_three_carets (s : str) (g : PyRe.groups) :
  PyRe.ms three_carets s g
  = if startswith [94; 94; 94]%N s then [(skipn 3 s, g)] else [].
Proof.
  unfold three_carets.
  destruct s as [|a s]; [reflexivity|].
  cbn [PyRe.ms startswith]. rewrite (N.eqb_sym 94 a).
  destruct (a =? 94)%N; [|reflexivity].
  cbn [andb flat_map fst snd]. rewrite app_nil_r.
  destruct s as [|b s]; [reflexivity|].
  cbn [PyRe.ms startswith]. rewrite (N.eqb_sym 94 b).
  destruct (b =? 94)%N; [|reflexivity].
  cbn [andb flat_map fst snd]. rewrite app_nil_r.
  destruct s as [|c s]; [reflexivity|].
  cbn [PyRe.ms startswith]. rewrite (N.eqb_sym 94 c).
  destruct (c =? 94)%N; reflexivity.
Qed.

Lemma hd_ms_placeholder (s : str) :
  hd_error (PyRe.ms placeholder s [])
  = if startswith [32; 94; 94; 94]%N s then Some (skipn 4 s, [])
    else if startswith [94; 94; 94]%N s then Some (skipn 3 s, [])
    else None.
Proof.
  unfold placeholder. cbn [PyRe.ms].
  replace (N.to_nat 0 + length s + 2) with (S (S (length s))) by lia.
  cbn [PyRe.rep_ms N.ltb N.compare PyRe.below PyRe.same_pos andb negb N.add].
  destruct s as [|x t].
  - cbn [PyRe.ms flat_map app fst snd]. reflexivity.
  - cbn [PyRe.ms].
    change (startswith [32; 94; 94; 94]%N (x :: t))
      with ((32 =? x)%N && startswith [94; 94; 94]%N t).
    rewrite (N.eqb_sym 32 x).
    destruct (x =? 32)%N eqn:Hx.
    + apply N.eqb_eq in Hx. subst x.
      cbn [flat_map app fst snd PyRe.rep_ms].
      cbn [N.ltb N.compare N.add Pos.compare Pos.compare_cont PyRe.below
           andb app flat_map fst snd].
      rewrite !app_nil_r, !ms_three_carets.
      change (startswith [94; 94; 94]%N (32%N :: t)) with false.
      change (skipn 4 (32%N :: t)) with (skipn 3 t).
      destruct (startswith [94; 94; 94]%N t); reflexivity.
    + cbn [flat_map app fst snd andb]. rewrite app_nil_r, ms_three_carets.
      destruct (startswith [94; 94; 94]%N (x :: t)); reflexivity.
Qed.

Lemma find_placeholder (s : str) (k : nat) :
  match placeholder_at s with
  | Some (more, out) =>
      S more <= length s
      /\ exists m, PyRe.find placeholder s false k = Some m
           /\ m_skip m = k /\ m_len m = S more
           /\ Ok (expand [] m) = Ok out
  | None =>
      PyRe.find placeholder s false k
      = match s with
        | [] => None
        | _ :: s' => PyRe.find placeholder s' false (S k)
        end
  end.
Proof.
  rewrite find_eq, first_ok_hd, hd_ms_placeholder. unfold placeholder_at.
  destruct (startswith [32; 94; 94; 94]%N s) eqn:H4.
  - apply startswith_length in H4. cbn [length] in H4.
    split; [lia|]. eexists. split; [reflexivity|]. cbn [m_skip m_len fst].
    repeat split. rewrite length_skipn. lia.
  - destruct (startswith [94; 94; 94]%N s) eqn:H3; [|reflexivity].
    apply startswith_length in H3. cbn [length] in H3.
    split; [lia|]. eexists. split; [reflexivity|]. cbn [m_skip m_len fst].
    repeat split. rewrite length_skipn. lia.
Qed.

(** Line 120 deletes every placeholder, with the space before it. *)
Lemma placeholder_sub (s : str) :
  re_sub PyRe.engine (u " ?\^\^\^") (u "") s = Ok (drop_placeholder s).
Proof.
  unfold re_sub. cbn [re_compile re_template PyRe.engine].
  change (PyRe.compile (u " ?\^\^\^")) with (Ok (placeholder, 0)).
  cbn [bind snd].
  change (PyRe.parse_template 0 (u "")) with (@Ok (list titem) []).
  cbn [bind]. apply sub_loop_rewrite_scan; [apply find_placeholder|].
  unfold sub_fuel. lia.
Qed.

(** ** The capitalization as a function on lists *)

Lemma rep_ms_space_backoffs (fuel : nat) :
  forall (count : N) (last : option nat) (s : str) (g : PyRe.groups),
  N.to_nat (2 - count) + length s < fuel ->
  (forall k, last = Some k -> length s < k) ->
  PyRe.rep_ms (PyRe.ms (PyRe.Chr 32%N)) 2 None fuel count last s g
  = space_backoffs count s g.
Proof.
  induction fuel as [|fuel IH]; intros count last s g Hfuel Hlast; [lia|].
  assert (Hpos : PyRe.same_pos last (length s) = false).
  { destruct last as [k|]; [|reflexivity]. cbn [PyRe.same_pos].
    apply Nat.eqb_neq. specialize (Hlast k eq_refl). lia. }
  cbn [PyRe.rep_ms]. rewrite Hpos. cbn [PyRe.below andb negb].
  destruct s as [|x t].
  - cbn [PyRe.ms flat_map app space_backoffs].
    destruct (count <? 2)%N eqn:Hc, (N.leb_spec 2 count);
      try reflexivity; [apply N.ltb_lt in Hc | apply N.ltb_ge in Hc]; lia.
  - cbn [PyRe.ms space_backoffs].
    change (length (x :: t)) with (S (length t)) in *.
    destruct (x =? 32)%N.
    + cbn [flat_map fst snd]. rewrite !app_nil_r.
      destruct (count <? 2)%N eqn:Hc;
        [apply N.ltb_lt in Hc | apply N.ltb_ge in Hc].
      * rewrite IH; [| lia | intros k Hk; specialize (Hlast k Hk); lia].
        destruct (N.leb_spec 2 count); [lia|]. now rewrite app_nil_r.
      * rewrite IH; [| lia | intros k Hk; injection Hk as <-; lia].
        destruct (N.leb_spec 2 count); [reflexivity | lia].
    + cbn [flat_map app].
      destruct (count <? 2)%N eqn:Hc, (N.leb_spec 2 count);
        try reflexivity; [apply N.ltb_lt in Hc | apply N.ltb_ge in Hc]; lia.
Qed.

Lemma ms_any_char_group (tg : str * PyRe.groups) :
  PyRe.ms (PyRe.Seq (PyRe.Grp 1 (PyRe.Seq PyRe.Any PyRe.Eps)) PyRe.Eps)
    (fst tg) (snd tg)
  = any_char_group tg.
Proof.
  destruct tg as [[|x t] g]; unfold any_char_group;
    cbn -[Nat.sub firstn]; [reflexivity|].
  destruct (x =? 10)%N; cbn -[Nat.sub firstn]; [reflexivity|].
  replace (S (length t) - length t) with 1 by lia. reflexivity.
Qed.

Lemma hd_error_app_cases {A} (l l' : list A) :
  hd_error (l ++ l')
  = match hd_error l with
    | Some a => Some a
    | None => hd_error l'
    end.
Proof. now destruct l. Qed.

Lemma spaces_in_front_cons (x : char) (t : str) :
  spaces_in_front (x :: t)
  = if is_space x then S (spaces_in_front t) else 0.
Proof.
  unfold spaces_in_front. rewrite after_spaces_cons.
  pose proof (after_spaces_length t).
  destruct (is_space x); change (length (x :: t)) with (S (length t)); lia.
Qed.

Lemma no_space_in_front (t : str) :
  spaces_in_front t = 0 -> after_spaces t = t.
Proof.
  destruct t as [|y t']; [reflexivity|].
  rewrite spaces_in_front_cons, after_spaces_cons.
  destruct (is_space y); [discriminate | reflexivity].
Qed.

(** The first way the group can follow the spaces. *)
Lemma hd_space_backoffs (s : str) :
  forall (count : N) (g : PyRe.groups),
  hd_error (flat_map any_char_group (space_backoffs count s g))
  = let n := spaces_in_front s in
    let last_space :=
      if (3 <=? count + N.of_nat n)%N && Nat.leb 1 n
      then Some (after_spaces s, (1, [32%N]) :: g)
      else None in
    if (2 <=? count + N.of_nat n)%N then
      match after_spaces s with
      | c :: r' =>
          if (c =? 10)%N then last_space else Some (r', (1, [c]) :: g)
      | [] => last_space
      end
    else None.
Proof.
  induction s as [|x t IH]; intros count g; cbv zeta.
  - cbn [space_backoffs after_spaces]. unfold spaces_in_front.
    cbn [after_spaces length Nat.sub N.of_nat Nat.leb]. rewrite N.add_0_r.
    rewrite andb_false_r.
    destruct (2 <=? count)%N; reflexivity.
  - cbn [space_backoffs]. rewrite spaces_in_front_cons, after_spaces_cons.
    unfold is_space. destruct (x =? 32)%N eqn:Hx.
    + apply N.eqb_eq in Hx. subst x.
      rewrite flat_map_app, hd_error_app_cases, IH. cbv zeta.
      replace (count + 1 + N.of_nat (spaces_in_front t))%N
        with (count + N.of_nat (S (spaces_in_front t)))%N by lia.
      cbn [Nat.leb]. rewrite andb_true_r.
      destruct (N.leb_spec 2 (count + N.of_nat (S (spaces_in_front t))))
        as [H2|H2].
      * assert (Hlast :
          match (if (3 <=? count + N.of_nat (S (spaces_in_front t)))%N
                    && Nat.leb 1 (spaces_in_front t)
                 then Some (after_spaces t, (1, [32%N]) :: g)
                 else None) with
          | Some a => Some a
          | None =>
              hd_error
                (flat_map any_char_group
                   (if (2 <=? count)%N then [(32%N :: t, g)] else []))
          end
          = if (3 <=? count + N.of_nat (S (spaces_in_front t)))%N
            then Some (after_spaces t, (1, [32%N]) :: g)
            else None).
        { destruct (N.leb_spec 3 (count + N.of_nat (S (spaces_in_front t))))
            as [H3|H3]; cbn [andb].
          - destruct (spaces_in_front t) as [|n] eqn:Hn; cbn [Nat.leb].
            + rewrite (no_space_in_front t Hn).
              destruct (N.leb_spec 2 count); [reflexivity | lia].
            + reflexivity.
          - destruct (N.leb_spec 2 count); [lia | reflexivity]. }
        destruct (after_spaces t) as [|c r'] eqn:Hr; [exact Hlast|].
        destruct (c =? 10)%N; [exact Hlast | reflexivity].
      * destruct (N.leb_spec 2 count); [lia | reflexivity].
    + rewrite N.add_0_r. cbn [Nat.leb]. rewrite andb_false_r.
      destruct (2 <=? count)%N; [|reflexivity].
      cbn [flat_map app]. rewrite app_nil_r. unfold any_char_group.
      cbn [fst snd]. destruct (x =? 10)%N; reflexivity.
Qed.

Lemma hd_ms_space_run_then_char (s : str) :
  hd_error (PyRe.ms space_run_then_char s [])
  = let n := spaces_in_front s in
    let last_space :=
      if Nat.leb 3 n then Some (after_spaces s, [(1, [32%N])]) else None in
    if Nat.leb 2 n then
      match after_spaces s with
      | c :: r' =>
          if (c =? 10)%N then last_space else Some (r', [(1, [c])])
      | [] => last_space
      end
    else None.
Proof.
  change (PyRe.ms space_run_then_char s [])
    with (flat_map
            (fun tg =>
               PyRe.ms (PyRe.Seq (PyRe.Grp 1 (PyRe.Seq PyRe.Any PyRe.Eps))
                          PyRe.Eps) (fst tg) (snd tg))
            (PyRe.rep_ms (PyRe.ms (PyRe.Chr 32%N)) 2 None
               (N.to_nat 2 + length s + 2) 0 None s [])).
  rewrite (flat_map_ext _ _ ms_any_char_group).
  rewrite rep_ms_space_backoffs; [| cbn; lia | discriminate].
  rewrite hd_space_backoffs. cbv zeta. rewrite !N.add_0_l.
  destruct (Nat.leb_spec 2 (spaces_in_front s)),
           (N.leb_spec 2 (N.of_nat (spaces_in_front s))); try lia;
    [|reflexivity].
  destruct (Nat.leb_spec 3 (spaces_in_front s)),
           (N.leb_spec 3 (N.of_nat (spaces_in_front s))); try lia;
    cbn [andb]; [|reflexivity].
  destruct (Nat.leb_spec 1 (spaces_in_front s)); [reflexivity | lia].
Qed.

Section Capitalize.
Variable upper : char -> str.

Lemma find_group_start (s : str) (k : nat) :
  match group_start upper s with
  | Some (more, out) =>
      S more <= length s
      /\ exists m, PyRe.find space_run_then_char s false k = Some m
           /\ m_skip m = k /\ m_len m = S more
           /\ capitalize_group upper m = Ok out
  | None =>
      PyRe.find space_run_then_char s false k
      = match s with
        | [] => None
        | _ :: s' => PyRe.find space_run_then_char s' false (S k)
        end
  end.
Proof.
  rewrite find_eq, first_ok_hd, hd_ms_space_run_then_char.
  unfold group_start. cbv zeta.
  pose proof (after_spaces_length s) as Hle.
  assert (Hn : spaces_in_front s = length s - length (after_spaces s))
    by reflexivity.
  assert (Hlast :
    Nat.leb 3 (spaces_in_front s) = true ->
    S (spaces_in_front s - 1) <= length s
    /\ exists m,
         Some {| m_skip := k;
                 m_len := length s - length (after_spaces s);
                 m_groups := [(1, [32%N])]
                             ++ [(0, firstn (length s - length (after_spaces s)) s)] |}
         = Some m
         /\ m_skip m = k /\ m_len m = S (spaces_in_front s - 1)
         /\ capitalize_group upper m
            = Ok ([32; 32; 32; 32]%N ++ upper 32%N)).
  { intros H3. apply Nat.leb_le in H3. split; [lia|].
    eexists. split; [reflexivity|]. cbn [m_skip m_len].
    repeat split; [lia|].
    unfold capitalize_group, group. cbn [m_groups app lookup_group Nat.eqb].
    cbn [flat_map]. now rewrite app_nil_r. }
  destruct (Nat.leb 2 (spaces_in_front s)) eqn:H2; [|reflexivity].
  apply Nat.leb_le in H2.
  destruct (after_spaces s) as [|c r'] eqn:Hr.
  - destruct (Nat.leb 3 (spaces_in_front s)); [|reflexivity].
    now apply Hlast.
  - destruct (c =? 10)%N.
    + destruct (Nat.leb 3 (spaces_in_front s)); [|reflexivity].
      now apply Hlast.
    + cbn [length] in *. split; [lia|].
      eexists. split; [reflexivity|]. cbn [m_skip m_len fst].
      repeat split; [lia|].
      unfold capitalize_group, group.
      cbn [m_groups snd app lookup_group Nat.eqb flat_map].
      now rewrite app_nil_r.
Qed.

(** Lines 129-130, and line 132. *)
Lemma capitalization_widen (capitalize : bool) (s : str) :
  capitalization upper capitalize s = Ok (widen_spaces upper capitalize s).
Proof.
  unfold capitalization, widen_spaces. destruct capitalize.
  - unfold re_sub_fn. cbn [re_compile PyRe.engine].
    change (PyRe.compile (u " {2,}(.)")) with (Ok (space_run_then_char, 1)).
    cbn [bind].
    replace (match s with c :: t => upper c ++ t | [] => s end)
      with (upper_first upper s) by now destruct s.
    apply sub_loop_rewrite_scan; [apply find_group_start|].
    unfold sub_fuel. lia.
  - unfold re_sub. cbn [re_compile re_template PyRe.engine].
    change (PyRe.compile (u " {2,}")) with (Ok (space_run, 0)).
    cbn [bind snd].
    change (PyRe.parse_template 0 (u "    "))
      with (Ok [TLit [32%N]; TLit [32%N]; TLit [32%N]; TLit [32%N]]).
    cbn [bind]. apply sub_loop_space_run. unfold sub_fuel. lia.
Qed.

Lemma tshek_replaced (s : str) :
  replace (u "་") (u " ") s = tshek_to_space s.
Proof.
  change (u "་") with [tshek]. change (u " ") with [32%N].
  rewrite replace_char. unfold tshek_to_space. apply map_ext.
  intros c. now rewrite N.eqb_sym.
Qed.

Lemma anusvara_style_glyph (anusvara_style s : str) :
  apply_anusvara_style anusvara_style s = style_glyph anusvara_style s.
Proof.
  unfold apply_anusvara_style, style_glyph.
  change (u "ṁ") with [7745%N]. change (u "ṃ") with [7747%N].
  destruct (eqb_str anusvara_style [7745%N]); [|reflexivity].
  rewrite replace_char. apply map_ext. intros c. now rewrite N.eqb_sym.
Qed.

(** Lines 118-138 as a function on lists. *)
Lemma finish_on_lists (capitalize : bool) (anusvara_style s : str) :
  finish upper capitalize anusvara_style s
  = Ok (strip
          (style_glyph anusvara_style
             (widen_spaces upper capitalize
                (drop_a dominates_a
                   (drop_placeholder (tshek_to_space s)))))).
Proof.
  unfold finish. rewrite tshek_replaced, placeholder_sub. cbn [bind].
  rewrite vowel_cleanup_dominates. cbn [bind].
  rewrite capitalization_widen. cbn [bind].
  now rewrite anusvara_style_glyph.
Qed.

End Capitalize.

(* ================================================================== *)
(** * The claims *)
(* ================================================================== *)

(** ** Concrete scenarios *)

Ltac run_model := vm_compute; reflexivity.

(** C1, as stated, does not hold: with the single rule སརྦ -> "sarva" and a
    normalizer that changes nothing, phonetics mode does not give
    "sarva nam" for "སརྦ་ནཱཾ". *)
Lemma nam_suffix_not_spaced :
  run [mk "སརྦ" "sarva" "sarva"] (u "སརྦ་ནཱཾ") (u "phonetics") false (u "ṃ")
  <> Ok (u "sarva nam").
Proof. vm_compute. discriminate. Qed.

(** C1, amended: for the engine whose rule list is one rule with pattern
    "སརྦ" whose phonetics-mode replacement is "sarva", and a normalizer that
    returns the input unchanged, transliterate("སརྦ་ནཱཾ", phonetics) returns
    "sarvanam": the space that the boundary rule leaves before the
    placeholder is removed with it. *)
Theorem nam_suffix_joined_to_word
    (normalize_tibetan : str -> bool -> str) (normalize_iast : str -> str)
    (normalize_iast_none : outcome value) (upper : char -> str)
    (word : rule) :
  normalize_tibetan (u "སརྦ་ནཱཾ") true = u "སརྦ་ནཱཾ" ->
  tibetan word = Some (u "སརྦ") ->
  replacement_for normalize_iast normalize_iast_none (u "phonetics") word
  = Ok (Some (u "sarva")) ->
  transliterate_rules PyRe.engine normalize_tibetan normalize_iast
    normalize_iast_none upper [word] (u "སརྦ་ནཱཾ") (u "phonetics") false
    (u "ṃ")
  = Ok (u "sarvanam").
Proof.
  intros Hn Hp Hr. unfold transliterate_rules. rewrite Hn.
  cbn [rule_loop]. unfold rule_step. rewrite Hp, Hr. run_model.
Qed.

Lemma nam_suffix_joined_to_word_witness :
  transliterate_rules PyRe.engine normalize_id (fun s => s) none_raises
    upper_ascii [mk "སརྦ" "sarvā" "sarva"] (u "སརྦ་ནཱཾ") (u "phonetics") false
    (u "ṃ")
  = Ok (u "sarvanam").
Proof.
  apply nam_suffix_joined_to_word; reflexivity.
Defined.

(** C2: for the engine whose rule list is the single rule
    བཛྲ -> "vajra" (no phonetics) and a normalizer that returns the input
    unchanged, transliterate("བཛྲ་", iast, capitalize=False, 'ṃ') returns
    "vajra": the boundary sub-step of lines 83-92 rewrites the pattern and
    the tshek after it to the replacement and a space, so that the loop
    leaves "vajra " with no tshek, and the space is trimmed.  The same holds
    with a shad or one of its two variants in place of the tshek, which no
    other step removes. *)
Theorem vajra_before_tshek
    (normalize_tibetan : str -> bool -> str) (normalize_iast : str -> str)
    (normalize_iast_none : outcome value) (upper : char -> str) :
  normalize_tibetan (u "བཛྲ་") true = u "བཛྲ་" ->
  transliterate_rules PyRe.engine normalize_tibetan normalize_iast
    normalize_iast_none upper [mk "བཛྲ" "vajra" ""] (u "བཛྲ་") (u "iast")
    false (u "ṃ")
  = Ok (u "vajra")
  /\ inherent_a_step PyRe.engine (u "iast") (u "བཛྲ") (u "vajra") (u "བཛྲ་")
     = Ok (u "vajra ")
  /\ rule_loop PyRe.engine normalize_iast normalize_iast_none (u "iast")
       [mk "བཛྲ" "vajra" ""] (u "བཛྲ་")
     = Ok (u "vajra ")
  /\ forall marker,
       In marker (u "་།༑༔") ->
       normalize_tibetan (u "བཛྲ" ++ [marker]) true = u "བཛྲ" ++ [marker] ->
       rule_loop PyRe.engine normalize_iast normalize_iast_none (u "iast")
         [mk "བཛྲ" "vajra" ""] (u "བཛྲ" ++ [marker])
       = Ok (u "vajra ")
       /\ transliterate_rules PyRe.engine normalize_tibetan normalize_iast
            normalize_iast_none upper [mk "བཛྲ" "vajra" ""]
            (u "བཛྲ" ++ [marker]) (u "iast") false (u "ṃ")
          = Ok (u "vajra").
Proof.
  intros Hn. split; [|split; [|split]].
  - unfold transliterate_rules. rewrite Hn. run_model.
  - run_model.
  - run_model.
  - intros marker Hin Hm. split.
    + destruct Hin as [<-|[<-|[<-|[<-|[]]]]]; run_model.
    + unfold transliterate_rules. rewrite Hm.
      destruct Hin as [<-|[<-|[<-|[<-|[]]]]]; run_model.
Qed.

Lemma vajra_before_tshek_witness :
  transliterate_rules PyRe.engine normalize_id (fun s => s) none_raises
    upper_ascii [mk "བཛྲ" "vajra" ""] (u "བཛྲ་") (u "iast") false (u "ṃ")
  = Ok (u "vajra").
Proof.
  exact (proj1 (vajra_before_tshek normalize_id (fun s => s) none_raises
                  upper_ascii eq_refl)).
Defined.

(** Without the boundary sub-step a shad would stay in the output: the
    general replacement alone leaves it where it is. *)
Example general_step_keeps_shad :
  general_step PyRe.engine (u "བཛྲ") (u "vajra") (u "བཛྲ།") = Ok (u "vajra།").
Proof. run_model. Qed.

(** The other scenarios of the specification, on the model. *)
Example scenario_om :
  run [mk "ཨོཾ" "oṃ" "om"] (u "ཨོཾ") (u "iast") false (u "ṃ") = Ok (u "oṃ").
Proof. run_model. Qed.

Example scenario_visarga :
  run [mk "བཛྲ" "vajra" ""] (u "བཛྲཿ") (u "iast") false (u "ṃ")
  = Ok (u "vajraḥ").
Proof. run_model. Qed.

Example scenario_om_dot_above :
  run [mk "ཨོཾ" "oṃ" "om"] (u "ཨོཾ") (u "iast") false (u "ṁ") = Ok (u "oṁ").
Proof. run_model. Qed.

(** ** The double-vowel fix (C4) *)

(** C4, as stated, does not hold: on "aaā" the fix gives "aā", and on that
    it gives "ā". *)
Lemma vowel_cleanup_not_idempotent :
  (r <- vowel_cleanup (u "aaā") ;; vowel_cleanup r) <> vowel_cleanup (u "aaā").
Proof. vm_compute. discriminate. Qed.

(** C4, amended: the vowel-collision cleanup is idempotent on every string
    in which no two 'a' in a row stand immediately before one of
    ā ī ū ṛ ṝ ḷ ḹ ṃ ṁ: applying it to its own output changes nothing. *)
Theorem vowel_cleanup_idempotent (s : str) :
  no_aa_before dominates_a s = true ->
  exists r, vowel_cleanup s = Ok r /\ vowel_cleanup r = Ok r.
Proof.
  intros H. exists (drop_a dominates_a s). rewrite !vowel_cleanup_dominates.
  split; [reflexivity|]. f_equal. now apply drop_a_idempotent.
Qed.

Lemma vowel_cleanup_idempotent_witness :
  exists r, vowel_cleanup (u "vajraā saṃ") = Ok r /\ vowel_cleanup r = Ok r.
Proof.
  apply vowel_cleanup_idempotent. vm_compute. reflexivity.
Defined.

(** ** Properties for every rule list *)

Section Engine.
Variable E : Re.engine.
Variable normalize_tibetan : str -> bool -> str.
Variable normalize_iast : str -> str.
Variable normalize_iast_none : outcome value.
Variable upper : char -> str.

Local Abbreviation transliterate_rules' :=
  (transliterate_rules E normalize_tibetan normalize_iast normalize_iast_none
     upper).
Local Abbreviation rule_loop' :=
  (rule_loop E normalize_iast normalize_iast_none).
Local Abbreviation rule_inert' :=
  (rule_inert E normalize_iast normalize_iast_none).

(** A rule none of whose expressions is found leaves the text alone. *)
Lemma rule_step_inert (mode : str) (word : rule) (s : str) :
  rule_inert' mode word s = true ->
  rule_step E normalize_iast normalize_iast_none mode word s = Ok s.
Proof.
  unfold rule_inert, rule_step.
  destruct (replacement_for normalize_iast normalize_iast_none mode word)
    as [replacement|]; [|discriminate].
  cbn [bind].
  destruct (tibetan word) as [[|c pattern]|]; try reflexivity.
  destruct replacement as [replacement|]; [|discriminate].
  unfold rule_subs, replacement_subs. cbn [forallb fst snd].
  intros H. apply andb_prop in H as [H Hlit].
  repeat (apply andb_prop in H as [?H H]).
  apply negb_true_iff in Hlit.
  unfold nam_step, inherent_a_step, general_step.
  repeat match goal with
         | Hs : sub_silent _ _ _ _ = true |- _ =>
             apply sub_silent_cases in Hs; destruct Hs as [Hs|Hs]
         end;
    destruct (endswith (u "a") _);
    repeat (match goal with
            | Hs : re_sub _ _ _ _ = _ |- _ => rewrite Hs
            end; cbn [bind try_except_re]);
    try reflexivity;
    rewrite replace_absent by (assumption || discriminate); reflexivity.
Qed.

Lemma rule_loop_inert (mode : str) (rules : list rule) (s : str) :
  forallb (fun word => rule_inert' mode word s) rules = true ->
  rule_loop' mode rules s = Ok s.
Proof.
  induction rules as [|word rules IH]; [reflexivity|]. cbn [forallb rule_loop].
  intros H. apply andb_prop in H as [H1 H2].
  rewrite rule_step_inert by exact H1. cbn [bind]. now apply IH.
Qed.

(** C3, amended: for every input in which no rule's pattern occurs (the
    replacement of every rule is computed without an exception and, for a
    rule with a pattern, is a string; none of the expressions the loop
    assembles from a rule matches the normalized input, and no pattern is a
    substring of it), transliterate returns the normalized input changed by
    these steps, in this order, and by nothing else: every tshek becomes a
    space; every "^^^", found from left to right without overlap, is
    deleted, with the space directly before it when there is one; every 'a'
    directly before one of ā ī ū ṛ ṝ ḷ ḹ ṃ ṁ is deleted; without
    capitalize, every maximal run of two or more spaces becomes four spaces; with capitalize, the first character is
    upper-cased, and two or more spaces with the character after them become
    four spaces and that character upper-cased, where the character is any
    but a line feed (before a line feed or the end of the text the last
    of three or more spaces is taken for the character, and two spaces are
    left as they are); with the style 'ṁ' every 'ṃ' becomes 'ṁ'; leading and
    trailing white space is stripped. *)
Theorem no_match_leaves_last_steps (rules : list rule) (text mode : str)
    (capitalize : bool) (anusvara_style : str) :
  forallb (fun word => rule_inert' mode word (normalize_tibetan text true))
          rules = true ->
  transliterate_rules' rules text mode capitalize anusvara_style
  = Ok (strip
          (style_glyph anusvara_style
             (widen_spaces upper capitalize
                (drop_a dominates_a
                   (drop_placeholder
                      (tshek_to_space (normalize_tibetan text true))))))).
Proof.
  intros H. unfold transliterate_rules.
  rewrite rule_loop_inert by exact H. cbn [bind]. apply finish_on_lists.
Qed.

(** C5: for every input, mode and capitalize flag, the output with
    anusvara_style='ṁ' is the output with anusvara_style='ṃ' in which every
    'ṃ' is replaced by 'ṁ', and nothing else differs. *)
Theorem anusvara_style_only_swaps_glyph (rules : list rule) (text mode : str)
    (capitalize : bool) :
  transliterate_rules' rules text mode capitalize (u "ṁ")
  = omap (replace (u "ṃ") (u "ṁ"))
      (transliterate_rules' rules text mode capitalize (u "ṃ")).
Proof.
  unfold transliterate_rules.
  destruct (rule_loop E normalize_iast normalize_iast_none mode rules _)
    as [replaced|e]; [|reflexivity].
  cbn [bind]. unfold finish.
  destruct (re_sub PyRe.engine (u " ?\^\^\^") (u "") _) as [r1|]; [|reflexivity].
  cbn [bind]. destruct (vowel_cleanup r1) as [r2|]; [|reflexivity].
  cbn [bind]. destruct (capitalization upper capitalize r2) as [r3|];
    [|reflexivity].
  cbn [bind omap]. f_equal.
  change (apply_anusvara_style (u "ṁ") r3) with (replace (u "ṃ") (u "ṁ") r3).
  change (apply_anusvara_style (u "ṃ") r3) with r3.
  apply strip_anusvara.
Qed.

(** C10: for every rule list and every input, the string that transliterate
    returns contains no tshek, whatever the loop left in the working
    string, given that upper-casing a character other than the tshek never
    yields one. *)
Theorem transliterate_no_tshek (rules : list rule) (text mode : str)
    (capitalize : bool) (anusvara_style out : str) :
  (forall c, c <> tshek -> ~ In tshek (upper c)) ->
  transliterate_rules' rules text mode capitalize anusvara_style = Ok out ->
  ~ In tshek out.
Proof.
  intros Hup. unfold transliterate_rules.
  destruct (rule_loop E normalize_iast normalize_iast_none mode rules _)
    as [replaced|e]; [|discriminate].
  cbn [bind]. intros H Hin.
  apply finish_no_tshek in H.
  - rewrite Forall_forall in H. now apply (H tshek).
  - intros c Hc. apply Forall_forall. intros x Hx Heq. subst x.
    now apply (Hup c).
Qed.

End Engine.

Lemma no_match_leaves_last_steps_witness :
  transliterate_rules PyRe.engine normalize_id (fun s => s) none_raises
    upper_ascii [mk "བཛྲ" "vajra" ""; mk "(" "ka" ""] (u "kaā་་ṃ^^^ ^^^   ")
    (u "iast") true (u "ṁ")
  = Ok (u "Kā    ṁ").
Proof.
  rewrite (no_match_leaves_last_steps PyRe.engine normalize_id (fun s => s)
             none_raises upper_ascii);
    vm_compute; reflexivity.
Defined.

(** C3, as stated, does not hold: no pattern of the rule occurs in "ཀ་་ཁ",
    and the output is not the input with its tsheks made spaces and
    trimmed, because the two spaces become four. *)
Lemma no_match_not_only_tshek :
  rule_inert PyRe.engine (fun s => s) none_raises (u "iast")
    (mk "བཛྲ" "vajra" "") (normalize_id (u "ཀ་་ཁ") true) = true
  /\ run [mk "བཛྲ" "vajra" ""] (u "ཀ་་ཁ") (u "iast") false (u "ṃ")
     <> Ok (strip (replace (u "་") (u " ") (normalize_id (u "ཀ་་ཁ") true))).
Proof. split; [vm_compute; reflexivity | vm_compute; discriminate]. Qed.

Lemma transliterate_no_tshek_witness :
  ~ In tshek (u "vajra    ནཱཾ").
Proof.
  apply (transliterate_no_tshek PyRe.engine normalize_id (fun s => s)
           none_raises upper_ascii [mk "བཛྲ" "vajra" ""] (u "བཛྲ་་་ནཱཾ") (u "iast") false
           (u "ṃ")).
  - intros c Hne. unfold upper_ascii.
    destruct ((97 <=? c) && (c <=? 122))%N eqn:Hc.
    + apply andb_prop in Hc as [_ Hc]. apply N.leb_le in Hc.
      intros [H|[]]. unfold tshek in H. lia.
    + intros [H|[]]. now apply Hne.
  - vm_compute. reflexivity.
Defined.

(** ** Patterns that do not compile (C7) *)

Section BadPatterns.
Variable E : Re.engine.
Variable normalize_tibetan : str -> bool -> str.
Variable normalize_iast : str -> str.
Variable normalize_iast_none : outcome value.
Variable upper : char -> str.

Lemma try_sub_ok (pattern template s h : str) :
  sub_only_re_error E pattern template = true ->
  exists o, try_except_re (re_sub E pattern template s) (Ok h) = Ok o.
Proof.
  intros H.
  destruct (sub_only_re_error_cases E pattern template s H) as [[o Ho]|Ho];
    rewrite Ho; cbn; eauto.
Qed.

Lemma compile_error_sub (pattern template s : str) :
  re_compile E pattern = Raise ReError ->
  re_sub E pattern template s = Raise ReError.
Proof. intros H. unfold re_sub. now rewrite H. Qed.

Lemma rule_step_ok (mode : str) (word : rule) (s : str) :
  rule_has_replacement normalize_iast normalize_iast_none mode word = true ->
  rule_only_re_errors E normalize_iast normalize_iast_none mode word = true ->
  exists o, rule_step E normalize_iast normalize_iast_none mode word s = Ok o.
Proof.
  unfold rule_has_replacement, rule_only_re_errors, rule_step.
  destruct (replacement_for normalize_iast normalize_iast_none mode word)
    as [replacement|]; [|discriminate].
  cbn [bind].
  destruct (tibetan word) as [[|c pattern]|]; [eauto| |eauto].
  destruct replacement as [replacement|]; [|discriminate]. intros _.
  unfold rule_subs, replacement_subs. cbn [forallb fst snd].
  intros H. repeat (apply andb_prop in H as [?H H]). clear H.
  unfold nam_step, inherent_a_step, general_step.
  destruct (try_sub_ok _ _ s s H0) as [r1 Hr1]. rewrite Hr1. cbn [bind].
  assert (Ha : exists r2,
             inherent_a_step E mode (c :: pattern) replacement r1 = Ok r2).
  { unfold inherent_a_step. destruct (endswith (u "a") _); [|eauto].
    destruct (sub_only_re_error_cases E _ _ r1 H1) as [[o1 Ho1]|Ho1];
      rewrite Ho1; cbn [bind try_except_re]; [|eauto].
    destruct (sub_only_re_error_cases E _ _ o1 H2) as [[o2 Ho2]|Ho2];
      rewrite Ho2; cbn [bind try_except_re]; [|eauto].
    destruct (try_sub_ok _ _ o2 o2 H3) as [o3 Ho3]. rewrite Ho3. cbn. eauto. }
  destruct Ha as [r2 Hr2]. unfold inherent_a_step in Hr2. rewrite Hr2.
  cbn [bind]. apply try_sub_ok. exact H4.
Qed.

Lemma rule_loop_ok (mode : str) (rules : list rule) :
  forallb (rule_has_replacement normalize_iast normalize_iast_none mode)
          rules = true ->
  forallb (rule_only_re_errors E normalize_iast normalize_iast_none mode)
          rules = true ->
  forall s,
  exists o, rule_loop E normalize_iast normalize_iast_none mode rules s = Ok o.
Proof.
  induction rules as [|word rules IH]; cbn [forallb rule_loop]; [eauto|].
  intros Hr H s. apply andb_prop in Hr as [Hr1 Hr2].
  apply andb_prop in H as [H1 H2].
  destruct (rule_step_ok mode word s Hr1 H1) as [r Hr]. rewrite Hr.
  cbn [bind]. now apply IH.
Qed.

(** C7, amended: for every rule list in which every rule has a replacement
    (computing it does not raise, and for a rule with a pattern it is a
    string, not [None]) and on whose patterns and templates [re] raises
    nothing but re.error, and for every input, transliterate returns a
    string; each sub-step is guarded on its own: when the expression
    assembled for the suffix sub-step does not compile that sub-step is
    skipped, when the one for the boundary sub-step does not compile the
    inherent-vowel sub-steps are skipped, and when the pattern itself does
    not compile the general step replaces it as a literal substring. *)
Theorem bad_patterns_tolerated (rules : list rule) (text mode : str)
    (capitalize : bool) (anusvara_style : str) :
  forallb (rule_has_replacement normalize_iast normalize_iast_none mode)
          rules = true ->
  forallb (rule_only_re_errors E normalize_iast normalize_iast_none mode)
          rules = true ->
  (exists out,
     transliterate_rules E normalize_tibetan normalize_iast
       normalize_iast_none upper rules text mode capitalize anusvara_style
     = Ok out)
  /\ (forall pattern replaced,
        re_compile E (nam_pattern pattern) = Raise ReError ->
        nam_step E mode pattern replaced = Ok replaced)
  /\ (forall pattern replacement replaced,
        re_compile E (boundary_pattern pattern) = Raise ReError ->
        inherent_a_step E mode pattern replacement replaced = Ok replaced)
  /\ (forall pattern replacement replaced,
        re_compile E pattern = Raise ReError ->
        general_step E pattern replacement replaced
        = Ok (replace pattern replacement replaced)).
Proof.
  intros Hr H. split; [|split; [|split]].
  - unfold transliterate_rules.
    destruct (rule_loop_ok mode rules Hr H (normalize_tibetan text true))
      as [r Hl].
    rewrite Hl. cbn [bind]. apply finish_ok.
  - intros pattern replaced Hc. unfold nam_step.
    now rewrite compile_error_sub.
  - intros pattern replacement replaced Hc. unfold inherent_a_step.
    destruct (endswith (u "a") replacement); [|reflexivity].
    now rewrite compile_error_sub.
  - intros pattern replacement replaced Hc. unfold general_step.
    now rewrite compile_error_sub.
Qed.

End BadPatterns.

Lemma bad_patterns_tolerated_witness :
  exists out,
    run [mk ")(" "x" ""; mk "[" "ka" ""; mk "བཛྲ" "vajra" ""; mk_short ""]
      (u "བཛྲ་ཀ་ནཱཾ") (u "iast") true (u "ṃ") = Ok out.
Proof.
  apply (bad_patterns_tolerated PyRe.engine normalize_id (fun s => s)
           none_raises upper_ascii);
    vm_compute; reflexivity.
Defined.

(** C7, as stated, does not hold: the pattern ")(" does not compile, and the
    rule is not skipped for the suffix sub-step, because the expression
    assembled around it (an empty group, then a second group) does compile:
    on "ཀ་ནཱཾ" the loop body does not do what skipping the sub-steps and
    replacing the literal pattern would. *)
Lemma bad_pattern_suffix_not_skipped :
  re_compile PyRe.engine (u ")(") = Raise ReError
  /\ rule_step PyRe.engine (fun s => s) none_raises (u "iast")
       (mk ")(" "x" "") (u "ཀ་ནཱཾ")
     <> rule_step_skipping PyRe.engine (fun s => s) none_raises (u "iast")
          (mk ")(" "x" "") (u "ཀ་ནཱཾ").
Proof. split; [vm_compute; reflexivity | vm_compute; discriminate]. Qed.

(** What the amended C7 leaves out.  A repeat count of [MAXREPEAT] or more
    makes [re] raise [OverflowError], which the source does not catch. *)
Example overflow_not_caught :
  run [mk "a{4294967295}" "x" ""] (u "ཀ") (u "iast") false (u "ṃ")
  = Raise OverflowError.
Proof. run_model. Qed.

(** And a rule whose transliteration is [None], which the loader builds from
    a record with one field: [replacement.endswith] raises [AttributeError]
    outside every [try], whether the pattern occurs in the text or not. *)
Example missing_transliteration_raises :
  run [mk_short "ཀ"] (u "ཁ") (u "iast") false (u "ṃ") = Raise AttributeError.
Proof. run_model. Qed.

Example bad_pattern_run :
  run [mk ")(" "x" ""] (u "ཀ་ནཱཾ") (u "iast") false (u "ṃ") = Ok (u "nāṃ").
Proof. run_model. Qed.

(** ** The engine object and the cached instance (C6, C8, C9) *)

Section Objects.
Variable E : Re.engine.
Variable normalize_tibetan : str -> bool -> str.
Variable normalize_tibetan_none : outcome value.
Variable normalize_iast : str -> str.
Variable normalize_iast_none : outcome value.
Variable upper : char -> str.
Variable read_csv : csv_file -> outcome csv_reading.

Local Abbreviation method :=
  (method_transliterate E normalize_tibetan normalize_iast normalize_iast_none
     upper).
Local Abbreviation get :=
  (get_transliterator normalize_tibetan normalize_tibetan_none read_csv).
Local Abbreviation new :=
  (new_transliterator normalize_tibetan normalize_tibetan_none read_csv).
Local Abbreviation init :=
  (__init__ normalize_tibetan normalize_tibetan_none read_csv).
Local Abbreviation client :=
  (run_calls E normalize_tibetan normalize_tibetan_none normalize_iast
     normalize_iast_none upper read_csv).

(** No round of the loop touches the process: the loop computes what
    [rule_loop] computes from the rules it was given. *)
Lemma for_each_rule_reads (mode : str) (rules : list rule) :
  forall (s : str) (w : world),
  for_each_rule E normalize_iast normalize_iast_none mode rules s w
  = (rule_loop E normalize_iast normalize_iast_none mode rules s, w).
Proof.
  induction rules as [|word rules IH]; intros s w; [reflexivity|].
  cbn [for_each_rule rule_loop]. unfold bind_m, lift.
  destruct (rule_step E normalize_iast normalize_iast_none mode word s);
    cbn [bind]; [apply IH | reflexivity].
Qed.

(** The method only reads the object. *)
Lemma method_reads (self : nat) (text mode : str) (capitalize : bool)
    (anusvara_style : str) (w : world) :
  method self text mode capitalize anusvara_style w
  = (match nth_error (heap w) self with
     | Some t =>
         transliterate_rules E normalize_tibetan normalize_iast
           normalize_iast_none upper (replacements t) text mode capitalize
           anusvara_style
     | None => Raise AttributeError
     end, w).
Proof.
  unfold method_transliterate, bind_m, read_replacements.
  destruct (nth_error (heap w) self) as [t|]; [|reflexivity].
  rewrite for_each_rule_reads. unfold transliterate_rules, lift.
  now destruct (rule_loop E normalize_iast normalize_iast_none mode
                  (replacements t) (normalize_tibetan text true)).
Qed.

(** What a construction does to the process. *)
Lemma new_transliterator_cases (csv_path : option str) (w : world) :
  (exists t,
     init csv_path = Ok t
     /\ new csv_path w
        = (Ok (length (heap w)),
           {| heap := heap w ++ [t];
              _default_transliterator := _default_transliterator w |}))
  \/ (exists e, init csv_path = Raise e /\ new csv_path w = (Raise e, w)).
Proof.
  unfold new_transliterator.
  destruct (init csv_path) as [t|e]; [left | right]; eauto.
Qed.

Lemma nth_error_grown {A} (l l' : list A) (i : nat) (a : A) :
  nth_error l i = Some a -> nth_error (l ++ l') i = Some a.
Proof.
  intros H. rewrite nth_error_app1; [exact H|].
  apply nth_error_Some. congruence.
Qed.

(** No call of the module changes an object that is there. *)
Lemma run_call_keeps_objects (c : api_call) (w : world) (i : nat)
    (t : TibetanSanskritTransliterator) :
  nth_error (heap w) i = Some t ->
  nth_error
    (heap (run_call E normalize_tibetan normalize_tibetan_none normalize_iast
             normalize_iast_none upper read_csv c w)) i
  = Some t.
Proof.
  intros H. destruct c as [p|self tx md cp st|tx md cp st p|p];
    cbn [run_call].
  - destruct (new_transliterator_cases p w) as [(t' & _ & ->)|(e & _ & ->)];
      cbn [snd heap]; [now apply nth_error_grown | exact H].
  - rewrite method_reads. exact H.
  - unfold transliterate.
    destruct (new_transliterator_cases p w) as [(t' & _ & ->)|(e & _ & ->)];
      [|exact H].
    rewrite method_reads. cbn [snd heap]. now apply nth_error_grown.
  - unfold get_transliterator.
    destruct (_default_transliterator w); [exact H|].
    destruct (new_transliterator_cases p w) as [(t' & _ & ->)|(e & _ & ->)];
      cbn [snd heap]; [now apply nth_error_grown | exact H].
Qed.

Lemma run_calls_keep_objects (calls : list api_call) :
  forall (w : world) (i : nat) (t : TibetanSanskritTransliterator),
  nth_error (heap w) i = Some t ->
  nth_error (heap (client calls w)) i = Some t.
Proof.
  induction calls as [|c calls IH]; intros w i t H; [exact H|].
  cbn [run_calls fold_left]. apply IH. now apply run_call_keeps_objects.
Qed.

(** C9: a call to transliterate does not change engine state: whether it
    returns or raises, the process after the call is the process before
    it, so that every engine holds the rule list it held, with every rule's
    three fields and their order (lines 34-138 assign to no attribute and
    to no entry of [self.replacements]). *)
Theorem transliterate_preserves_engine (self : nat) (text mode : str)
    (capitalize : bool) (anusvara_style : str) (w : world) :
  snd (method self text mode capitalize anusvara_style w) = w.
Proof.
  unfold method_transliterate, bind_m, read_replacements.
  destruct (nth_error (heap w) self) as [t|]; [|reflexivity].
  rewrite for_each_rule_reads.
  now destruct (rule_loop E normalize_iast normalize_iast_none mode
                  (replacements t) (normalize_tibetan text true)).
Qed.

(** C6: transliterate is deterministic: what a call returns (or raises) is
    determined by the rule list of the engine and the arguments.  Two
    engines with the same rule list return the same on the same arguments,
    in whatever state the process is; and a second call on the same engine
    returns what the first returned, whatever calls of the module
    (constructions, transliterations on any engine, the convenience
    function, get_transliterator) were made on the process in between. *)
Theorem transliterate_deterministic (self1 self2 : nat) (text mode : str)
    (capitalize : bool) (anusvara_style : str) (w1 w2 : world)
    (t1 t2 : TibetanSanskritTransliterator) (calls : list api_call) :
  nth_error (heap w1) self1 = Some t1 ->
  nth_error (heap w2) self2 = Some t2 ->
  replacements t1 = replacements t2 ->
  fst (method self1 text mode capitalize anusvara_style w1)
  = fst (method self2 text mode capitalize anusvara_style w2)
  /\ fst (method self1 text mode capitalize anusvara_style
            (client calls
               (snd (method self1 text mode capitalize anusvara_style w1))))
     = fst (method self1 text mode capitalize anusvara_style w1).
Proof.
  intros H1 H2 Hr. split.
  - rewrite !method_reads. cbn [fst]. now rewrite H1, H2, Hr.
  - rewrite (method_reads self1 _ _ _ _ w1). cbn [fst snd].
    rewrite method_reads. cbn [fst].
    now rewrite (run_calls_keep_objects calls w1 self1 t1 H1), H1.
Qed.

(** C8: once get_transliterator has returned the cached engine, every later
    call returns that same object and changes nothing, whatever csv_path it
    is given. *)
Theorem get_transliterator_cached (csv_path0 : option str) (w0 w1 : world)
    (r : nat) :
  get csv_path0 w0 = (Ok r, w1) ->
  _default_transliterator w1 = Some r
  /\ forall (w : world) (csv_path : option str),
       _default_transliterator w = Some r ->
       get csv_path w = (Ok r, w).
Proof.
  intros H. split.
  - unfold get_transliterator in H.
    destruct (_default_transliterator w0) as [r0|] eqn:Hd.
    + injection H as <- <-. exact Hd.
    + destruct (new csv_path0 w0) as [[r1|e] w'']; [|discriminate].
      now injection H as <- <-.
  - intros w csv_path Hw. unfold get_transliterator. now rewrite Hw.
Qed.

End Objects.

Lemma transliterate_deterministic_witness :
  let vajra := {| replacements := [mk "བཛྲ" "vajra" ""] |} in
  let w1 := {| heap := [vajra]; _default_transliterator := None |} in
  let w2 := {| heap := [ {| replacements := [] |}; vajra ];
               _default_transliterator := Some 0 |} in
  let call self :=
    method_transliterate PyRe.engine normalize_id (fun s => s) none_raises
      upper_ascii self (u "བཛྲ་") (u "iast") false (u "ṃ") in
  let between :=
    run_calls PyRe.engine normalize_id none_raises (fun s => s) none_raises
      upper_ascii one_row_file
      [CallGetTransliterator None;
       CallTransliterate (u "ཀ") (u "phonetics") true (u "ṁ") None;
       CallMethod 1 (u "བཛྲཿ") (u "iast") false (u "ṃ");
       CallConstructor (Some (u "mine.csv"))] in
  fst (call 0 w1) = fst (call 1 w2)
  /\ fst (call 0 (between (snd (call 0 w1)))) = fst (call 0 w1).
Proof.
  intros vajra w1 w2 call between.
  apply (transliterate_deterministic PyRe.engine normalize_id none_raises
           (fun s => s) none_raises upper_ascii one_row_file 0 1 _ _ _ _ w1
           w2 vajra vajra);
    reflexivity.
Defined.

Lemma get_transliterator_cached_witness :
  let w1 := snd (get_transliterator normalize_id none_raises one_row_file None
                   empty_world) in
  _default_transliterator w1 = Some 0
  /\ forall (w : world) (csv_path : option str),
       _default_transliterator w = Some 0 ->
       get_transliterator normalize_id none_raises one_row_file csv_path w
       = (Ok 0, w).
Proof.
  apply (get_transliterator_cached normalize_id none_raises one_row_file None
           empty_world).
  vm_compute. reflexivity.
Defined.

(** The cached engine ignores a later path: the second call names a file,
    and the object returned is still the one built from the bundled data. *)
Example cached_ignores_path :
  let w1 := snd (get_transliterator normalize_id none_raises one_row_file None
                   empty_world) in
  get_transliterator normalize_id none_raises no_file (Some (u "other.csv")) w1
  = (Ok 0, w1).
Proof. vm_compute. reflexivity. Qed.

(* ================================================================== *)
(** * Further properties of the code *)
(* ================================================================== *)

(** ** The method: modes, styles and exceptions *)

Section Method.
Variable E : Re.engine.
Variable normalize_tibetan : str -> bool -> str.
Variable normalize_iast : str -> str.
Variable normalize_iast_none : outcome value.
Variable upper : char -> str.

Local Abbreviation call :=
  (transliterate_rules E normalize_tibetan normalize_iast normalize_iast_none
     upper).

(** X1: the string transliterate returns never starts or ends with white
    space (line 138). *)
Theorem transliterate_output_trimmed (rules : list rule) (text mode : str)
    (capitalize : bool) (anusvara_style out : str) :
  call rules text mode capitalize anusvara_style = Ok out ->
  trimmed out.
Proof.
  unfold transliterate_rules.
  destruct (rule_loop E normalize_iast normalize_iast_none mode rules _)
    as [replaced|]; [|discriminate].
  cbn [bind]. unfold finish.
  destruct (re_sub PyRe.engine (u " ?\^\^\^") (u "") _) as [r1|]; [|discriminate].
  cbn [bind]. destruct (vowel_cleanup r1) as [r2|]; [|discriminate].
  cbn [bind]. destruct (capitalization upper capitalize r2) as [r3|];
    [|discriminate].
  cbn [bind]. intros H. injection H as <-. apply strip_trimmed.
Qed.

(** The parts of the loop that read the mode read only whether it is
    'phonetics'. *)
Lemma rule_step_mode (mode : str) (word : rule) (s : str) :
  is_phonetics mode = false ->
  rule_step E normalize_iast normalize_iast_none mode word s
  = rule_step E normalize_iast normalize_iast_none (u "iast") word s.
Proof.
  intros H. unfold rule_step, replacement_for, nam_step, inherent_a_step,
    nam_template, visarga_template.
  rewrite H. reflexivity.
Qed.

Lemma rule_loop_mode (mode : str) (rules : list rule) :
  is_phonetics mode = false ->
  forall s, rule_loop E normalize_iast normalize_iast_none mode rules s
            = rule_loop E normalize_iast normalize_iast_none (u "iast") rules s.
Proof.
  intros H. induction rules as [|word rules IH]; intros s; [reflexivity|].
  cbn [rule_loop]. rewrite (rule_step_mode mode word s H).
  destruct (rule_step E normalize_iast normalize_iast_none (u "iast") word s);
    cbn [bind]; [apply IH | reflexivity].
Qed.

(** X2: the mode is not checked: every mode other than 'phonetics' gives
    what 'iast' gives (lines 60-63, 75, 97). *)
Theorem other_mode_is_iast (rules : list rule) (text mode : str)
    (capitalize : bool) (anusvara_style : str) :
  mode <> u "phonetics" ->
  call rules text mode capitalize anusvara_style
  = call rules text (u "iast") capitalize anusvara_style.
Proof.
  intros H. unfold transliterate_rules.
  now rewrite rule_loop_mode by now apply eqb_str_false.
Qed.

(** X3: the anusvara style is not checked: every style other than 'ṁ'
    gives what 'ṃ' gives (lines 135-136). *)
Theorem other_style_is_dot_below (rules : list rule) (text mode : str)
    (capitalize : bool) (anusvara_style : str) :
  anusvara_style <> u "ṁ" ->
  call rules text mode capitalize anusvara_style
  = call rules text mode capitalize (u "ṃ").
Proof.
  intros H. unfold transliterate_rules, finish, apply_anusvara_style.
  rewrite (eqb_str_false _ _ H). reflexivity.
Qed.

(** X4: with the style 'ṁ' the output holds no 'ṃ' (lines 135-138). *)
Theorem dot_above_leaves_no_dot_below (rules : list rule) (text mode : str)
    (capitalize : bool) (out : str) :
  call rules text mode capitalize (u "ṁ") = Ok out ->
  ~ In 7747%N out.
Proof.
  unfold transliterate_rules.
  destruct (rule_loop E normalize_iast normalize_iast_none mode rules _)
    as [replaced|]; [|discriminate].
  cbn [bind]. unfold finish.
  destruct (re_sub PyRe.engine (u " ?\^\^\^") (u "") _) as [r1|]; [|discriminate].
  cbn [bind]. destruct (vowel_cleanup r1) as [r2|]; [|discriminate].
  cbn [bind]. destruct (capitalization upper capitalize r2) as [r3|];
    [|discriminate].
  cbn [bind]. intros H. injection H as <-. intros Hin.
  apply strip_incl in Hin.
  change (apply_anusvara_style (u "ṁ") r3)
    with (replace [7747%N] [7745%N] r3) in Hin.
  rewrite replace_char in Hin. apply in_map_iff in Hin as (y & Hy & _).
  destruct (7747 =? y)%N eqn:Hq; [discriminate|].
  apply N.eqb_neq in Hq. congruence.
Qed.

End Method.

Lemma other_mode_is_iast_witness :
  run [mk "བཛྲ" "vajra" "badzra"] (u "བཛྲ་") (u "Phonetics") false (u "ṃ")
  = run [mk "བཛྲ" "vajra" "badzra"] (u "བཛྲ་") (u "iast") false (u "ṃ").
Proof.
  apply (other_mode_is_iast PyRe.engine normalize_id (fun s => s) none_raises
           upper_ascii).
  vm_compute. discriminate.
Defined.

Lemma other_style_is_dot_below_witness :
  run [mk "ཨོཾ" "oṃ" "om"] (u "ཨོཾ") (u "iast") false (u "m")
  = run [mk "ཨོཾ" "oṃ" "om"] (u "ཨོཾ") (u "iast") false (u "ṃ").
Proof.
  apply (other_style_is_dot_below PyRe.engine normalize_id (fun s => s)
           none_raises upper_ascii).
  vm_compute. discriminate.
Defined.

Lemma transliterate_output_trimmed_witness : trimmed (u "vajra").
Proof.
  apply (transliterate_output_trimmed PyRe.engine normalize_id (fun s => s)
           none_raises upper_ascii [mk "བཛྲ" "vajra" ""] (u " བཛྲ་ ") (u "iast") false
           (u "ṃ")).
  vm_compute. reflexivity.
Defined.

Lemma dot_above_leaves_no_dot_below_witness : ~ In 7747%N (u "oṁ ṁ").
Proof.
  apply (dot_above_leaves_no_dot_below PyRe.engine normalize_id (fun s => s)
           none_raises upper_ascii [mk "ཨོཾ" "oṃ" "om"] (u "ཨོཾ་ṃ") (u "iast") false).
  vm_compute. reflexivity.
Defined.

(** ** The method: what it raises, and which rules count *)

Section Raising.
Variable E : Re.engine.
Variable normalize_tibetan : str -> bool -> str.
Variable normalize_iast : str -> str.
Variable normalize_iast_none : outcome value.
Variable upper : char -> str.

Local Abbreviation call :=
  (transliterate_rules E normalize_tibetan normalize_iast normalize_iast_none
     upper).

(** What [re.sub] raises it raises before it searches. *)
Lemma re_sub_raises (pattern template s : str) (e : exn) :
  re_sub E pattern template s = Raise e ->
  prepare E pattern template = Raise e.
Proof.
  rewrite re_sub_prepare.
  destruct (prepare E pattern template) as [pt|e']; cbn [bind];
    [|intros H; now injection H as ->].
  destruct (sub_loop_ok E (fst pt) (fun m => Ok (expand (snd pt) m))
              (fun _ _ _ m _ => ex_intro _ _ eq_refl) (sub_fuel s) [] s false)
    as [out Hout].
  rewrite Hout. discriminate.
Qed.

Lemma raises_within_ok (subs : list (str * str)) (s : str) :
  raises_within E subs (Ok s).
Proof. intros e H. discriminate. Qed.

Lemma raises_within_bind (subs : list (str * str)) (c : outcome str)
    (k : str -> outcome str) :
  raises_within E subs c ->
  (forall r, raises_within E subs (k r)) ->
  raises_within E subs (r <- c ;; k r).
Proof.
  intros Hc Hk e. destruct c as [r|e']; cbn [bind]; [apply Hk|].
  intros H. injection H as ->. now apply Hc.
Qed.

(** A guarded substitution, followed inside the guard by [k]. *)
Lemma raises_within_try (subs : list (str * str)) (pattern template s h : str)
    (k : str -> outcome str) :
  In (pattern, template) subs ->
  (forall r, raises_within E subs (k r)) ->
  raises_within E subs
    (try_except_re (r <- re_sub E pattern template s ;; k r) (Ok h)).
Proof.
  intros Hin Hk e.
  destruct (re_sub E pattern template s) as [r|e1] eqn:H1; cbn [bind].
  - destruct (k r) as [o|e2] eqn:H2; cbn [try_except_re]; [discriminate|].
    destruct (Hk r e2 H2) as [Hne Hpt].
    destruct e2; try congruence; intros H; injection H as <-; now split.
  - apply re_sub_raises in H1.
    destruct e1; cbn [try_except_re]; try discriminate;
      intros H; injection H as <-; (split; [discriminate|]);
      exists (pattern, template); now split.
Qed.

Lemma bind_ret (c : outcome str) : (r <- c ;; Ok r) = c.
Proof. now destruct c. Qed.

(** The substitutions of one rule raise only what [re] raises on them. *)
Lemma pattern_part_raises (mode pattern replacement s : str) :
  raises_within E (rule_subs mode pattern (Some replacement))
    (r1 <- nam_step E mode pattern s ;;
     r2 <- inherent_a_step E mode pattern replacement r1 ;;
     general_step E pattern replacement r2).
Proof.
  unfold rule_subs, replacement_subs.
  apply raises_within_bind; [|intros r1; apply raises_within_bind].
  - unfold nam_step. rewrite <- (bind_ret (re_sub E _ _ s)).
    apply raises_within_try; [now left | intros; apply raises_within_ok].
  - unfold inherent_a_step.
    destruct (endswith (u "a") _); [|apply raises_within_ok].
    apply raises_within_try; [right; now left|]. intros r2.
    apply raises_within_try; [do 2 right; now left|]. intros r3.
    rewrite <- (bind_ret (re_sub E _ _ r3)).
    apply raises_within_try; [do 3 right; now left|].
    intros; apply raises_within_ok.
  - intros r2. unfold general_step. rewrite <- (bind_ret (re_sub E _ _ r2)).
    apply raises_within_try; [do 4 right; now left|].
    intros; apply raises_within_ok.
Qed.

Lemma nam_step_raises (mode pattern s : str) (replacement : value) :
  raises_within E (rule_subs mode pattern replacement)
    (nam_step E mode pattern s).
Proof.
  unfold nam_step. rewrite <- (bind_ret (re_sub E _ _ s)).
  apply raises_within_try; [now left | intros; apply raises_within_ok].
Qed.

(** No replacement: what the rule says about it. *)
Lemma replacement_none (mode : str) (word : rule) :
  replacement_for normalize_iast normalize_iast_none mode word = Ok None ->
  transliteration word = None
  /\ (is_phonetics mode = false
      \/ (phonetics word = [] /\ normalize_iast_none = Ok None)).
Proof.
  unfold replacement_for, call_normalize_iast.
  destruct (is_phonetics mode).
  - destruct (phonetics word) as [|c ph]; [|discriminate].
    destruct (transliteration word); [discriminate|]. intros H.
    split; [reflexivity|]. right. now split.
  - intros H. injection H as ->. split; [reflexivity | now left].
Qed.

Lemma replacement_raises (mode : str) (word : rule) (e : exn) :
  replacement_for normalize_iast normalize_iast_none mode word = Raise e ->
  raised_by_normalizer normalize_iast_none mode word e.
Proof.
  unfold replacement_for, call_normalize_iast, raised_by_normalizer.
  destruct (is_phonetics mode); [|discriminate].
  destruct (phonetics word) as [|c ph]; [|discriminate].
  destruct (transliteration word); [discriminate|]. intros H.
  repeat split. exact H.
Qed.

Lemma rule_step_raises (mode : str) (word : rule) (s : str) (e : exn) :
  rule_step E normalize_iast normalize_iast_none mode word s = Raise e ->
  raised_by_normalizer normalize_iast_none mode word e
  \/ raised_by_re E normalize_iast normalize_iast_none mode word e
  \/ raised_by_missing_replacement normalize_iast_none mode word e.
Proof.
  unfold rule_step.
  destruct (replacement_for normalize_iast normalize_iast_none mode word)
    as [replacement|e0] eqn:Hrep; cbn [bind].
  - destruct (tibetan word) as [[|c pattern]|] eqn:Hp; try discriminate.
    intros H. right.
    assert (Hre : forall pt,
              e <> ReError ->
              In pt (rule_subs mode (c :: pattern) replacement) ->
              prepare E (fst pt) (snd pt) = Raise e ->
              raised_by_re E normalize_iast normalize_iast_none mode word e).
    { intros pt Hne Hin Hpt. split; [exact Hne|].
      exists (c :: pattern), replacement, pt.
      repeat split; try assumption. discriminate. }
    destruct replacement as [replacement|].
    + destruct (pattern_part_raises mode (c :: pattern) replacement s e H)
        as (Hne & pt & Hin & Hpt).
      left. now apply (Hre pt).
    + destruct (nam_step E mode (c :: pattern) s) as [r1|e1] eqn:Hn;
        cbn [bind] in H; injection H as <-.
      * right. unfold raised_by_missing_replacement, has_pattern.
        rewrite Hp. destruct (replacement_none mode word Hrep) as [Ht Hm].
        repeat split; assumption.
      * destruct (nam_step_raises mode (c :: pattern) s None e1 Hn)
          as (Hne & pt & Hin & Hpt).
        left. now apply (Hre pt).
  - intros H. injection H as ->. left. now apply replacement_raises.
Qed.

(** X5: where an exception of transliterate comes from.  It is raised for a
    rule of the list, in one of three ways: [normalize_iast] raised it on a
    transliteration that is [None] (phonetics mode, empty phonetics field);
    or [re] raised it, and it is not re.error, while compiling one of the
    five expressions assembled from a rule with a pattern or while parsing
    its template; or it is the [AttributeError] of [replacement.endswith] on
    a replacement that is [None], for a rule with a pattern.  The steps
    after the loop raise nothing (lines 59-116 and 118-138). *)
Theorem transliterate_raises_for_a_rule (rules : list rule)
    (text mode : str) (capitalize : bool) (anusvara_style : str) (e : exn) :
  call rules text mode capitalize anusvara_style = Raise e ->
  exists word,
    In word rules
    /\ (raised_by_normalizer normalize_iast_none mode word e
        \/ raised_by_re E normalize_iast normalize_iast_none mode word e
        \/ raised_by_missing_replacement normalize_iast_none mode word e).
Proof.
  unfold transliterate_rules.
  generalize (normalize_tibetan text true).
  induction rules as [|word rules IH]; intros s; cbn [rule_loop bind].
  - destruct (finish_ok upper capitalize anusvara_style s) as [out ->].
    discriminate.
  - destruct (rule_step E normalize_iast normalize_iast_none mode word s)
      as [r|e'] eqn:Hstep; cbn [bind].
    + intros H. destruct (IH r H) as (w & Hw & Hrest).
      exists w. split; [now right | exact Hrest].
    + intros H. injection H as ->. exists word. split; [now left|].
      now apply (rule_step_raises mode word s).
Qed.

(** X6: an exception other than re.error raised by [re] on the suffix
    expression of the first rule is not caught: the call raises it
    (lines 72-79). *)
Theorem other_exception_aborts (word : rule) (rules : list rule)
    (pattern : str) (replacement : value) (text mode : str)
    (capitalize : bool) (anusvara_style : str) (e : exn) :
  tibetan word = Some pattern ->
  pattern <> [] ->
  replacement_for normalize_iast normalize_iast_none mode word
  = Ok replacement ->
  re_compile E (nam_pattern pattern) = Raise e ->
  e <> ReError ->
  call (word :: rules) text mode capitalize anusvara_style = Raise e.
Proof.
  intros Hp Hne0 Hr Hc Hne. unfold transliterate_rules. cbn [rule_loop].
  unfold rule_step. rewrite Hr, Hp. cbn [bind].
  destruct pattern as [|c pattern]; [congruence|].
  unfold nam_step, re_sub. rewrite Hc. cbn [bind].
  destruct e; try congruence; reflexivity.
Qed.

(** X26: a rule with a pattern and without a transliteration, as the loader
    builds it from a record that is too short, makes the call raise
    [AttributeError] in every mode other than phonetics: when it is the
    first rule of the list and [re] raises at most re.error on its suffix
    expression, [replacement.endswith] raises, whatever the text and the
    rules after it (lines 63 and 83). *)
Theorem missing_transliteration_aborts (word : rule) (rules : list rule)
    (pattern : str) (text mode : str) (capitalize : bool)
    (anusvara_style : str) :
  tibetan word = Some pattern ->
  pattern <> [] ->
  transliteration word = None ->
  is_phonetics mode = false ->
  sub_only_re_error E (nam_pattern pattern) (nam_template mode) = true ->
  call (word :: rules) text mode capitalize anusvara_style
  = Raise AttributeError.
Proof.
  intros Hp Hne Ht Hm Hs. unfold transliterate_rules. cbn [rule_loop].
  unfold rule_step, replacement_for. rewrite Hm, Ht, Hp. cbn [bind].
  destruct pattern as [|c pattern]; [congruence|].
  unfold nam_step.
  destruct (sub_only_re_error_cases E _ _ (normalize_tibetan text true) Hs)
    as [[o Ho]|Ho]; rewrite Ho; reflexivity.
Qed.

(** A rule without a pattern is passed over, once its replacement is
    computed. *)
Lemma rule_loop_drops_empty (mode : str) (rules : list rule) :
  Forall (fun word =>
            has_pattern word = false ->
            exists v,
              replacement_for normalize_iast normalize_iast_none mode word
              = Ok v) rules ->
  forall s,
  rule_loop E normalize_iast normalize_iast_none mode
    (filter has_pattern rules) s
  = rule_loop E normalize_iast normalize_iast_none mode rules s.
Proof.
  induction 1 as [|word rules Hw _ IH]; intros s; [reflexivity|].
  cbn [filter rule_loop].
  destruct (has_pattern word) eqn:Hp.
  - cbn [rule_loop].
    destruct (rule_step E normalize_iast normalize_iast_none mode word s);
      cbn [bind]; [apply IH | reflexivity].
  - destruct (Hw eq_refl) as [v Hv]. unfold rule_step. rewrite Hv.
    cbn [bind]. unfold has_pattern in Hp.
    destruct (tibetan word) as [[|c pattern]|]; try discriminate;
      cbn [bind]; apply IH.
Qed.

(** X7: rules whose pattern is empty have no effect: removing them from the
    rule list changes nothing, provided the replacement of each of them is
    computed, which comes before the test of the pattern, without an
    exception (lines 60-69). *)
Theorem empty_patterns_have_no_effect (rules : list rule) (text mode : str)
    (capitalize : bool) (anusvara_style : str) :
  Forall (fun word =>
            has_pattern word = false ->
            exists v,
              replacement_for normalize_iast normalize_iast_none mode word
              = Ok v) rules ->
  call (filter has_pattern rules) text mode capitalize anusvara_style
  = call rules text mode capitalize anusvara_style.
Proof.
  intros H. unfold transliterate_rules. now rewrite rule_loop_drops_empty.
Qed.

(** X8: the rules are applied in list order, each on the text the ones
    before it left: the loop over [rules1 ++ rules2] is the loop over
    [rules1] followed by the loop over [rules2], and stops at the first
    exception (line 59). *)
Theorem rule_loop_in_order (mode : str) (rules1 rules2 : list rule) (s : str) :
  rule_loop E normalize_iast normalize_iast_none mode (rules1 ++ rules2) s
  = (r <- rule_loop E normalize_iast normalize_iast_none mode rules1 s ;;
     rule_loop E normalize_iast normalize_iast_none mode rules2 r).
Proof.
  revert s. induction rules1 as [|word rules1 IH]; intros s; [reflexivity|].
  cbn [app rule_loop].
  destruct (rule_step E normalize_iast normalize_iast_none mode word s);
    cbn [bind]; [apply IH | reflexivity].
Qed.

(** X9: once the loop has returned, the call returns: the steps after the
    loop raise nothing, and [m.group(1)] is never [None] in the
    capitalization (lines 118-138). *)
Theorem after_loop_never_raises (rules : list rule) (text mode : str)
    (capitalize : bool) (anusvara_style replaced : str) :
  rule_loop E normalize_iast normalize_iast_none mode rules
    (normalize_tibetan text true)
  = Ok replaced ->
  exists out, call rules text mode capitalize anusvara_style = Ok out.
Proof.
  intros H. unfold transliterate_rules. rewrite H. cbn [bind].
  apply finish_ok.
Qed.

End Raising.

Lemma other_exception_aborts_witness :
  run [mk "a{4294967296}" "x" ""; mk "བཛྲ" "vajra" ""] (u "བཛྲ་") (u "iast")
    false (u "ṃ")
  = Raise OverflowError.
Proof.
  apply (other_exception_aborts PyRe.engine normalize_id (fun s => s)
           none_raises upper_ascii _ _ (u "a{4294967296}") (Some (u "x")));
    [reflexivity | discriminate | reflexivity | vm_compute; reflexivity
    | discriminate].
Defined.

Lemma missing_transliteration_aborts_witness :
  run [mk_short "ཀ"; mk "བཛྲ" "vajra" ""] (u "བཛྲ་") (u "iast") false (u "ṃ")
  = Raise AttributeError.
Proof.
  apply (missing_transliteration_aborts PyRe.engine normalize_id (fun s => s)
           none_raises upper_ascii _ _ (u "ཀ"));
    [reflexivity | discriminate | reflexivity | reflexivity
    | vm_compute; reflexivity].
Defined.

Lemma transliterate_raises_for_a_rule_witness :
  exists word,
    In word [mk "བཛྲ" "vajra" ""; mk_short "ཀ"]
    /\ (raised_by_normalizer none_raises (u "iast") word AttributeError
        \/ raised_by_re PyRe.engine (fun s => s) none_raises (u "iast") word
             AttributeError
        \/ raised_by_missing_replacement none_raises (u "iast") word
             AttributeError).
Proof.
  apply (transliterate_raises_for_a_rule PyRe.engine normalize_id
           (fun s => s) none_raises upper_ascii _ (u "བཛྲ་") (u "iast") false
           (u "ṃ")).
  vm_compute. reflexivity.
Defined.

Lemma empty_patterns_have_no_effect_witness :
  run [mk "བཛྲ" "vajra" ""] (u "བཛྲ་") (u "iast") false (u "ṃ")
  = run [mk "" "x" ""; mk "བཛྲ" "vajra" ""; mk_short ""] (u "བཛྲ་") (u "iast")
      false (u "ṃ").
Proof.
  apply (empty_patterns_have_no_effect PyRe.engine normalize_id (fun s => s)
           none_raises upper_ascii
           [mk "" "x" ""; mk "བཛྲ" "vajra" ""; mk_short ""]).
  repeat constructor; intros _; eexists; reflexivity.
Defined.

(** With a normalizer that raises on [None], a rule without a pattern and
    without a transliteration is not passed over in phonetics mode: its
    replacement is computed before its pattern is looked at. *)
Example empty_pattern_can_raise :
  run [mk_short ""] (u "ཀ") (u "phonetics") false (u "ṃ") = Raise TypeError.
Proof. run_model. Qed.

Lemma after_loop_never_raises_witness :
  exists out,
    run [mk "བཛྲ" "vajra" ""] (u "བཛྲ་  ཀ") (u "iast") true (u "ṃ") = Ok out.
Proof.
  apply (after_loop_never_raises PyRe.engine normalize_id (fun s => s)
           none_raises upper_ascii _ _ _ _ _ (u "vajra   ཀ")).
  vm_compute. reflexivity.
Defined.

(** ** The method: what the fields of a rule are used for *)

Section Fields.
Variable E : Re.engine.
Variable normalize_tibetan : str -> bool -> str.
Variable upper : char -> str.

Lemma rule_step_iast (ni1 ni2 : str -> str) (n1 n2 : outcome value)
    (w1 w2 : rule) (s : str) :
  same_iast w1 w2 ->
  rule_step E ni1 n1 (u "iast") w1 s = rule_step E ni2 n2 (u "iast") w2 s.
Proof.
  intros [Ht Htr]. unfold rule_step, replacement_for.
  change (is_phonetics (u "iast")) with false. cbv iota.
  now rewrite Ht, Htr.
Qed.

(** X10: in iast mode neither the phonetics field of a rule nor
    normalize_iast is used: two rule lists that agree on patterns and
    transliterations give the same output, whatever the phonetics fields and
    the phonetic normalizer (lines 60-63). *)
Theorem iast_ignores_phonetics (ni1 ni2 : str -> str)
    (n1 n2 : outcome value) (rules1 rules2 : list rule) (text : str)
    (capitalize : bool) (anusvara_style : str) :
  Forall2 same_iast rules1 rules2 ->
  transliterate_rules E normalize_tibetan ni1 n1 upper rules1 text (u "iast")
    capitalize anusvara_style
  = transliterate_rules E normalize_tibetan ni2 n2 upper rules2 text
      (u "iast") capitalize anusvara_style.
Proof.
  intros H. unfold transliterate_rules. f_equal.
  generalize (normalize_tibetan text true).
  induction H as [|w1 w2 l1 l2 Hw Hl IH]; intros s; [reflexivity|].
  cbn [rule_loop]. rewrite (rule_step_iast ni1 ni2 n1 n2 w1 w2 s Hw).
  destruct (rule_step E ni2 n2 (u "iast") w2 s); cbn [bind];
    [apply IH | reflexivity].
Qed.



End Fields.

Lemma iast_ignores_phonetics_witness :
  transliterate_rules PyRe.engine normalize_id (fun s => s) none_raises
    upper_ascii [mk "བཛྲ" "vajra" ""] (u "བཛྲ་") (u "iast") false (u "ṃ")
  = transliterate_rules PyRe.engine normalize_id (fun _ => u "?")
      (Ok None) upper_ascii [mk "བཛྲ" "vajra" "badzra"] (u "བཛྲ་") (u "iast")
      false (u "ṃ").
Proof.
  apply iast_ignores_phonetics. repeat constructor.
Defined.


(** In phonetics mode the output is made of the phonetics field where there
    is one. *)
Example phonetics_field_used :
  run [mk "བཛྲ" "vajra" "badzra"; mk "ཀ" "ka" ""] (u "བཛྲ་ཀ་") (u "phonetics")
    false (u "ṃ")
  = Ok (u "badzra ka").
Proof. run_model. Qed.

(** ** The inherent-vowel sub-steps keep what they have done *)

Section Partial.
Variable E : Re.engine.

(** X12: the three substitutions for a replacement ending in 'a' share one
    try: when the boundary substitution has been done and the visarga
    expression then raises re.error, the boundary substitution stays and
    the vowel-marker substitution is not tried (lines 86-109). *)
Theorem inherent_a_keeps_partial_work (mode pattern replacement replaced r1 : str) :
  endswith (u "a") replacement = true ->
  re_sub E (boundary_pattern pattern) (boundary_template replacement)
    replaced = Ok r1 ->
  re_compile E (visarga_pattern pattern) = Raise ReError ->
  inherent_a_step E mode pattern replacement replaced = Ok r1.
Proof.
  intros Ha H1 H2. unfold inherent_a_step. rewrite Ha, H1. cbn [bind].
  unfold re_sub at 1. rewrite H2. reflexivity.
Qed.

End Partial.

Lemma inherent_a_keeps_partial_work_witness :
  inherent_a_step PyRe.engine (u "iast") (u "[") (u "ka") (u "x་y")
  = Ok (u "xka y").
Proof.
  apply inherent_a_keeps_partial_work; vm_compute; reflexivity.
Defined.

(** ** The double-vowel fix as a function on lists *)

(** X13: the double-vowel fix deletes exactly the 'a' that stand immediately
    before one of ā ī ū ṛ ṝ ḷ ḹ ṃ ṁ in its input, in one pass, and changes
    nothing else; it never raises (lines 124-125). *)
Theorem vowel_cleanup_deletes_a (s : str) :
  vowel_cleanup s = Ok (drop_a dominates_a s).
Proof. exact (vowel_cleanup_dominates s). Qed.

(** X14: a text in which no 'a' stands before one of these letters is left
    as it is by the fix. *)
Theorem vowel_cleanup_fixed_point (s : str) :
  a_free dominates_a s = true -> vowel_cleanup s = Ok s.
Proof.
  intros H. rewrite vowel_cleanup_dominates. f_equal. now apply drop_a_fixed.
Qed.

Lemma vowel_cleanup_fixed_point_witness :
  vowel_cleanup (u "oṃ vajra āḥ") = Ok (u "oṃ vajra āḥ").
Proof. apply vowel_cleanup_fixed_point. vm_compute. reflexivity. Defined.

(** ** The space normalization as a function on lists *)

(** X15: without capitalization, the space normalization replaces every
    maximal run of two or more spaces by exactly four spaces and changes
    nothing else; it never raises (line 132). *)
Theorem space_runs_become_four (upper : char -> str) (s : str) :
  capitalization upper false s = Ok (squeeze_spaces false s).
Proof.
  unfold capitalization, re_sub. cbn [re_compile re_template PyRe.engine].
  change (PyRe.compile (u " {2,}")) with (Ok (space_run, 0)). cbn [bind snd].
  change (PyRe.parse_template 0 (u "    "))
    with (Ok [TLit [32%N]; TLit [32%N]; TLit [32%N]; TLit [32%N]]).
  cbn [bind]. apply sub_loop_space_run. unfold sub_fuel. lia.
Qed.

(** X16: without capitalization the space normalization is idempotent:
    applied to its own output it changes nothing (line 132). *)
Theorem space_normalization_idempotent (upper : char -> str) (s : str) :
  (r <- capitalization upper false s ;; capitalization upper false r)
  = capitalization upper false s.
Proof.
  unfold capitalization, re_sub. cbn [re_compile re_template PyRe.engine].
  change (PyRe.compile (u " {2,}")) with (Ok (space_run, 0)). cbn [bind snd].
  change (PyRe.parse_template 0 (u "    "))
    with (Ok [TLit [32%N]; TLit [32%N]; TLit [32%N]; TLit [32%N]]).
  cbn [bind].
  rewrite (sub_loop_space_run (sub_fuel s) s [])
    by (unfold sub_fuel; lia).
  cbn [bind].
  rewrite (sub_loop_space_run _ (squeeze_spaces false s) [])
    by (unfold sub_fuel; lia).
  f_equal. now apply (squeeze_idempotent (length s)).
Qed.

(** ** The loader *)

(** The dict that [csv.DictReader] builds gives, under a column name, the
    field at the place of the last column of that name. *)
Lemma row_get_cell (key : str) (fieldnames : list str) :
  forall record,
  row_get key (dict_row fieldnames record) = cell key fieldnames record.
Proof.
  unfold cell.
  induction fieldnames as [|k ks IH]; intros record; [reflexivity|].
  destruct record as [|v vs]; cbn [dict_row row_get last_column]; rewrite IH;
    destruct (last_column key ks) as [i|]; try reflexivity.
  - now destruct i.
  - now destruct (eqb_str k key).
  - now destruct (eqb_str k key).
Qed.

Section Loader.
Variable read_csv : csv_file -> outcome csv_reading.

Lemma load_row_ok (fieldnames record : list str) (word : rule) :
  load_row (dict_row fieldnames record) = Ok word ->
  raw_rule_of_record fieldnames record word.
Proof.
  unfold load_row, row_item, raw_rule_of_record. rewrite !row_get_cell.
  destruct (cell (u "tibetan") fieldnames record) as [t|]; [|discriminate].
  cbn [bind].
  destruct (cell (u "transliteration") fieldnames record) as [tr|];
    [|discriminate].
  cbn [bind]. intros H. injection H as <-. now repeat split.
Qed.

Lemma load_rows_forall2 (fieldnames : list str) (ending : option exn)
    (rest : list (list str)) :
  forall rules,
  load_rows fieldnames rest ending = Ok rules ->
  ending = None
  /\ Forall2 (raw_rule_of_record fieldnames) (data_rows rest) rules.
Proof.
  induction rest as [|record rest IH]; intros rules; cbn [load_rows].
  - destruct ending; [discriminate|]. intros H. injection H as <-.
    split; [reflexivity | constructor].
  - destruct record as [|f fs]; [exact (IH rules)|].
    destruct (load_row (dict_row fieldnames (f :: fs))) as [word|] eqn:Hw;
      [|discriminate].
    cbn [bind].
    destruct (load_rows fieldnames rest ending) as [rs|]; [|discriminate].
    cbn [bind]. intros H. injection H as <-.
    destruct (IH rs eq_refl) as [He Hf]. split; [exact He|].
    cbn [data_rows filter is_blank negb]. constructor; [|exact Hf].
    now apply load_row_ok.
Qed.

Lemma load_replacements_rows (csv_path : option str) (rules : list rule) :
  load_replacements read_csv csv_path = Ok rules ->
  exists reading,
    read_csv (file_of csv_path) = Ok reading
    /\ failure reading = None
    /\ Forall2 (raw_rule_of_record (header_of reading))
         (data_rows (rest_of reading)) rules.
Proof.
  unfold load_replacements, header_of, rest_of.
  destruct (read_csv (file_of csv_path)) as [reading|]; [|discriminate].
  cbn [bind]. intros H. exists reading. split; [reflexivity|].
  destruct (records reading) as [|fieldnames rest].
  - destruct (failure reading); [discriminate|]. injection H as <-.
    split; [reflexivity | constructor].
  - now apply load_rows_forall2.
Qed.

(** X17: load_replacements keeps the records of the file: the first record
    is the header, the empty records are passed over, and every other record
    gives one rule, in file order.  The rule holds the fields of the record
    under the columns 'tibetan' and 'transliteration', [None] for a field
    that a short record does not have, and the field under 'phonetics', or
    the empty string when that column or that field is missing
    (loader.py, lines 25-35). *)
Theorem load_replacements_keeps_rows (csv_path : option str)
    (rules : list rule) :
  load_replacements read_csv csv_path = Ok rules ->
  exists reading,
    read_csv (file_of csv_path) = Ok reading
    /\ failure reading = None
    /\ Forall2 (raw_rule_of_record (header_of reading))
         (data_rows (rest_of reading)) rules.
Proof. exact (load_replacements_rows csv_path rules). Qed.

Lemma load_row_key_error (fieldnames record : list str) :
  last_column (u "tibetan") fieldnames = None
  \/ last_column (u "transliteration") fieldnames = None ->
  load_row (dict_row fieldnames record) = Raise KeyError.
Proof.
  unfold load_row, row_item. rewrite !row_get_cell. unfold cell.
  intros [H|H]; rewrite H; [reflexivity|].
  now destruct (last_column (u "tibetan") fieldnames).
Qed.

Lemma load_rows_key_error (fieldnames : list str) (ending : option exn)
    (rest : list (list str)) :
  last_column (u "tibetan") fieldnames = None
  \/ last_column (u "transliteration") fieldnames = None ->
  data_rows rest <> [] ->
  load_rows fieldnames rest ending = Raise KeyError.
Proof.
  intros Hl. induction rest as [|record rest IH]; intros Hd;
    [now contradiction Hd|].
  cbn [load_rows]. destruct record as [|f fs]; [exact (IH Hd)|].
  now rewrite load_row_key_error.
Qed.

Lemma load_rows_total (fieldnames : list str) (rest : list (list str)) :
  last_column (u "tibetan") fieldnames <> None ->
  last_column (u "transliteration") fieldnames <> None ->
  exists rules, load_rows fieldnames rest None = Ok rules.
Proof.
  intros Ht Htr. induction rest as [|record rest [rs IH]]; cbn [load_rows];
    [eauto|].
  destruct record as [|f fs]; [eauto|].
  unfold load_row, row_item. rewrite !row_get_cell. unfold cell.
  destruct (last_column (u "tibetan") fieldnames); [|congruence].
  destruct (last_column (u "transliteration") fieldnames); [|congruence].
  cbn [bind]. rewrite IH. cbn [bind]. eauto.
Qed.

(** X18: a [KeyError] for a missing column comes from the header, not from
    a short record.  When the header has no column 'tibetan' or no column
    'transliteration' and a record that is not empty follows it,
    load_replacements raises [KeyError] at the first such record and
    returns no rule list, whatever the records hold.  When the header has
    both columns and reading the file does not fail, load_replacements
    returns a rule list, however short the records are
    (loader.py, lines 27-33). *)
Theorem load_replacements_missing_column (csv_path : option str)
    (reading : csv_reading) :
  read_csv (file_of csv_path) = Ok reading ->
  ((last_column (u "tibetan") (header_of reading) = None
    \/ last_column (u "transliteration") (header_of reading) = None) ->
   data_rows (rest_of reading) <> [] ->
   load_replacements read_csv csv_path = Raise KeyError)
  /\ (last_column (u "tibetan") (header_of reading) <> None ->
      last_column (u "transliteration") (header_of reading) <> None ->
      failure reading = None ->
      exists rules, load_replacements read_csv csv_path = Ok rules).
Proof.
  intros Hr. unfold load_replacements, header_of, rest_of. rewrite Hr.
  cbn [bind]. destruct (records reading) as [|fieldnames rest].
  - split; [intros _ H; now contradiction H|].
    intros H. now contradiction H.
  - split.
    + now apply load_rows_key_error.
    + intros Ht Htr ->. now apply load_rows_total.
Qed.

End Loader.

Lemma load_replacements_keeps_rows_witness :
  exists reading,
    ragged_file (file_of None) = Ok reading
    /\ failure reading = None
    /\ Forall2 (raw_rule_of_record (header_of reading))
         (data_rows (rest_of reading))
         [mk "བཛྲ" "vajra" "badzra"; mk_short "ཀ"; mk "ཨོཾ" "oṃ" ""].
Proof.
  apply (load_replacements_keeps_rows ragged_file None). reflexivity.
Defined.

Lemma load_replacements_missing_column_witness :
  load_replacements headless_file (Some (u "rules.csv")) = Raise KeyError
  /\ exists rules, load_replacements ragged_file None = Ok rules.
Proof.
  split.
  - apply (proj1 (load_replacements_missing_column headless_file
                    (Some (u "rules.csv")) _ eq_refl));
      [right; reflexivity | discriminate].
  - apply (proj2 (load_replacements_missing_column ragged_file None _
                    eq_refl)); discriminate || reflexivity.
Defined.

(** The file with a short record and a blank line loads: three rules, the
    second without a transliteration. *)
Example ragged_file_loads :
  load_replacements ragged_file None
  = Ok [mk "བཛྲ" "vajra" "badzra"; mk_short "ཀ"; mk "ཨོཾ" "oṃ" ""].
Proof. vm_compute. reflexivity. Qed.

(** ** Construction, the convenience function and the cached instance *)

Section Facade.
Variable E : Re.engine.
Variable normalize_tibetan : str -> bool -> str.
Variable normalize_tibetan_none : outcome value.
Variable normalize_iast : str -> str.
Variable normalize_iast_none : outcome value.
Variable upper : char -> str.
Variable read_csv : csv_file -> outcome csv_reading.

Local Abbreviation method :=
  (method_transliterate E normalize_tibetan normalize_iast normalize_iast_none
     upper).
Local Abbreviation facade :=
  (transliterate E normalize_tibetan normalize_tibetan_none normalize_iast
     normalize_iast_none upper read_csv).
Local Abbreviation get :=
  (get_transliterator normalize_tibetan normalize_tibetan_none read_csv).
Local Abbreviation new :=
  (new_transliterator normalize_tibetan normalize_tibetan_none read_csv).
Local Abbreviation init :=
  (__init__ normalize_tibetan normalize_tibetan_none read_csv).
Local Abbreviation new_cases :=
  (new_transliterator_cases normalize_tibetan normalize_tibetan_none read_csv).
Local Abbreviation reads :=
  (method_reads E normalize_tibetan normalize_iast normalize_iast_none upper).

Lemma Forall2_compose {A B C} (R1 : A -> B -> Prop) (R2 : B -> C -> Prop)
    (R3 : A -> C -> Prop) :
  (forall a b c, R1 a b -> R2 b c -> R3 a c) ->
  forall la lb lc, Forall2 R1 la lb -> Forall2 R2 lb lc -> Forall2 R3 la lc.
Proof.
  intros H la lb lc H1. revert lc.
  induction H1 as [|a b la lb Hab _ IH]; intros lc H2; inversion H2; subst;
    constructor; eauto.
Qed.

(** What the constructor makes of the entries of the loader. *)
Lemma preprocess_forall2 (raw : list rule) :
  forall rules,
  preprocess normalize_tibetan normalize_tibetan_none raw = Ok rules ->
  Forall2 (fun entry word =>
             call_normalize_tibetan normalize_tibetan normalize_tibetan_none
               (tibetan entry) = Ok (tibetan word)
             /\ transliteration word = transliteration entry
             /\ phonetics word = phonetics entry) raw rules.
Proof.
  induction raw as [|entry raw IH]; intros rules; cbn [preprocess].
  - intros H. injection H as <-. constructor.
  - destruct (call_normalize_tibetan normalize_tibetan normalize_tibetan_none
                (tibetan entry)) as [t|] eqn:Ht; [|discriminate].
    cbn [bind].
    destruct (preprocess normalize_tibetan normalize_tibetan_none raw)
      as [rs|]; [|discriminate].
    cbn [bind]. intros H. injection H as <-.
    constructor; [now repeat split | now apply IH].
Qed.

Lemma init_keeps_rows (csv_path : option str)
    (t : TibetanSanskritTransliterator) :
  init csv_path = Ok t ->
  exists reading,
    read_csv (file_of csv_path) = Ok reading
    /\ failure reading = None
    /\ Forall2 (rule_of_record normalize_tibetan normalize_tibetan_none
                  (header_of reading))
         (data_rows (rest_of reading)) (replacements t).
Proof.
  unfold __init__.
  destruct (load_replacements read_csv csv_path) as [raw|] eqn:Hl;
    [|discriminate].
  cbn [bind].
  destruct (preprocess normalize_tibetan normalize_tibetan_none raw)
    as [rules|] eqn:Hp; [|discriminate].
  cbn [bind]. intros H. injection H as <-. cbn [replacements].
  destruct (load_replacements_rows read_csv csv_path raw Hl)
    as (reading & Hr & Hf & Hrows).
  exists reading. split; [exact Hr|]. split; [exact Hf|].
  apply preprocess_forall2 in Hp.
  refine (Forall2_compose _ _ _ _ _ _ _ Hrows Hp).
  intros record entry word (H1 & H2 & H3) (Ht & Htr & Hph).
  unfold rule_of_record. rewrite H1, H2, Htr, Hph, <- H3.
  repeat split. unfold call_normalize_tibetan in Ht.
  destruct (tibetan entry) as [v|]; [|exact Ht]. now injection Ht as <-.
Qed.

(** X19: the first get_transliterator of a process builds the engine from
    the file its csv_path names: the reference it returns is a new object
    whose rules are the rows of that file, in file order, with the pattern
    normalized (trailing tsheks not kept) and the other two fields as in the
    row (lines 17-32 and 179-182). *)
Theorem first_get_builds_from_file (csv_path : option str) (w w' : world)
    (r : nat) :
  _default_transliterator w = None ->
  get csv_path w = (Ok r, w') ->
  exists reading t,
    read_csv (file_of csv_path) = Ok reading
    /\ failure reading = None
    /\ r = length (heap w)
    /\ heap w' = heap w ++ [t]
    /\ nth_error (heap w') r = Some t
    /\ Forall2 (rule_of_record normalize_tibetan normalize_tibetan_none
                  (header_of reading))
         (data_rows (rest_of reading)) (replacements t).
Proof.
  intros Hn. unfold get_transliterator. rewrite Hn.
  destruct (new_cases csv_path w) as [(t & Hi & ->)|(e & _ & ->)];
    [|discriminate].
  intros H. injection H as <- <-. cbn [heap].
  destruct (init_keeps_rows csv_path t Hi) as (reading & Hr & Hf & Hrows).
  exists reading, t. repeat split; try assumption.
  rewrite nth_error_app2 by lia. now rewrite Nat.sub_diag.
Qed.

(** X20: when the rule file cannot be loaded, get_transliterator and the
    convenience function raise the loader's exception and leave the process
    as it was: nothing is cached, so a later get_transliterator tries again
    (lines 24, 161 and 180-181). *)
Theorem failed_load_caches_nothing (csv_path : option str) (w : world)
    (e : exn) (text mode : str) (capitalize : bool) (anusvara_style : str) :
  load_replacements read_csv csv_path = Raise e ->
  _default_transliterator w = None ->
  get csv_path w = (Raise e, w)
  /\ facade text mode capitalize anusvara_style csv_path w = (Raise e, w).
Proof.
  intros Hl Hn.
  assert (Hnew : new csv_path w = (Raise e, w)).
  { unfold new_transliterator, __init__. now rewrite Hl. }
  unfold get_transliterator, transliterate. now rewrite Hn, Hnew.
Qed.

(** X21: the convenience function builds a fresh engine on every call and
    does not touch the cached one: after it, the global is what it was,
    every object is still there unchanged, and at most one object has been
    added (lines 161-162). *)
Theorem convenience_function_spares_cache (text mode : str)
    (capitalize : bool) (anusvara_style : str) (csv_path : option str)
    (w : world) :
  let w' := snd (facade text mode capitalize anusvara_style csv_path w) in
  _default_transliterator w' = _default_transliterator w
  /\ (forall i t, nth_error (heap w) i = Some t ->
                  nth_error (heap w') i = Some t)
  /\ length (heap w') <= S (length (heap w)).
Proof.
  unfold transliterate.
  destruct (new_cases csv_path w) as [(t & _ & ->)|(e & _ & ->)].
  - rewrite reads. cbn [snd heap _default_transliterator].
    split; [reflexivity|].
    split; [|rewrite length_app; cbn; lia].
    intros i t' Hi. rewrite nth_error_app1; [exact Hi|].
    apply nth_error_Some. congruence.
  - cbn [snd]. repeat split; try tauto. lia.
Qed.

(** X22: on a process without a cached engine, the convenience function
    returns what the method returns on the engine that get_transliterator
    builds for the same csv_path (lines 161-162 and 179-182). *)
Theorem convenience_function_is_get_then_method (text mode : str)
    (capitalize : bool) (anusvara_style : str) (csv_path : option str)
    (w : world) :
  _default_transliterator w = None ->
  fst (facade text mode capitalize anusvara_style csv_path w)
  = match get csv_path w with
    | (Ok r, w') => fst (method r text mode capitalize anusvara_style w')
    | (Raise e, _) => Raise e
    end.
Proof.
  intros Hn. unfold transliterate, get_transliterator. rewrite Hn.
  destruct (new_cases csv_path w) as [(t & _ & ->)|(e & _ & ->)];
    [|reflexivity].
  now rewrite !reads.
Qed.

(** X23: the global never dangles: if it refers to an object of the heap
    (or is unset) before a call of get_transliterator, of the convenience
    function or of the method, it does so after it, and the reference that
    get_transliterator returns denotes an object, so that the method called
    on it finds its rule list (lines 161-162 and 179-182). *)
Theorem cache_stays_valid (text mode : str) (capitalize : bool)
    (anusvara_style : str) (csv_path : option str) (self : nat) (w : world) :
  cache_valid w ->
  cache_valid (snd (get csv_path w))
  /\ cache_valid (snd (facade text mode capitalize anusvara_style csv_path w))
  /\ cache_valid (snd (method self text mode capitalize anusvara_style w))
  /\ (forall r, fst (get csv_path w) = Ok r ->
        exists t, nth_error (heap (snd (get csv_path w))) r = Some t).
Proof.
  intros Hv. unfold cache_valid in *.
  assert (Hm : forall self' w0,
            snd (method self' text mode capitalize anusvara_style w0) = w0).
  { intros self' w0. now rewrite reads. }
  repeat split.
  - unfold get_transliterator.
    destruct (_default_transliterator w) as [r|] eqn:Hd.
    + cbn [snd]. now rewrite Hd.
    + destruct (new_cases csv_path w) as [(t & _ & ->)|(e & _ & ->)];
        cbn [snd heap _default_transliterator].
      * rewrite length_app. cbn. lia.
      * now rewrite Hd.
  - unfold transliterate.
    destruct (new_cases csv_path w) as [(t & _ & ->)|(e & _ & ->)];
      [|exact Hv].
    rewrite Hm. cbn [heap _default_transliterator].
    destruct (_default_transliterator w); [|exact I].
    rewrite length_app. cbn. lia.
  - now rewrite Hm.
  - intros r. unfold get_transliterator.
    destruct (_default_transliterator w) as [r0|] eqn:Hd.
    + cbn [fst snd]. intros H. injection H as <-.
      destruct (nth_error (heap w) r0) eqn:Hr; [eauto|].
      apply nth_error_None in Hr. lia.
    + destruct (new_cases csv_path w) as [(t & _ & ->)|(e & _ & ->)];
        cbn [fst snd heap]; [|discriminate].
      intros H. injection H as <-. exists t.
      rewrite nth_error_app2 by lia. now rewrite Nat.sub_diag.
Qed.

End Facade.

Lemma first_get_builds_from_file_witness :
  exists reading t,
    ragged_file (file_of (Some (u "mine.csv"))) = Ok reading
    /\ failure reading = None
    /\ 0 = length (heap empty_world)
    /\ heap (snd (get_transliterator normalize_id (Ok None) ragged_file
                    (Some (u "mine.csv")) empty_world))
       = heap empty_world ++ [t]
    /\ nth_error
         (heap (snd (get_transliterator normalize_id (Ok None) ragged_file
                       (Some (u "mine.csv")) empty_world))) 0 = Some t
    /\ Forall2 (rule_of_record normalize_id (Ok None) (header_of reading))
         (data_rows (rest_of reading)) (replacements t).
Proof.
  apply (first_get_builds_from_file normalize_id (Ok None) ragged_file
           (Some (u "mine.csv")) empty_world);
    [reflexivity | vm_compute; reflexivity].
Defined.

Lemma failed_load_caches_nothing_witness :
  get_transliterator normalize_id none_raises no_file None empty_world
  = (Raise OSError, empty_world)
  /\ transliterate PyRe.engine normalize_id none_raises (fun s => s)
       none_raises upper_ascii no_file (u "བཛྲ་") (u "iast") false (u "ṃ") None
       empty_world
     = (Raise OSError, empty_world).
Proof.
  apply failed_load_caches_nothing; reflexivity.
Defined.

Lemma convenience_function_is_get_then_method_witness :
  fst (transliterate PyRe.engine normalize_id none_raises (fun s => s)
         none_raises upper_ascii one_row_file (u "བཛྲ་") (u "iast") false
         (u "ṃ") None empty_world)
  = Ok (u "vajra").
Proof.
  rewrite (convenience_function_is_get_then_method PyRe.engine normalize_id
             none_raises (fun s => s) none_raises upper_ascii one_row_file
             (u "བཛྲ་") (u "iast") false (u "ṃ") None empty_world eq_refl).
  vm_compute. reflexivity.
Defined.

Lemma cache_stays_valid_witness :
  cache_valid (snd (get_transliterator normalize_id none_raises one_row_file
                      None empty_world)).
Proof.
  exact (proj1 (cache_stays_valid PyRe.engine normalize_id none_raises
                  (fun s => s) none_raises upper_ascii one_row_file [] []
                  false [] None 0 empty_world I)).
Defined.

(** ** Texts the steps after the loop leave alone *)

(** X24: with capitalization, a text in which no two spaces stand in a row
    has only its first character upper-cased (lines 128-130). *)
Theorem capitalize_first_only (upper : char -> str) (c : char) (t : str) :
  no_double_space (upper c ++ t) = true ->
  capitalization upper true (c :: t) = Ok (upper c ++ t).
Proof.
  intros H. unfold capitalization, re_sub_fn. cbn [re_compile PyRe.engine].
  change (PyRe.compile (u " {2,}(.)")) with (Ok (space_run_then_char, 1)).
  cbn [bind]. apply sub_loop_no_match. cbn [re_search PyRe.engine fst].
  now apply find_space_run_then_char_none.
Qed.

Lemma capitalize_first_only_witness :
  capitalization upper_ascii true (u "vajra sattva")
  = Ok (upper_ascii 118%N ++ u "ajra sattva").
Proof.
  apply (capitalize_first_only upper_ascii 118%N (u "ajra sattva")).
  vm_compute. reflexivity.
Defined.

Section Settled.
Variable E : Re.engine.
Variable normalize_tibetan : str -> bool -> str.
Variable normalize_tibetan_none : outcome value.
Variable normalize_iast : str -> str.
Variable normalize_iast_none : outcome value.
Variable upper : char -> str.

(** X25: when no rule's pattern occurs in the input, capitalization is off,
    the style is not 'ṁ', and the normalized input with its tsheks made
    spaces holds no "^^^", no 'a' before one of ā ī ū ṛ ṝ ḷ ḹ ṃ ṁ and no two
    spaces in a row, transliterate returns exactly that text, trimmed
    (lines 118-138). *)
Theorem settled_text_only_trimmed (rules : list rule) (text mode : str)
    (anusvara_style : str) :
  forallb (fun word =>
             rule_inert E normalize_iast normalize_iast_none mode word
               (normalize_tibetan text true))
          rules = true ->
  settled (replace (u "་") (u " ") (normalize_tibetan text true)) = true ->
  anusvara_style <> u "ṁ" ->
  transliterate_rules E normalize_tibetan normalize_iast normalize_iast_none
    upper rules text mode false anusvara_style
  = Ok (strip (replace (u "་") (u " ") (normalize_tibetan text true))).
Proof.
  intros Hi Hs Hst. unfold transliterate_rules.
  rewrite rule_loop_inert by exact Hi. cbn [bind]. unfold finish.
  unfold settled in Hs. apply andb_prop in Hs as [Hs H3].
  apply andb_prop in Hs as [H1 H2]. apply negb_true_iff in H1.
  rewrite (placeholder_absent _ H1). cbn [bind].
  rewrite vowel_cleanup_dominates, (drop_a_fixed _ _ H2). cbn [bind].
  unfold capitalization, re_sub. cbn [re_compile re_template PyRe.engine].
  change (PyRe.compile (u " {2,}")) with (Ok (space_run, 0)). cbn [bind snd].
  change (PyRe.parse_template 0 (u "    "))
    with (Ok [TLit [32%N]; TLit [32%N]; TLit [32%N]; TLit [32%N]]).
  cbn [bind].
  rewrite sub_loop_space_run by (unfold sub_fuel; lia).
  cbn [bind]. rewrite (squeeze_fixed _ H3).
  unfold apply_anusvara_style. now rewrite (eqb_str_false _ _ Hst).
Qed.

End Settled.

Lemma settled_text_only_trimmed_witness :
  run [mk "བཛྲ" "vajra" ""] (u "ཀ་ཁ་") (u "iast") false (u "ṃ")
  = Ok (strip (replace (u "་") (u " ") (u "ཀ་ཁ་"))).
Proof.
  apply (settled_text_only_trimmed PyRe.engine normalize_id (fun s => s)
           none_raises upper_ascii);
    [vm_compute; reflexivity | vm_compute; reflexivity | vm_compute; discriminate].
Defined.


(** ** The steps after the loop, for every working text *)

Section LastSteps.
Variable E : Re.engine.
Variable normalize_tibetan : str -> bool -> str.
Variable normalize_iast : str -> str.
Variable normalize_iast_none : outcome value.
Variable upper : char -> str.

(** X27: what lines 118-138 do to the text the loop leaves, whatever it is:
    every tshek becomes a space; every "^^^", found from left to right
    without overlap, is deleted, with the space directly before it when
    there is one; every 'a' directly before one of
    ā ī ū ṛ ṝ ḷ ḹ ṃ ṁ is deleted; the runs of spaces are widened (without
    capitalize every maximal run of two or more becomes four; with
    capitalize the first character is upper-cased, two or more spaces and
    the character after them become four spaces and that character
    upper-cased, and before a line feed or the end of the text the last of
    three or more spaces is taken for the character); with the style 'ṁ'
    every 'ṃ' becomes 'ṁ'; the result is stripped.  None of these steps
    raises. *)
Theorem last_steps_on_lists (rules : list rule) (text mode : str)
    (capitalize : bool) (anusvara_style : str) :
  transliterate_rules E normalize_tibetan normalize_iast normalize_iast_none
    upper rules text mode capitalize anusvara_style
  = (replaced <- rule_loop E normalize_iast normalize_iast_none mode rules
                   (normalize_tibetan text true) ;;
     Ok (strip
           (style_glyph anusvara_style
              (widen_spaces upper capitalize
                 (drop_a dominates_a
                    (drop_placeholder (tshek_to_space replaced))))))).
Proof.
  unfold transliterate_rules.
  destruct (rule_loop E normalize_iast normalize_iast_none mode rules
              (normalize_tibetan text true)); cbn [bind];
    [apply finish_on_lists | reflexivity].
Qed.

End LastSteps.

(** With capitalization, two spaces before a line feed stay, three become
    five, and two before a letter become four. *)
Example spaces_before_line_feed :
  capitalization upper_ascii true
    [97; 32; 32; 10; 98; 32; 32; 32; 10; 99; 32; 32; 100]%N
  = Ok [65; 32; 32; 10; 98; 32; 32; 32; 32; 32; 10; 99; 32; 32; 32; 32; 68]%N.
Proof. vm_compute. reflexivity. Qed.

(** The placeholder goes with one space before it, and only one. *)
Example placeholder_with_spaces :
  run [] (u "a  ^^^b ^^^^c") (u "iast") false (u "ṃ") = Ok (u "a b^c").
Proof. vm_compute. reflexivity. Qed.
